(** * The Lobster symbol table ([dev/src/idents.h])

    A shallow embedding of [struct Ident], [struct SharedField],
    [struct Struct], [struct Function] and [struct SymbolTable], followed by
    the properties of the symbol table that the design document states.

    Conventions of the embedding.
    - Every object created with [new] lives in an arena, one per class; a
      pointer is the position of the object in its arena and a nullable
      pointer is an [option].  The index tables ([identtable], ...) hold
      pointers, so "the entity stored at position [i]" and "the entity whose
      [idx] field is [i]" are separate notions.
    - [int] and [short] values are integers of [Z]; every narrowing
      conversion of the source ([size_t] to [int], [int] to [short]) is
      written out as a two's complement wrap-around.
    - [std::map<string, T *>] is a [gmap string], [std::vector] a [list]
      whose last element is [back ()].
    - A member function is a function from the state to an [outcome]: a
      normal return, an exception thrown by [Lex::Error] (with the state at
      the point of the throw), or a run without a result (a failed [assert],
      behaviour the language leaves undefined: a dangling pointer, an index
      out of range, [back ()] of an empty vector, or a loop that never
      ends). *)

From stdpp Require Import gmap strings list fin_maps.
From Stdlib Require Import ZArith Lia.

(** ** Machine integers *)

Module Int.

(** Two's complement wrap-around of [z] to [bits] bits. *)
Definition wrap (bits : Z) (z : Z) : Z :=
  ((z + 2 ^ (bits - 1)) mod 2 ^ bits - 2 ^ (bits - 1))%Z.

Definition to_int (z : Z) : Z := wrap 32 z.
Definition to_short (z : Z) : Z := wrap 16 z.

(** [int (v.size ())]: a [size_t] narrowed to [int]. *)
Definition of_size (n : nat) : Z := to_int (Z.of_nat n).

Definition INT_MAX : Z := (2 ^ 31 - 1)%Z.

Definition is_short (z : Z) : Prop := (- 2 ^ 15 <= z < 2 ^ 15)%Z.

End Int.

(** ** Outcomes of member functions *)

Inductive outcome (S A : Type) : Type :=
| Ret (a : A) (s : S)
| Throw (msg : string) (s : S)
| Abort.

Arguments Ret {S A} a s.
Arguments Throw {S A} msg s.
Arguments Abort {S A}.

Definition M (S A : Type) : Type := S → outcome S A.

Definition ret {S A : Type} (a : A) : M S A := λ s, Ret a s.

Definition bind {S A B : Type} (m : M S A) (k : A → M S B) : M S B :=
  λ s, match m s with
       | Ret a s' => k a s'
       | Throw msg s' => Throw msg s'
       | Abort => Abort
       end.

(** Modelled from the spec: [Lex::Error] (class [Lex] is not part of this
    header).  "Error(message) -> never returns": it raises the compile-time
    failure at the point of the violation. *)
Definition Error {S A : Type} (msg : string) : M S A := λ s, Throw msg s.

(** A failed [assert], undefined behaviour, or no termination. *)
Definition abort {S A : Type} : M S A := λ _, Abort.

Definition get {S : Type} : M S S := λ s, Ret s s.
Definition put {S : Type} (s : S) : M S unit := λ _, Ret tt s.
Definition modify {S : Type} (f : S → S) : M S unit := λ s, Ret tt (f s).

(** Dereference of something that may be missing. *)
Definition deref {S A : Type} (o : option A) : M S A :=
  match o with
  | Some a => ret a
  | None => abort
  end.

Declare Scope cpp_scope.
Delimit Scope cpp_scope with cpp.
Notation "x <- m ;; k" := (bind m (λ x, k))
  (at level 100, m at next level, right associativity) : cpp_scope.
Notation "m ;;; k" := (bind m (λ _, k))
  (at level 100, right associativity) : cpp_scope.
Local Open Scope cpp_scope.

(** The state an outcome carries, when the run was not aborted. *)
Definition state_of {S A : Type} (o : outcome S A) : option S :=
  match o with
  | Ret _ s | Throw _ s => Some s
  | Abort => None
  end.

(** ** [std::vector] *)

Definition push_back {A : Type} (x : A) (v : list A) : list A := v ++ [x].
Definition pop_back {A : Type} (v : list A) : list A := removelast v.
Definition back {A : Type} (v : list A) : option A := last v.

(** ** Pointers *)

(** A pointer to an object is its position in the arena of its class. *)
Abbreviation ptr := nat (only parsing).

(** [if (p)] for a nullable pointer [p]. *)
Definition nonnull {A : Type} (p : option A) : bool :=
  match p with
  | Some _ => true
  | None => false
  end.

(** ** [Type] (declared elsewhere) *)

(** Modelled from the spec: [Type] and [ValueType] are declared outside this
    header.  "An opaque Type value with at least a discriminant and, for
    record types, an index into the struct table".  The header itself names
    the discriminants [V_STRUCT] and [V_UNDEFINED] and the member [idx]. *)
Inductive ValueType : Type :=
| V_UNDEFINED
| V_STRUCT
| V_BUILTIN (tag : Z).

Record Type_ : Type := mkType { ty_t : ValueType; ty_idx : Z }.

Definition Type_default : Type_ := mkType V_UNDEFINED (-1).

(** ** [struct Ident : Name] *)

(** Modelled from the spec: the base [struct Name] is declared outside this
    header.  "NamedEntity: name, idx"; the header reads a third member,
    [isprivate], which the two-argument constructor [Name (name, idx)]
    leaves cleared.  Its members are inlined in each derived record. *)
Module Ident.

Record t : Type := mk {
  name : string;
  idx : Z;
  isprivate : bool;
  line : Z;
  scope : nat;
  prev : option ptr;
  sf : option ptr;
  single_assignment : bool;
  constant : bool;
  static_constant : bool;
  logvaridx : Z;
  type : Type_
}.

(** [Ident (const string &_name, int _l, int _idx, size_t _sc)] *)
Definition new (_name : string) (_l _idx : Z) (_sc : nat) : t :=
  {| name := _name; idx := _idx; isprivate := false;
     line := _l; scope := _sc; prev := None; sf := None;
     single_assignment := true; constant := false;
     static_constant := false; logvaridx := (-1)%Z;
     type := Type_default |}.

Definition set_prev (v : option ptr) (i : t) : t :=
  {| name := name i; idx := idx i; isprivate := isprivate i;
     line := line i; scope := scope i; prev := v; sf := sf i;
     single_assignment := single_assignment i; constant := constant i;
     static_constant := static_constant i; logvaridx := logvaridx i;
     type := type i |}.

Definition set_sf (v : option ptr) (i : t) : t :=
  {| name := name i; idx := idx i; isprivate := isprivate i;
     line := line i; scope := scope i; prev := prev i; sf := v;
     single_assignment := single_assignment i; constant := constant i;
     static_constant := static_constant i; logvaridx := logvaridx i;
     type := type i |}.

Definition set_single_assignment (v : bool) (i : t) : t :=
  {| name := name i; idx := idx i; isprivate := isprivate i;
     line := line i; scope := scope i; prev := prev i; sf := sf i;
     single_assignment := v; constant := constant i;
     static_constant := static_constant i; logvaridx := logvaridx i;
     type := type i |}.

Definition set_constant (v : bool) (i : t) : t :=
  {| name := name i; idx := idx i; isprivate := isprivate i;
     line := line i; scope := scope i; prev := prev i; sf := sf i;
     single_assignment := single_assignment i; constant := v;
     static_constant := static_constant i; logvaridx := logvaridx i;
     type := type i |}.

Definition set_isprivate (v : bool) (i : t) : t :=
  {| name := name i; idx := idx i; isprivate := v;
     line := line i; scope := scope i; prev := prev i; sf := sf i;
     single_assignment := single_assignment i; constant := constant i;
     static_constant := static_constant i; logvaridx := logvaridx i;
     type := type i |}.

(** [void Assign (Lex &lex)]: the flag is cleared first, then the
    identifier is checked. *)
Definition Assign : M t unit :=
  modify (set_single_assignment false) ;;;
  this <- get ;;
  if constant this
  then Error ("variable " +:+ name this +:+ " is constant")
  else ret tt.

End Ident.

(** ** [struct FieldOffset] and [struct SharedField : Name] *)

Module FieldOffset.

Record t : Type := mk { structidx : Z; offset : Z }.

(** [FieldOffset (int _si, int _o)]: both members are [short]. *)
Definition new (_si _o : Z) : t :=
  {| structidx := Int.to_short _si; offset := Int.to_short _o |}.

End FieldOffset.

Module SharedField.

Record t : Type := mk {
  name : string;
  idx : Z;
  isprivate : bool;
  offsets : list FieldOffset.t;
  numunique : Z;
  fo1 : FieldOffset.t;
  foN : FieldOffset.t;
  offsettable : Z
}.

(** [SharedField (const string &_name, int _idx)]; [fo1] and [foN] are
    default constructed, [FieldOffset (-1, -1)]. *)
Definition new (_name : string) (_idx : Z) : t :=
  {| name := _name; idx := _idx; isprivate := false;
     offsets := []; numunique := 0%Z;
     fo1 := FieldOffset.new (-1) (-1); foN := FieldOffset.new (-1) (-1);
     offsettable := (-1)%Z |}.

(** The [for] loop of [NewFieldUse]: is some logged offset equal to the
    new one? *)
Fixpoint found (offs : list FieldOffset.t) (nfo : FieldOffset.t) : bool :=
  match offs with
  | [] => false
  | fo :: rest =>
      if decide (FieldOffset.offset fo = FieldOffset.offset nfo)
      then true
      else found rest nfo
  end.

(** [void NewFieldUse (const FieldOffset &nfo)] *)
Definition NewFieldUse (nfo : FieldOffset.t) (f : t) : t :=
  {| name := name f; idx := idx f; isprivate := isprivate f;
     offsets := offsets f ++ [nfo];
     numunique := if found (offsets f) nfo
                  then numunique f
                  else Int.to_int (numunique f + 1);
     fo1 := fo1 f; foN := foN f; offsettable := offsettable f |}.

(** A sequence of registrations, in call order. *)
Definition register_all (uses : list FieldOffset.t) (f : t) : t :=
  foldl (λ acc nfo, NewFieldUse nfo acc) f uses.

End SharedField.

(** ** [struct UniqueField] and [struct Struct : Name] *)

Module UniqueField.

Record t : Type := mk { type : Type_; sf : option ptr }.

End UniqueField.

Module Struct.

Record t : Type := mk {
  name : string;
  idx : Z;
  isprivate : bool;
  fields : list UniqueField.t;
  superclass : option ptr;
  superclassidx : Z;
  readonly : bool
}.

(** [Struct (const string &_name, int _idx)] *)
Definition new (_name : string) (_idx : Z) : t :=
  {| name := _name; idx := _idx; isprivate := false; fields := [];
     superclass := None; superclassidx := (-1)%Z; readonly := false |}.

Definition set_fields (v : list UniqueField.t) (s : t) : t :=
  {| name := name s; idx := idx s; isprivate := isprivate s; fields := v;
     superclass := superclass s; superclassidx := superclassidx s;
     readonly := readonly s |}.

(** [UniqueField *Has (SharedField *fld)]: the first field whose shared
    field is [fld], by linear scan. *)
Fixpoint Has_from (ufs : list UniqueField.t) (fld : option ptr)
  : option UniqueField.t :=
  match ufs with
  | [] => None
  | uf :: rest =>
      if decide (UniqueField.sf uf = fld) then Some uf else Has_from rest fld
  end.

Definition Has (fld : option ptr) (s : t) : option UniqueField.t :=
  Has_from (fields s) fld.

End Struct.

(** ** [struct Function : Name] *)

Module Function.

Record t : Type := mk {
  name : string;
  idx : Z;
  isprivate : bool;
  nargs : Z;
  bytecodestart : Z;
  subf : option ptr;
  sibf : option ptr;
  multimethod : bool;
  scopelevel : Z;
  retvals : Z;
  ncalls : Z
}.

(** [Function (const string &_name, int _idx, int _nargs, int _sl)] *)
Definition new (_name : string) (_idx _nargs _sl : Z) : t :=
  {| name := _name; idx := _idx; isprivate := false; nargs := _nargs;
     bytecodestart := 0%Z; subf := None; sibf := None;
     multimethod := false; scopelevel := _sl; retvals := 0%Z;
     ncalls := 0%Z |}.

Definition set_sibf (v : option ptr) (f : t) : t :=
  {| name := name f; idx := idx f; isprivate := isprivate f;
     nargs := nargs f; bytecodestart := bytecodestart f; subf := subf f;
     sibf := v; multimethod := multimethod f; scopelevel := scopelevel f;
     retvals := retvals f; ncalls := ncalls f |}.

End Function.

(** ** [struct SubFunction] *)

(** [Arg] and [Node] are declared outside this header; the sub-function only
    holds pointers to them.  Sub-functions are owned by their [Function],
    not by the symbol table: where a member function of the table follows
    [Ident::sf], the arena of sub-functions is an argument. *)
Module SubFunction.

Record t : Type := mk {
  args : option ptr;
  body : option ptr;
  next : option ptr;
  parent : option ptr;
  subbytecodestart : Z;
  typechecked : bool;
  returntype : Type_
}.

(** [SubFunction (Function *_p)] *)
Definition new (_p : option ptr) : t :=
  {| args := None; body := None; next := None; parent := _p;
     subbytecodestart := 0%Z; typechecked := false;
     returntype := mkType V_UNDEFINED (-1) |}.

End SubFunction.

(** ** [struct SymbolTable] *)

Module SymbolTable.

(** The four arenas come first: the objects that the table allocates with
    [new] and frees in its destructor.  The other members are those of the
    source, in its order. *)
Record t : Type := mk {
  ident_heap : list Ident.t;
  struct_heap : list Struct.t;
  field_heap : list SharedField.t;
  function_heap : list Function.t;
  idents : gmap string ptr;
  identtable : list ptr;
  identstack : list ptr;
  structs : gmap string (option ptr);
  structtable : list ptr;
  fields : gmap string ptr;
  fieldtable : list ptr;
  functions : gmap string ptr;
  functiontable : list ptr;
  filenames : list string;
  scopelevels : list nat;
  withstack : list (Type_ * option ptr);
  withstacklevels : list nat;
  uses_frame_state : bool
}.

(** [SymbolTable ()] *)
Definition new : t :=
  {| ident_heap := []; struct_heap := []; field_heap := [];
     function_heap := []; idents := ∅; identtable := []; identstack := [];
     structs := ∅; structtable := []; fields := ∅; fieldtable := [];
     functions := ∅; functiontable := []; filenames := [];
     scopelevels := []; withstack := []; withstacklevels := [];
     uses_frame_state := false |}.

Definition set_ident_heap (f : list Ident.t → list Ident.t) (s : t) : t :=
  {| ident_heap := f (ident_heap s); struct_heap := struct_heap s;
     field_heap := field_heap s; function_heap := function_heap s;
     idents := idents s; identtable := identtable s;
     identstack := identstack s; structs := structs s;
     structtable := structtable s; fields := fields s;
     fieldtable := fieldtable s; functions := functions s;
     functiontable := functiontable s; filenames := filenames s;
     scopelevels := scopelevels s; withstack := withstack s;
     withstacklevels := withstacklevels s;
     uses_frame_state := uses_frame_state s |}.

Definition set_struct_heap (f : list Struct.t → list Struct.t) (s : t) : t :=
  {| ident_heap := ident_heap s; struct_heap := f (struct_heap s);
     field_heap := field_heap s; function_heap := function_heap s;
     idents := idents s; identtable := identtable s;
     identstack := identstack s; structs := structs s;
     structtable := structtable s; fields := fields s;
     fieldtable := fieldtable s; functions := functions s;
     functiontable := functiontable s; filenames := filenames s;
     scopelevels := scopelevels s; withstack := withstack s;
     withstacklevels := withstacklevels s;
     uses_frame_state := uses_frame_state s |}.

Definition set_field_heap (f : list SharedField.t → list SharedField.t) (s : t) : t :=
  {| ident_heap := ident_heap s; struct_heap := struct_heap s;
     field_heap := f (field_heap s); function_heap := function_heap s;
     idents := idents s; identtable := identtable s;
     identstack := identstack s; structs := structs s;
     structtable := structtable s; fields := fields s;
     fieldtable := fieldtable s; functions := functions s;
     functiontable := functiontable s; filenames := filenames s;
     scopelevels := scopelevels s; withstack := withstack s;
     withstacklevels := withstacklevels s;
     uses_frame_state := uses_frame_state s |}.

Definition set_function_heap (f : list Function.t → list Function.t) (s : t) : t :=
  {| ident_heap := ident_heap s; struct_heap := struct_heap s;
     field_heap := field_heap s; function_heap := f (function_heap s);
     idents := idents s; identtable := identtable s;
     identstack := identstack s; structs := structs s;
     structtable := structtable s; fields := fields s;
     fieldtable := fieldtable s; functions := functions s;
     functiontable := functiontable s; filenames := filenames s;
     scopelevels := scopelevels s; withstack := withstack s;
     withstacklevels := withstacklevels s;
     uses_frame_state := uses_frame_state s |}.

Definition set_idents (f : gmap string ptr → gmap string ptr) (s : t) : t :=
  {| ident_heap := ident_heap s; struct_heap := struct_heap s;
     field_heap := field_heap s; function_heap := function_heap s;
     idents := f (idents s); identtable := identtable s;
     identstack := identstack s; structs := structs s;
     structtable := structtable s; fields := fields s;
     fieldtable := fieldtable s; functions := functions s;
     functiontable := functiontable s; filenames := filenames s;
     scopelevels := scopelevels s; withstack := withstack s;
     withstacklevels := withstacklevels s;
     uses_frame_state := uses_frame_state s |}.

Definition set_identtable (f : list ptr → list ptr) (s : t) : t :=
  {| ident_heap := ident_heap s; struct_heap := struct_heap s;
     field_heap := field_heap s; function_heap := function_heap s;
     idents := idents s; identtable := f (identtable s);
     identstack := identstack s; structs := structs s;
     structtable := structtable s; fields := fields s;
     fieldtable := fieldtable s; functions := functions s;
     functiontable := functiontable s; filenames := filenames s;
     scopelevels := scopelevels s; withstack := withstack s;
     withstacklevels := withstacklevels s;
     uses_frame_state := uses_frame_state s |}.

Definition set_identstack (f : list ptr → list ptr) (s : t) : t :=
  {| ident_heap := ident_heap s; struct_heap := struct_heap s;
     field_heap := field_heap s; function_heap := function_heap s;
     idents := idents s; identtable := identtable s;
     identstack := f (identstack s); structs := structs s;
     structtable := structtable s; fields := fields s;
     fieldtable := fieldtable s; functions := functions s;
     functiontable := functiontable s; filenames := filenames s;
     scopelevels := scopelevels s; withstack := withstack s;
     withstacklevels := withstacklevels s;
     uses_frame_state := uses_frame_state s |}.

Definition set_structs (f : gmap string (option ptr) → gmap string (option ptr)) (s : t) : t :=
  {| ident_heap := ident_heap s; struct_heap := struct_heap s;
     field_heap := field_heap s; function_heap := function_heap s;
     idents := idents s; identtable := identtable s;
     identstack := identstack s; structs := f (structs s);
     structtable := structtable s; fields := fields s;
     fieldtable := fieldtable s; functions := functions s;
     functiontable := functiontable s; filenames := filenames s;
     scopelevels := scopelevels s; withstack := withstack s;
     withstacklevels := withstacklevels s;
     uses_frame_state := uses_frame_state s |}.

Definition set_structtable (f : list ptr → list ptr) (s : t) : t :=
  {| ident_heap := ident_heap s; struct_heap := struct_heap s;
     field_heap := field_heap s; function_heap := function_heap s;
     idents := idents s; identtable := identtable s;
     identstack := identstack s; structs := structs s;
     structtable := f (structtable s); fields := fields s;
     fieldtable := fieldtable s; functions := functions s;
     functiontable := functiontable s; filenames := filenames s;
     scopelevels := scopelevels s; withstack := withstack s;
     withstacklevels := withstacklevels s;
     uses_frame_state := uses_frame_state s |}.

Definition set_fields (f : gmap string ptr → gmap string ptr) (s : t) : t :=
  {| ident_heap := ident_heap s; struct_heap := struct_heap s;
     field_heap := field_heap s; function_heap := function_heap s;
     idents := idents s; identtable := identtable s;
     identstack := identstack s; structs := structs s;
     structtable := structtable s; fields := f (fields s);
     fieldtable := fieldtable s; functions := functions s;
     functiontable := functiontable s; filenames := filenames s;
     scopelevels := scopelevels s; withstack := withstack s;
     withstacklevels := withstacklevels s;
     uses_frame_state := uses_frame_state s |}.

Definition set_fieldtable (f : list ptr → list ptr) (s : t) : t :=
  {| ident_heap := ident_heap s; struct_heap := struct_heap s;
     field_heap := field_heap s; function_heap := function_heap s;
     idents := idents s; identtable := identtable s;
     identstack := identstack s; structs := structs s;
     structtable := structtable s; fields := fields s;
     fieldtable := f (fieldtable s); functions := functions s;
     functiontable := functiontable s; filenames := filenames s;
     scopelevels := scopelevels s; withstack := withstack s;
     withstacklevels := withstacklevels s;
     uses_frame_state := uses_frame_state s |}.

Definition set_functions (f : gmap string ptr → gmap string ptr) (s : t) : t :=
  {| ident_heap := ident_heap s; struct_heap := struct_heap s;
     field_heap := field_heap s; function_heap := function_heap s;
     idents := idents s; identtable := identtable s;
     identstack := identstack s; structs := structs s;
     structtable := structtable s; fields := fields s;
     fieldtable := fieldtable s; functions := f (functions s);
     functiontable := functiontable s; filenames := filenames s;
     scopelevels := scopelevels s; withstack := withstack s;
     withstacklevels := withstacklevels s;
     uses_frame_state := uses_frame_state s |}.

Definition set_functiontable (f : list ptr → list ptr) (s : t) : t :=
  {| ident_heap := ident_heap s; struct_heap := struct_heap s;
     field_heap := field_heap s; function_heap := function_heap s;
     idents := idents s; identtable := identtable s;
     identstack := identstack s; structs := structs s;
     structtable := structtable s; fields := fields s;
     fieldtable := fieldtable s; functions := functions s;
     functiontable := f (functiontable s); filenames := filenames s;
     scopelevels := scopelevels s; withstack := withstack s;
     withstacklevels := withstacklevels s;
     uses_frame_state := uses_frame_state s |}.

Definition set_filenames (f : list string → list string) (s : t) : t :=
  {| ident_heap := ident_heap s; struct_heap := struct_heap s;
     field_heap := field_heap s; function_heap := function_heap s;
     idents := idents s; identtable := identtable s;
     identstack := identstack s; structs := structs s;
     structtable := structtable s; fields := fields s;
     fieldtable := fieldtable s; functions := functions s;
     functiontable := functiontable s; filenames := f (filenames s);
     scopelevels := scopelevels s; withstack := withstack s;
     withstacklevels := withstacklevels s;
     uses_frame_state := uses_frame_state s |}.

Definition set_scopelevels (f : list nat → list nat) (s : t) : t :=
  {| ident_heap := ident_heap s; struct_heap := struct_heap s;
     field_heap := field_heap s; function_heap := function_heap s;
     idents := idents s; identtable := identtable s;
     identstack := identstack s; structs := structs s;
     structtable := structtable s; fields := fields s;
     fieldtable := fieldtable s; functions := functions s;
     functiontable := functiontable s; filenames := filenames s;
     scopelevels := f (scopelevels s); withstack := withstack s;
     withstacklevels := withstacklevels s;
     uses_frame_state := uses_frame_state s |}.

Definition set_withstack (f : list (Type_ * option ptr) → list (Type_ * option ptr)) (s : t) : t :=
  {| ident_heap := ident_heap s; struct_heap := struct_heap s;
     field_heap := field_heap s; function_heap := function_heap s;
     idents := idents s; identtable := identtable s;
     identstack := identstack s; structs := structs s;
     structtable := structtable s; fields := fields s;
     fieldtable := fieldtable s; functions := functions s;
     functiontable := functiontable s; filenames := filenames s;
     scopelevels := scopelevels s; withstack := f (withstack s);
     withstacklevels := withstacklevels s;
     uses_frame_state := uses_frame_state s |}.

Definition set_withstacklevels (f : list nat → list nat) (s : t) : t :=
  {| ident_heap := ident_heap s; struct_heap := struct_heap s;
     field_heap := field_heap s; function_heap := function_heap s;
     idents := idents s; identtable := identtable s;
     identstack := identstack s; structs := structs s;
     structtable := structtable s; fields := fields s;
     fieldtable := fieldtable s; functions := functions s;
     functiontable := functiontable s; filenames := filenames s;
     scopelevels := scopelevels s; withstack := withstack s;
     withstacklevels := f (withstacklevels s);
     uses_frame_state := uses_frame_state s |}.

Definition set_uses_frame_state (f : bool → bool) (s : t) : t :=
  {| ident_heap := ident_heap s; struct_heap := struct_heap s;
     field_heap := field_heap s; function_heap := function_heap s;
     idents := idents s; identtable := identtable s;
     identstack := identstack s; structs := structs s;
     structtable := structtable s; fields := fields s;
     fieldtable := fieldtable s; functions := functions s;
     functiontable := functiontable s; filenames := filenames s;
     scopelevels := scopelevels s; withstack := withstack s;
     withstacklevels := withstacklevels s;
     uses_frame_state := f (uses_frame_state s) |}.
(** *** Arenas: [new] and dereference *)

Definition ident_at (p : ptr) : M t Ident.t :=
  λ s, deref (ident_heap s !! p) s.

Definition struct_at (p : ptr) : M t Struct.t :=
  λ s, deref (struct_heap s !! p) s.

Definition field_at (p : ptr) : M t SharedField.t :=
  λ s, deref (field_heap s !! p) s.

Definition function_at (p : ptr) : M t Function.t :=
  λ s, deref (function_heap s !! p) s.

Definition new_Ident (i : Ident.t) : M t ptr :=
  λ s, Ret (length (ident_heap s)) (set_ident_heap (push_back i) s).

Definition new_Struct (x : Struct.t) : M t ptr :=
  λ s, Ret (length (struct_heap s)) (set_struct_heap (push_back x) s).

Definition new_SharedField (x : SharedField.t) : M t ptr :=
  λ s, Ret (length (field_heap s)) (set_field_heap (push_back x) s).

Definition new_Function (x : Function.t) : M t ptr :=
  λ s, Ret (length (function_heap s)) (set_function_heap (push_back x) s).

(** [p->member = ...]: a write through a pointer. *)
Definition update_ident (p : ptr) (f : Ident.t → Ident.t) : M t unit :=
  i <- ident_at p ;; modify (set_ident_heap (λ h, <[p := f i]> h)).

Definition update_struct (p : ptr) (f : Struct.t → Struct.t) : M t unit :=
  x <- struct_at p ;; modify (set_struct_heap (λ h, <[p := f x]> h)).

Definition update_field (p : ptr) (f : SharedField.t → SharedField.t)
  : M t unit :=
  x <- field_at p ;; modify (set_field_heap (λ h, <[p := f x]> h)).

Definition update_function (p : ptr) (f : Function.t → Function.t)
  : M t unit :=
  x <- function_at p ;; modify (set_function_heap (λ h, <[p := f x]> h)).

(** A member function of [Ident] called through a pointer. *)
Definition on_ident {A : Type} (p : ptr) (m : M Ident.t A) : M t A :=
  λ s, match ident_heap s !! p with
       | None => Abort
       | Some i =>
           match m i with
           | Ret a i' => Ret a (set_ident_heap (λ h, <[p := i']> h) s)
           | Throw msg i' => Throw msg (set_ident_heap (λ h, <[p := i']> h) s)
           | Abort => Abort
           end
       end.

(** [structtable[i]] for an [int] index, then the dereference. *)
Definition structtable_at (i : Z) : M t Struct.t :=
  λ s, if decide (0 ≤ i)%Z
       then match structtable s !! Z.to_nat i with
            | Some p => struct_at p s
            | None => Abort
            end
       else Abort.

(** *** Fields and the with-stack *)

(** [SharedField *FieldUse (const string &name)] *)
Definition FieldUse (name : string) (s : t) : option ptr := fields s !! name.

(** The loop of [LookupWithStruct] over the with-stack; [id] is the
    reference parameter. *)
Fixpoint LookupWithStruct_loop (fld : ptr) (ws : list (Type_ * option ptr))
    (id : option ptr) : M t (option ptr) :=
  match ws with
  | [] => ret id
  | wp :: rest =>
      st <- structtable_at (ty_idx wp.1) ;;
      if nonnull (Struct.Has (Some fld) st)
      then
        (if nonnull id
         then f <- field_at fld ;;
              Error ("access to ambiguous field: " +:+ SharedField.name f)
         else ret tt) ;;;
        LookupWithStruct_loop fld rest wp.2
      else LookupWithStruct_loop fld rest id
  end.

(** [SharedField *LookupWithStruct (const string &name, Lex &lex,
    Ident *&id)]: the result is the returned pointer and the final value of
    [id]. *)
Definition LookupWithStruct (name : string) (id : option ptr)
  : M t (option ptr * option ptr) :=
  s <- get ;;
  match FieldUse name s with
  | None => ret (None, id)
  | Some fld =>
      (if nonnull id then abort else ret tt) ;;;
      id' <- LookupWithStruct_loop fld (withstack s) id ;;
      ret (if nonnull id' then Some fld else None, id')
  end.

(** [void AddWithStruct (Type &t, Ident *id, Lex &lex)] *)
Fixpoint AddWithStruct_loop (ws : list (Type_ * option ptr)) (ty : Type_)
  : M t unit :=
  match ws with
  | [] => ret tt
  | wp :: rest =>
      (if decide (ty_idx wp.1 = ty_idx ty)
       then Error "type used twice in the same scope with ::"
       else ret tt) ;;;
      AddWithStruct_loop rest ty
  end.

Definition AddWithStruct (ty : Type_) (id : option ptr) : M t unit :=
  s <- get ;;
  AddWithStruct_loop (withstack s) ty ;;;
  (if decide (0 ≤ ty_idx ty)%Z then ret tt else abort) ;;;
  modify (set_withstack (push_back (ty, id))).

(** *** Identifiers *)

(** [Ident *LookupLexDefOrDynScope (const string &name, int line, Lex &lex,
    bool dynscope, SubFunction *sf)] *)
Definition LookupLexDefOrDynScope (name : string) (line : Z)
    (dynscope : bool) (sf : option ptr) : M t ptr :=
  s <- get ;;
  let it := idents s !! name in
  match it, dynscope with
  | Some p, true => ret p
  | _, _ =>
      r <- LookupWithStruct name None ;;
      (if nonnull r.1
       then Error ("cannot define variable with same name as field in "
                   +:+ "this scope: " +:+ name)
       else ret tt) ;;;
      level <- deref (back (scopelevels s)) ;;
      ident <- new_Ident
                 (Ident.new name line (Int.of_size (length (identtable s)))
                    level) ;;
      update_ident ident (Ident.set_sf sf) ;;;
      match it with
      | None => modify (set_idents <[name := ident]>)
      | Some p =>
          if dynscope
          then modify (set_idents <[name := ident]>)
          else
            old <- ident_at p ;;
            (if decide (level = Ident.scope old)
             then Error ("identifier redefinition: " +:+ name)
             else ret tt) ;;;
            update_ident ident (Ident.set_prev (Some p)) ;;;
            modify (set_idents <[name := ident]>)
      end ;;;
      modify (set_identstack (push_back ident)) ;;;
      modify (set_identtable (push_back ident)) ;;;
      ret ident
  end.

(** [Ident *LookupLexMaybe (const string &name)] *)
Definition LookupLexMaybe (name : string) (s : t) : option ptr :=
  idents s !! name.

(** [Ident *LookupLexUse (const string &name, Lex &lex)] *)
Definition LookupLexUse (name : string) : M t (option ptr) :=
  s <- get ;;
  let id := LookupLexMaybe name s in
  (if nonnull id then ret tt else Error ("unknown identifier: " +:+ name)) ;;;
  ret id.

(** *** Scopes *)

(** [void ScopeStart ()] *)
Definition ScopeStart : M t unit :=
  s <- get ;;
  modify (set_scopelevels (push_back (length (identstack s)))) ;;;
  modify (set_withstacklevels (push_back (length (withstack s)))).

(** The first [while] loop of [ScopeCleanup].  Every round pops one
    identifier, so [fuel] rounds are enough once [fuel] exceeds the size of
    the identifier stack. *)
Fixpoint ScopeCleanup_idents (fuel : nat) : M t unit :=
  match fuel with
  | 0 => abort
  | S fuel' =>
      s <- get ;;
      level <- deref (back (scopelevels s)) ;;
      if decide (level < length (identstack s))
      then
        ident <- deref (back (identstack s)) ;;
        i <- ident_at ident ;;
        match idents s !! Ident.name i with
        | Some _ =>
            match Ident.prev i with
            | Some q => modify (set_idents <[Ident.name i := q]>)
            | None => modify (set_idents (delete (Ident.name i)))
            end
        | None => ret tt
        end ;;;
        modify (set_identstack pop_back) ;;;
        ScopeCleanup_idents fuel'
      else ret tt
  end.

(** The second [while] loop of [ScopeCleanup]. *)
Fixpoint ScopeCleanup_withstack (fuel : nat) : M t unit :=
  match fuel with
  | 0 => abort
  | S fuel' =>
      s <- get ;;
      level <- deref (back (withstacklevels s)) ;;
      if decide (level < length (withstack s))
      then modify (set_withstack pop_back) ;;;
           ScopeCleanup_withstack fuel'
      else ret tt
  end.

(** [void ScopeCleanup (Lex &lex)] *)
Definition ScopeCleanup : M t unit :=
  s <- get ;;
  ScopeCleanup_idents (S (length (identstack s))) ;;;
  modify (set_scopelevels pop_back) ;;;
  ScopeCleanup_withstack (S (length (withstack s))) ;;;
  modify (set_withstacklevels pop_back).

(** The loop of [EndOfInclude] over the live bindings.  [std::map] visits
    them in key order and [map_to_list] in another; the outcome is the same
    for every order, since a failed assertion carries no state and erasing
    one binding leaves the others alone. *)
Fixpoint EndOfInclude_loop (its : list (string * ptr)) : M t unit :=
  match its with
  | [] => ret tt
  | it :: rest =>
      i <- ident_at it.2 ;;
      (if Ident.isprivate i
       then (if nonnull (Ident.prev i) then abort else ret tt) ;;;
            modify (set_idents (delete it.1))
       else ret tt) ;;;
      EndOfInclude_loop rest
  end.

(** [void EndOfInclude ()] *)
Definition EndOfInclude : M t unit :=
  s <- get ;; EndOfInclude_loop (map_to_list (idents s)).

(** *** Structs *)

(** [structs[name]]: [operator[]] of [std::map] enters a null pointer for a
    missing key. *)
Definition structs_subscript (name : string) : M t (option ptr) :=
  s <- get ;;
  match structs s !! name with
  | Some st => ret st
  | None => modify (set_structs <[name := None]>) ;;; ret None
  end.

(** [Struct &StructDecl (const string &name, Lex &lex)] *)
Definition StructDecl (name : string) : M t ptr :=
  st <- structs_subscript name ;;
  (if nonnull st then Error ("double declaration of type: " +:+ name) else ret tt) ;;;
  s <- get ;;
  st' <- new_Struct (Struct.new name (Int.of_size (length (structtable s)))) ;;
  modify (set_structs <[name := Some st']>) ;;;
  modify (set_structtable (push_back st')) ;;;
  ret st'.

(** [Struct &StructUse (const string &name, Lex &lex)] *)
Definition StructUse (name : string) : M t ptr :=
  st <- structs_subscript name ;;
  match st with
  | Some p => ret p
  | None => Error ("unknown type: " +:+ name)
  end.

(** [void UnregisterStruct (Struct *st)] *)
Definition UnregisterStruct (st : ptr) : M t unit :=
  x <- struct_at st ;;
  s <- get ;;
  (if nonnull (structs s !! Struct.name x) then ret tt else abort) ;;;
  modify (set_structs (delete (Struct.name x))).

(** [SharedField &FieldDecl (const string &name, int idx, Struct *st,
    Lex &lex)].  The null pointer that [fields[name]] enters for a new name
    is overwritten before anything can observe it. *)
Definition FieldDecl (name : string) (idx : Z) (st : ptr) : M t ptr :=
  s <- get ;;
  fld <- match fields s !! name with
         | Some fld => ret fld
         | None =>
             fld <- new_SharedField
                      (SharedField.new name
                         (Int.of_size (length (fieldtable s)))) ;;
             modify (set_fields <[name := fld]>) ;;;
             modify (set_fieldtable (push_back fld)) ;;;
             ret fld
         end ;;
  x <- struct_at st ;;
  update_field fld
    (SharedField.NewFieldUse (FieldOffset.new (Struct.idx x) idx)) ;;;
  ret fld.

(** *** Functions *)

(** The [for] loop of [FunctionDecl] along the sibling chain.  A chain
    without a cycle has at most as many links as the arena has functions;
    when [fuel] is the size of the arena and runs out, the chain is cyclic
    and the loop of the source does not end. *)
Fixpoint FunctionDecl_loop (fuel : nat) (f : option ptr) (nargs : Z)
  : M t (option ptr) :=
  match f with
  | None => ret None
  | Some p =>
      match fuel with
      | 0 => abort
      | S fuel' =>
          x <- function_at p ;;
          if decide (Function.nargs x = nargs)
          then ret (Some p)
          else FunctionDecl_loop fuel' (Function.sibf x) nargs
      end
  end.

(** [Function &FunctionDecl (const string &name, int nargs, Lex &lex)] *)
Definition FunctionDecl (name : string) (nargs : Z) : M t ptr :=
  s <- get ;;
  let fit := functions s !! name in
  existing <- match fit with
              | Some hd =>
                  x <- function_at hd ;;
                  (if decide (Function.scopelevel x
                              ≠ Int.of_size (length (scopelevels s)))
                   then Error ("cannot define a variation of function "
                               +:+ name +:+ " at a different scope level")
                   else ret tt) ;;;
                  FunctionDecl_loop (length (function_heap s)) (Some hd) nargs
              | None => ret None
              end ;;
  match existing with
  | Some f => ret f
  | None =>
      f <- new_Function
             (Function.new name (Int.of_size (length (functiontable s)))
                nargs (Int.of_size (length (scopelevels s)))) ;;
      modify (set_functiontable (push_back f)) ;;;
      match fit with
      | Some hd =>
          x <- function_at hd ;;
          update_function f (Function.set_sibf (Function.sibf x)) ;;;
          update_function hd (Function.set_sibf (Some f))
      | None => modify (set_functions <[name := f]>)
      end ;;;
      ret f
  end.

(** [Function *FindFunction (const string &name)] *)
Definition FindFunction (name : string) (s : t) : option ptr :=
  functions s !! name.

(** [void UnregisterFun (Function *f)] *)
Definition UnregisterFun (f : ptr) : M t unit :=
  x <- function_at f ;;
  modify (set_functions (delete (Function.name x))).

(** *** Lookups by index and by scan *)

(** Is [id] an identifier named [idname] of a function named [fname]:
    [id->name == idname && id->sf && id->sf->parent->name == fname]. *)
Definition LookupIdentInFun_test (subfunctions : list SubFunction.t)
    (idname fname : string) (id : ptr) : M t bool :=
  i <- ident_at id ;;
  if decide (Ident.name i = idname)
  then
    match Ident.sf i with
    | None => ret false
    | Some sf =>
        x <- deref (subfunctions !! sf) ;;
        parent <- deref (SubFunction.parent x) ;;
        f <- function_at parent ;;
        ret (bool_decide (Function.name f = fname))
    end
  else ret false.

(** The loop of [LookupIdentInFun] over the identifier table; a second
    match returns the null pointer at once. *)
Fixpoint LookupIdentInFun_loop (subfunctions : list SubFunction.t)
    (idname fname : string) (ids : list ptr) (found : option ptr)
  : M t (option ptr) :=
  match ids with
  | [] => ret found
  | id :: rest =>
      hit <- LookupIdentInFun_test subfunctions idname fname id ;;
      if hit
      then
        if nonnull found
        then ret None
        else LookupIdentInFun_loop subfunctions idname fname rest (Some id)
      else LookupIdentInFun_loop subfunctions idname fname rest found
  end.

(** [Ident *LookupIdentInFun (const string &idname, const string &fname)] *)
Definition LookupIdentInFun (subfunctions : list SubFunction.t)
    (idname fname : string) : M t (option ptr) :=
  s <- get ;;
  LookupIdentInFun_loop subfunctions idname fname (identtable s) None.

(** The loop of [StructIdx] over the struct table. *)
Fixpoint StructIdx_loop (name : string) (sts : list ptr)
  : M t (Z * option nat) :=
  match sts with
  | [] => ret ((-1)%Z, None)
  | st :: rest =>
      x <- struct_at st ;;
      if decide (Struct.name x = name)
      then ret (Struct.idx x, Some (length (Struct.fields x)))
      else StructIdx_loop name rest
  end.

(** [int StructIdx (const string &name, size_t &nargs)]: the result is the
    returned index and the value written to [nargs], if any. *)
Definition StructIdx (name : string) : M t (Z * option nat) :=
  s <- get ;; StructIdx_loop name (structtable s).

(** [bool ReadOnlyIdent (uint v)] *)
Definition ReadOnlyIdent (v : nat) : M t bool :=
  s <- get ;;
  (if decide (v < length (identtable s)) then ret tt else abort) ;;;
  id <- deref (identtable s !! v) ;;
  i <- ident_at id ;;
  ret (Ident.constant i).

(** [bool ReadOnlyType (uint v)] *)
Definition ReadOnlyType (v : nat) : M t bool :=
  s <- get ;;
  (if decide (v < length (structtable s)) then ret tt else abort) ;;;
  st <- deref (structtable s !! v) ;;
  x <- struct_at st ;;
  ret (Struct.readonly x).

(** [string &ReverseLookupIdent (uint v) const] *)
Definition ReverseLookupIdent (v : nat) : M t string :=
  s <- get ;;
  (if decide (v < length (identtable s)) then ret tt else abort) ;;;
  id <- deref (identtable s !! v) ;;
  i <- ident_at id ;;
  ret (Ident.name i).

(** [string &ReverseLookupType (uint v) const] *)
Definition ReverseLookupType (v : nat) : M t string :=
  s <- get ;;
  (if decide (v < length (structtable s)) then ret tt else abort) ;;;
  st <- deref (structtable s !! v) ;;
  x <- struct_at st ;;
  ret (Struct.name x).

(** [string &ReverseLookupFunction (uint v) const] *)
Definition ReverseLookupFunction (v : nat) : M t string :=
  s <- get ;;
  (if decide (v < length (functiontable s)) then ret tt else abort) ;;;
  f <- deref (functiontable s !! v) ;;
  x <- function_at f ;;
  ret (Function.name x).

End SymbolTable.

(** ** Serialization *)

Module LineInfo.

Record t : Type := mk { line : Z; fileidx : Z; bytecodestart : Z }.

End LineInfo.

Section Serialization.

(** Modelled from the spec: [Serializer] and its [operator()] overloads are
    declared outside this header.  "Writes, in fixed order ...; reads the
    same fields in the same order": one call transfers one value, out of the
    variable when the serializer writes and into it when it reads
    ([rbuf] set).  A vector of pointers is transferred with its pointees. *)
Variable Serializer : Type.
Variable rbuf : Serializer → bool.
Variable ser_string : Serializer → string → Serializer * string.
Variable ser_bool : Serializer → bool → Serializer * bool.
Variable ser_idents :
  Serializer → list Ident.t * list ptr → Serializer * (list Ident.t * list ptr).
Variable ser_functions :
  Serializer → list Function.t * list ptr
  → Serializer * (list Function.t * list ptr).
Variable ser_structs :
  Serializer → list Struct.t * list ptr
  → Serializer * (list Struct.t * list ptr).
Variable ser_fields :
  Serializer → list SharedField.t * list ptr
  → Serializer * (list SharedField.t * list ptr).
Variable ser_ints : Serializer → list Z → Serializer * list Z.
Variable ser_strings : Serializer → list string → Serializer * list string.
Variable ser_lineinfos :
  Serializer → list LineInfo.t → Serializer * list LineInfo.t.

(** The value of [__DATE__] in the running compiler. *)
Variable curvers : string.

(** Everything [Serialize] can touch: the serializer, the table, and the two
    vectors passed by reference. *)
Record image : Type := mkImage {
  ser : Serializer;
  table : SymbolTable.t;
  code : list Z;
  linenumbers : list LineInfo.t
}.

(** [void Serialize (Serializer &ser, vector<int> &code,
    vector<LineInfo> &linenumbers)] *)
Definition Serialize : M image unit :=
  λ im,
    let '(ser1, vers) := ser_string (ser im) curvers in
    if rbuf ser1 && negb (String.eqb vers curvers)
    then Throw "cannot load bytecode from a different version of the compiler"
           (mkImage ser1 (table im) (code im) (linenumbers im))
    else
      let st := table im in
      let '(ser2, ufs) := ser_bool ser1 (SymbolTable.uses_frame_state st) in
      let st := SymbolTable.set_uses_frame_state (λ _, ufs) st in
      let '(ser3, (ih, it)) :=
        ser_idents ser2 (SymbolTable.ident_heap st, SymbolTable.identtable st) in
      let st := SymbolTable.set_ident_heap (λ _, ih)
                  (SymbolTable.set_identtable (λ _, it) st) in
      let '(ser4, (fh, ft)) :=
        ser_functions ser3
          (SymbolTable.function_heap st, SymbolTable.functiontable st) in
      let st := SymbolTable.set_function_heap (λ _, fh)
                  (SymbolTable.set_functiontable (λ _, ft) st) in
      let '(ser5, (sh, stt)) :=
        ser_structs ser4
          (SymbolTable.struct_heap st, SymbolTable.structtable st) in
      let st := SymbolTable.set_struct_heap (λ _, sh)
                  (SymbolTable.set_structtable (λ _, stt) st) in
      let '(ser6, (dh, dt)) :=
        ser_fields ser5
          (SymbolTable.field_heap st, SymbolTable.fieldtable st) in
      let st := SymbolTable.set_field_heap (λ _, dh)
                  (SymbolTable.set_fieldtable (λ _, dt) st) in
      let '(ser7, code') := ser_ints ser6 (code im) in
      let '(ser8, fns) := ser_strings ser7 (SymbolTable.filenames st) in
      let st := SymbolTable.set_filenames (λ _, fns) st in
      let '(ser9, lns) := ser_lineinfos ser8 (linenumbers im) in
      Ret tt (mkImage ser9 st code' lns).

End Serialization.

Arguments mkImage {Serializer} ser table code linenumbers.
Arguments ser {Serializer} i.
Arguments table {Serializer} i.
Arguments code {Serializer} i.
Arguments linenumbers {Serializer} i.

(** A serializer that reads from a list of strings, for concrete runs: a
    string is read off the front of the list, everything else is left as it
    is. *)
Definition list_reader_string (buf : list string) (v : string)
  : list string * string :=
  match buf with
  | [] => ([], v)
  | x :: rest => (rest, x)
  end.

Definition list_reader_other {A : Type} (buf : list string) (v : A)
  : list string * A := (buf, v).

(** ** Runs of the symbol table *)

(** The calls a client of the table can make: its member functions that
    change it, [Ident::Assign], and writes to the public data members of the
    entities it hands out (the flags of an identifier, the field list of a
    record type). *)
Inductive op : Type :=
| OpLookupLexDefOrDynScope (name : string) (line : Z) (dynscope : bool)
    (sf : option ptr)
| OpAddWithStruct (ty : Type_) (id : option ptr)
| OpScopeStart
| OpScopeCleanup
| OpUnregisterStruct (st : ptr)
| OpUnregisterFun (f : ptr)
| OpEndOfInclude
| OpStructDecl (name : string)
| OpStructUse (name : string)
| OpFieldDecl (name : string) (idx : Z) (st : ptr)
| OpFunctionDecl (name : string) (nargs : Z)
| OpAssign (id : ptr)
| OpSetConstant (id : ptr) (v : bool)
| OpSetPrivate (id : ptr) (v : bool)
| OpAddField (st : ptr) (ty : Type_) (fld : ptr).

Definition discard {S A : Type} (m : M S A) : M S unit := m ;;; ret tt.

Definition exec (o : op) : M SymbolTable.t unit :=
  match o with
  | OpLookupLexDefOrDynScope name line dynscope sf =>
      discard (SymbolTable.LookupLexDefOrDynScope name line dynscope sf)
  | OpAddWithStruct ty id => SymbolTable.AddWithStruct ty id
  | OpScopeStart => SymbolTable.ScopeStart
  | OpScopeCleanup => SymbolTable.ScopeCleanup
  | OpUnregisterStruct st => SymbolTable.UnregisterStruct st
  | OpUnregisterFun f => SymbolTable.UnregisterFun f
  | OpEndOfInclude => SymbolTable.EndOfInclude
  | OpStructDecl name => discard (SymbolTable.StructDecl name)
  | OpStructUse name => discard (SymbolTable.StructUse name)
  | OpFieldDecl name idx st => discard (SymbolTable.FieldDecl name idx st)
  | OpFunctionDecl name nargs => discard (SymbolTable.FunctionDecl name nargs)
  | OpAssign id => SymbolTable.on_ident id Ident.Assign
  | OpSetConstant id v => SymbolTable.update_ident id (Ident.set_constant v)
  | OpSetPrivate id v => SymbolTable.update_ident id (Ident.set_isprivate v)
  | OpAddField st ty fld =>
      SymbolTable.update_struct st
        (λ x, Struct.set_fields
                (push_back (UniqueField.mk ty (Some fld)) (Struct.fields x)) x)
  end.

Fixpoint run (os : list op) : M SymbolTable.t unit :=
  match os with
  | [] => ret tt
  | o :: rest => exec o ;;; run rest
  end.

(** The states a client can bring a fresh table into. *)
Inductive reachable : SymbolTable.t → Prop :=
| reachable_new : reachable SymbolTable.new
| reachable_step o s s' :
    reachable s → exec o s = Ret tt s' → reachable s'.

(** Sequences of scope starts, lexical declarations and scope ends in which
    every scope that is opened is closed again, and nothing else is. *)
Inductive well_nested : list op → Prop :=
| well_nested_nil : well_nested []
| well_nested_decl name line sf rest :
    well_nested rest →
    well_nested (OpLookupLexDefOrDynScope name line false sf :: rest)
| well_nested_scope body rest :
    well_nested body → well_nested rest →
    well_nested (OpScopeStart :: body ++ OpScopeCleanup :: rest).

(** ** Operations on a table and what it is serialized with *)

(** An operation of the symbol table: one of the calls above, or
    [Serialize]. *)
Inductive operation : Type :=
| Call (o : op)
| CallSerialize.

Section Operations.

Variable Serializer : Type.
Variable rbuf : Serializer → bool.
Variable ser_string : Serializer → string → Serializer * string.
Variable ser_bool : Serializer → bool → Serializer * bool.
Variable ser_idents :
  Serializer → list Ident.t * list ptr → Serializer * (list Ident.t * list ptr).
Variable ser_functions :
  Serializer → list Function.t * list ptr
  → Serializer * (list Function.t * list ptr).
Variable ser_structs :
  Serializer → list Struct.t * list ptr
  → Serializer * (list Struct.t * list ptr).
Variable ser_fields :
  Serializer → list SharedField.t * list ptr
  → Serializer * (list SharedField.t * list ptr).
Variable ser_ints : Serializer → list Z → Serializer * list Z.
Variable ser_strings : Serializer → list string → Serializer * list string.
Variable ser_lineinfos :
  Serializer → list LineInfo.t → Serializer * list LineInfo.t.
Variable curvers : string.

(** A call on the table of an image: the serializer and the two vectors are
    not involved. *)
Definition on_table (m : M SymbolTable.t unit) : M (image Serializer) unit :=
  λ im,
    match m (table im) with
    | Ret a s => Ret a (mkImage (ser im) s (code im) (linenumbers im))
    | Throw msg s =>
        Throw msg (mkImage (ser im) s (code im) (linenumbers im))
    | Abort => Abort
    end.

Definition perform (x : operation) : M (image Serializer) unit :=
  match x with
  | Call o => on_table (exec o)
  | CallSerialize =>
      Serialize Serializer rbuf ser_string ser_bool ser_idents ser_functions
        ser_structs ser_fields ser_ints ser_strings ser_lineinfos curvers
  end.

End Operations.

(** ** Specification vocabulary *)

(** The number of distinct values in a list of offsets. *)
Definition distinct_count (l : list Z) : nat := length (remove_dups l).

(** What a shared field knows about the uses registered so far: the counter
    is the number of distinct logged offsets, and every logged offset is a
    [short]. *)
Definition SharedField_inv (f : SharedField.t) : Prop :=
  SharedField.numunique f
  = Z.of_nat (distinct_count (FieldOffset.offset <$> SharedField.offsets f))
  ∧ Forall (λ fo, Int.is_short (FieldOffset.offset fo)) (SharedField.offsets f).

(** The registrations [NewFieldUse (FieldOffset (si, o))] for a list of
    pairs [(si, o)] of [int]s. *)
Definition uses_of (regs : list (Z * Z)) : list FieldOffset.t :=
  (λ r, FieldOffset.new r.1 r.2) <$> regs.

(** The record type of a with-stack entry, when its index addresses one. *)
Definition struct_of (s : SymbolTable.t) (wp : Type_ * option ptr)
  : option Struct.t :=
  SymbolTable.structtable s !! Z.to_nat (ty_idx wp.1)
    ≫= λ p, SymbolTable.struct_heap s !! p.

(** Does the record type of the with-stack entry [wp] declare the shared
    field [fld]? *)
Definition declares (s : SymbolTable.t) (fld : ptr)
    (wp : Type_ * option ptr) : bool :=
  match struct_of s wp with
  | Some st => nonnull (Struct.Has (Some fld) st)
  | None => false
  end.

(** A with-stack entry as [AddWithStruct] is meant to receive it: the type
    is a record type of the struct table, the identifier is not null. *)
Definition with_entry_ok (s : SymbolTable.t) (wp : Type_ * option ptr)
  : Prop :=
  (0 ≤ ty_idx wp.1)%Z ∧ is_Some (struct_of s wp) ∧ is_Some wp.2.

#[global] Instance with_entry_ok_dec s wp : Decision (with_entry_ok s wp).
Proof. unfold with_entry_ok. apply _. Defined.

Definition withstack_ok (s : SymbolTable.t) : Prop :=
  Forall (with_entry_ok s) (SymbolTable.withstack s).

#[global] Instance withstack_ok_dec s : Decision (withstack_ok s).
Proof. unfold withstack_ok. apply _. Defined.

(** Every shared field that has a name is an object of the field arena. *)
Definition fields_ok (s : SymbolTable.t) : Prop :=
  map_Forall (λ _ fld, is_Some (SymbolTable.field_heap s !! fld))
    (SymbolTable.fields s).

#[global] Instance fields_ok_dec s : Decision (fields_ok s).
Proof. unfold fields_ok. apply _. Defined.

(** The name stored in the shared field [fld]. *)
Definition field_name (s : SymbolTable.t) (fld : ptr) : string :=
  match SymbolTable.field_heap s !! fld with
  | Some f => SharedField.name f
  | None => ""
  end.

(** [resolve_with_field] in the words of the design document: find the
    shared field of that name; scan the whole with-stack for the entries
    whose record type declares it; more than one is an error, exactly one is
    the implicit access path, none is no binding. *)
Definition resolve_with_field (name : string) (s : SymbolTable.t)
  : outcome SymbolTable.t (option ptr * option ptr) :=
  match SymbolTable.fields s !! name with
  | None => Ret (None, None) s
  | Some fld =>
      match filter (λ wp, declares s fld wp = true) (SymbolTable.withstack s) with
      | [] => Ret (None, None) s
      | [wp] => Ret (Some fld, wp.2) s
      | _ :: _ :: _ =>
          Throw ("access to ambiguous field: " +:+ field_name s fld) s
      end
  end.

(** The by-name chain from [p]: the functions met along [sibf] until the
    null pointer. *)
Inductive is_chain (h : list Function.t) : option ptr → list ptr → Prop :=
| is_chain_nil : is_chain h None []
| is_chain_cons p x l :
    h !! p = Some x →
    is_chain h (Function.sibf x) l →
    is_chain h (Some p) (p :: l).

(** No function of the chain [l] takes [nargs] arguments. *)
Definition arity_absent (h : list Function.t) (l : list ptr) (nargs : Z)
  : Prop :=
  ∀ q x, q ∈ l → h !! q = Some x → Function.nargs x ≠ nargs.

(** What popping the identifier [i] off the identifier stack does to the
    live bindings. *)
Definition unbind (i : Ident.t) (m : gmap string nat) : gmap string nat :=
  match m !! Ident.name i with
  | Some _ =>
      match Ident.prev i with
      | Some q => <[Ident.name i := q]> m
      | None => delete (Ident.name i) m
      end
  | None => m
  end.

(** The live bindings after popping the identifiers [ps], first one first;
    nothing when one of them is not an object of the arena. *)
Fixpoint unwind (h : list Ident.t) (ps : list nat) (m : gmap string nat)
  : option (gmap string nat) :=
  match ps with
  | [] => Some m
  | p :: rest =>
      match h !! p with
      | Some i => unwind h rest (unbind i m)
      | None => None
      end
  end.

(** What a run of calls does to the table when it only declares identifiers
    and leaves the scopes it found: it has allocated the identifiers [ext],
    pushed those that are still in scope, [news], and popping these gives
    the live bindings of the start. *)
Definition declares_only (os : list op) : Prop :=
  ∀ s s', run os s = Ret tt s' →
    ∃ news ext tbl m',
      s' = SymbolTable.set_identtable (λ l, l ++ tbl)
             (SymbolTable.set_identstack (λ l, l ++ news)
                (SymbolTable.set_idents (λ _, m')
                   (SymbolTable.set_ident_heap (λ h, h ++ ext) s)))
      ∧ unwind (SymbolTable.ident_heap s ++ ext) (rev news) m'
        = Some (SymbolTable.idents s).

(** [table[e.idx] is e]: the entity stored at position [i] of an index table
    has [i] in its [idx] member. *)
Definition indexed {A : Type} (idx : A → Z) (h : list A) (t : list nat)
  : Prop :=
  ∀ i p, t !! i = Some p → ∃ e, h !! p = Some e ∧ idx e = Z.of_nat i.

Definition idx_inv (s : SymbolTable.t) : Prop :=
  indexed Ident.idx (SymbolTable.ident_heap s) (SymbolTable.identtable s)
  ∧ indexed Struct.idx (SymbolTable.struct_heap s) (SymbolTable.structtable s)
  ∧ indexed SharedField.idx (SymbolTable.field_heap s)
      (SymbolTable.fieldtable s)
  ∧ indexed Function.idx (SymbolTable.function_heap s)
      (SymbolTable.functiontable s).

(** The sizes of the index tables are values of [int]. *)
Definition tables_bounded (s : SymbolTable.t) : Prop :=
  (Z.of_nat (length (SymbolTable.identtable s)) ≤ Int.INT_MAX)%Z
  ∧ (Z.of_nat (length (SymbolTable.structtable s)) ≤ Int.INT_MAX)%Z
  ∧ (Z.of_nat (length (SymbolTable.fieldtable s)) ≤ Int.INT_MAX)%Z
  ∧ (Z.of_nat (length (SymbolTable.functiontable s)) ≤ Int.INT_MAX)%Z.

(** The index tables are append-only. *)
Definition tables_grow (s s' : SymbolTable.t) : Prop :=
  SymbolTable.identtable s `prefix_of` SymbolTable.identtable s'
  ∧ SymbolTable.structtable s `prefix_of` SymbolTable.structtable s'
  ∧ SymbolTable.fieldtable s `prefix_of` SymbolTable.fieldtable s'
  ∧ SymbolTable.functiontable s `prefix_of` SymbolTable.functiontable s'.

(** What one call may do to the entities of one class: the objects that
    existed still exist, with the [idx] they had; the index table is what it
    was, or has one more entry, a pointer to an object whose [idx] is the
    size the table had (as an [int]). *)
Definition kind_step {A : Type} (idx : A → Z) (h h' : list A)
    (t t' : list nat) : Prop :=
  (∀ p e, h !! p = Some e → ∃ e', h' !! p = Some e' ∧ idx e' = idx e)
  ∧ (t' = t
     ∨ ∃ p e, t' = t ++ [p] ∧ h' !! p = Some e
              ∧ idx e = Int.of_size (length t)).

Definition index_step (s s' : SymbolTable.t) : Prop :=
  kind_step Ident.idx (SymbolTable.ident_heap s) (SymbolTable.ident_heap s')
    (SymbolTable.identtable s) (SymbolTable.identtable s')
  ∧ kind_step Struct.idx (SymbolTable.struct_heap s)
      (SymbolTable.struct_heap s')
      (SymbolTable.structtable s) (SymbolTable.structtable s')
  ∧ kind_step SharedField.idx (SymbolTable.field_heap s)
      (SymbolTable.field_heap s')
      (SymbolTable.fieldtable s) (SymbolTable.fieldtable s')
  ∧ kind_step Function.idx (SymbolTable.function_heap s)
      (SymbolTable.function_heap s')
      (SymbolTable.functiontable s) (SymbolTable.functiontable s').

(** Two states with the same arenas and the same index tables. *)
Definition same_index (s s' : SymbolTable.t) : Prop :=
  SymbolTable.ident_heap s' = SymbolTable.ident_heap s
  ∧ SymbolTable.struct_heap s' = SymbolTable.struct_heap s
  ∧ SymbolTable.field_heap s' = SymbolTable.field_heap s
  ∧ SymbolTable.function_heap s' = SymbolTable.function_heap s
  ∧ SymbolTable.identtable s' = SymbolTable.identtable s
  ∧ SymbolTable.structtable s' = SymbolTable.structtable s
  ∧ SymbolTable.fieldtable s' = SymbolTable.fieldtable s
  ∧ SymbolTable.functiontable s' = SymbolTable.functiontable s.

(** A member function that leaves the arenas and the index tables alone,
    whether it returns or throws. *)
Definition keeps_index {A : Type} (m : M SymbolTable.t A) : Prop :=
  ∀ s s', state_of (m s) = Some s' → same_index s s'.

(** Is the identifier at [p] flagged private? *)
Definition is_private (h : list Ident.t) (p : nat) : bool :=
  match h !! p with
  | Some i => Ident.isprivate i
  | None => false
  end.

(** Does the identifier at [p] shadow another one? *)
Definition shadows (h : list Ident.t) (p : nat) : bool :=
  match h !! p with
  | Some i => nonnull (Ident.prev i)
  | None => false
  end.

(** Every live binding is an identifier of the arena. *)
Definition bindings_ok (s : SymbolTable.t) : Prop :=
  map_Forall (λ _ p, is_Some (SymbolTable.ident_heap s !! p))
    (SymbolTable.idents s).

Definition bindings_ok_dec s : Decision (bindings_ok s).
Proof. unfold bindings_ok. apply _. Defined.

(** What [EndOfInclude] asserts: no live binding is both private and a
    shadow. *)
Definition private_unshadowed (s : SymbolTable.t) : Prop :=
  map_Forall
    (λ _ p, is_private (SymbolTable.ident_heap s) p = true →
            shadows (SymbolTable.ident_heap s) p = false)
    (SymbolTable.idents s).

Definition private_unshadowed_dec s :
  Decision (private_unshadowed s).
Proof. unfold private_unshadowed. apply _. Defined.

(** The live bindings without the private ones. *)
Definition prune (h : list Ident.t) (m : gmap string nat) : gmap string nat :=
  filter (λ kp, is_private h kp.2 = false) m.

(** The bindings that the loop of [EndOfInclude] leaves after visiting
    [its]. *)
Definition prune_visited (h : list Ident.t) (its : list (string * nat))
    (m : gmap string nat) : gmap string nat :=
  foldl (λ m it, if is_private h it.2 then delete it.1 m else m) m its.

(** Is [p] a record type named [name]? *)
Definition struct_named (s : SymbolTable.t) (name : string) (p : nat) : bool :=
  bool_decide (Struct.name <$> SymbolTable.struct_heap s !! p = Some name).

(** The number of fields of the record type [p]. *)
Definition struct_arity (s : SymbolTable.t) (p : nat) : nat :=
  match SymbolTable.struct_heap s !! p with
  | Some x => length (Struct.fields x)
  | None => 0
  end.

(** [StructIdx] in terms of the struct table: the position of the first
    record type of that name, with its number of fields. *)
Definition first_struct_named (s : SymbolTable.t) (name : string)
  : Z * option nat :=
  match list_find (λ p, struct_named s name p = true)
          (SymbolTable.structtable s) with
  | Some (i, p) => (Z.of_nat i, Some (struct_arity s p))
  | None => ((-1)%Z, None)
  end.

(** Is the identifier [p] named [idname] and local to a function named
    [fname]?  (As [LookupIdentInFun] tests it; undefined tests count as
    no.) *)
Definition ident_in_fun (s : SymbolTable.t) (subfunctions : list SubFunction.t)
    (idname fname : string) (p : nat) : bool :=
  match SymbolTable.LookupIdentInFun_test subfunctions idname fname p s with
  | Ret b _ => b
  | _ => false
  end.

(** The test of [LookupIdentInFun] is defined on every identifier of the
    table: the pointers it follows are not dangling. *)
Definition idents_testable (s : SymbolTable.t)
    (subfunctions : list SubFunction.t) (idname fname : string) : Prop :=
  Forall
    (λ p, ∃ b, SymbolTable.LookupIdentInFun_test subfunctions idname fname p s
               = Ret b s)
    (SymbolTable.identtable s).

(** A member function whose effect on the table is within the relation [R],
    whether it returns or throws. *)
Definition keeps {A : Type} (R : SymbolTable.t → SymbolTable.t → Prop)
    (m : M SymbolTable.t A) : Prop :=
  ∀ s s', state_of (m s) = Some s' → R s s'.

(** Two states with the same identifiers, live bindings, identifier stack,
    identifier table and stacks of levels. *)
Definition same_scoping (s s' : SymbolTable.t) : Prop :=
  SymbolTable.ident_heap s' = SymbolTable.ident_heap s
  ∧ SymbolTable.idents s' = SymbolTable.idents s
  ∧ SymbolTable.identstack s' = SymbolTable.identstack s
  ∧ SymbolTable.identtable s' = SymbolTable.identtable s
  ∧ SymbolTable.scopelevels s' = SymbolTable.scopelevels s
  ∧ SymbolTable.withstacklevels s' = SymbolTable.withstacklevels s.

(** Every live binding of a name is an identifier of that name. *)
Definition bindings_named (h : list Ident.t) (m : gmap string nat) : Prop :=
  ∀ name p, m !! name = Some p →
            ∃ i, h !! p = Some i ∧ Ident.name i = name.

(** Every [prev] pointer leads to an identifier of the same name. *)
Definition prevs_named (h : list Ident.t) : Prop :=
  ∀ p i q, h !! p = Some i → Ident.prev i = Some q →
           ∃ j, h !! q = Some j ∧ Ident.name j = Ident.name i.

(** No pointer to an identifier dangles: the live bindings, the [prev]
    pointers, the identifier stack and the identifier table all refer to
    objects of the arena, the first two to identifiers of the right name. *)
Definition no_dangling (s : SymbolTable.t) : Prop :=
  bindings_named (SymbolTable.ident_heap s) (SymbolTable.idents s)
  ∧ prevs_named (SymbolTable.ident_heap s)
  ∧ Forall (λ p, is_Some (SymbolTable.ident_heap s !! p))
      (SymbolTable.identstack s)
  ∧ Forall (λ p, is_Some (SymbolTable.ident_heap s !! p))
      (SymbolTable.identtable s).

(** The two stacks of levels have the same depth. *)
Definition levels_paired (s : SymbolTable.t) : Prop :=
  length (SymbolTable.scopelevels s)
  = length (SymbolTable.withstacklevels s).

Definition scoping_wf (s : SymbolTable.t) : Prop :=
  no_dangling s ∧ levels_paired s.

(** The relation [R] ignores what the setter [set] writes. *)
Definition ignores {X : Type} (R : SymbolTable.t → SymbolTable.t → Prop)
    (set : (X → X) → SymbolTable.t → SymbolTable.t) : Prop :=
  ∀ f s, R s (set f s).

(** The entity at [p] has been created and registered: it did not exist in
    the arena [h], it is the one entry that the index table has gained, and
    its [idx] is its position there, so that [table[e.idx] is e]. *)
Definition created {A : Type} (idx : A → Z) (h h' : list A)
    (t t' : list nat) (p : nat) : Prop :=
  h !! p = None
  ∧ t' = t ++ [p]
  ∧ ∃ e, h' !! p = Some e
         ∧ idx e = Z.of_nat (length t)
         ∧ t' !! Z.to_nat (idx e) = Some p.

(** The four index tables are the same in both states. *)
Definition same_tables (s s' : SymbolTable.t) : Prop :=
  SymbolTable.identtable s' = SymbolTable.identtable s
  ∧ SymbolTable.structtable s' = SymbolTable.structtable s
  ∧ SymbolTable.fieldtable s' = SymbolTable.fieldtable s
  ∧ SymbolTable.functiontable s' = SymbolTable.functiontable s.

(** What the call [o], started in [s] and ended in [s'], has done to the
    index tables.  A declaration that returns an entity has created and
    registered it, unless it returns one that existed: the live binding of
    the name for a declaration with dynamic scope, the shared field of the
    name for [FieldDecl], a function with that number of arguments for
    [FunctionDecl]; then the table of its class is what it was.  Every other
    call leaves the four index tables as they were. *)
Definition declared_at_idx (o : op) (s s' : SymbolTable.t) : Prop :=
  match o with
  | OpLookupLexDefOrDynScope name line dynscope sf =>
      ∀ p,
        SymbolTable.LookupLexDefOrDynScope name line dynscope sf s = Ret p s' →
        (dynscope = true ∧ SymbolTable.idents s !! name = Some p ∧ s' = s)
        ∨ created Ident.idx (SymbolTable.ident_heap s)
            (SymbolTable.ident_heap s') (SymbolTable.identtable s)
            (SymbolTable.identtable s') p
  | OpStructDecl name =>
      ∀ p,
        SymbolTable.StructDecl name s = Ret p s' →
        created Struct.idx (SymbolTable.struct_heap s)
          (SymbolTable.struct_heap s') (SymbolTable.structtable s)
          (SymbolTable.structtable s') p
  | OpFieldDecl name idx st =>
      ∀ p,
        SymbolTable.FieldDecl name idx st s = Ret p s' →
        (SymbolTable.FieldUse name s = Some p
         ∧ SymbolTable.fieldtable s' = SymbolTable.fieldtable s)
        ∨ (SymbolTable.FieldUse name s = None
           ∧ created SharedField.idx (SymbolTable.field_heap s)
               (SymbolTable.field_heap s') (SymbolTable.fieldtable s)
               (SymbolTable.fieldtable s') p)
  | OpFunctionDecl name nargs =>
      ∀ f,
        SymbolTable.FunctionDecl name nargs s = Ret f s' →
        (∃ x, SymbolTable.function_heap s !! f = Some x
              ∧ Function.nargs x = nargs ∧ s' = s)
        ∨ created Function.idx (SymbolTable.function_heap s)
            (SymbolTable.function_heap s') (SymbolTable.functiontable s)
            (SymbolTable.functiontable s') f
  | _ => same_tables s s'
  end.

(** A transfer of an index table together with its entities that keeps
    [table[e.idx] is e].  The serializer is declared outside this header; a
    serializer that writes and leaves the table as it is does so, and so
    does one that reads when what it delivers was written from a table that
    satisfied it. *)
Definition keeps_indexed {Serializer A : Type} (idx : A → Z)
    (ser_table :
       Serializer → list A * list nat → Serializer * (list A * list nat))
  : Prop :=
  ∀ sr h t,
    indexed idx h t →
    indexed idx (ser_table sr (h, t)).2.1 (ser_table sr (h, t)).2.2.

Definition transfers_keep_idx {Serializer : Type}
    (ser_idents :
       Serializer → list Ident.t * list nat
       → Serializer * (list Ident.t * list nat))
    (ser_functions :
       Serializer → list Function.t * list nat
       → Serializer * (list Function.t * list nat))
    (ser_structs :
       Serializer → list Struct.t * list nat
       → Serializer * (list Struct.t * list nat))
    (ser_fields :
       Serializer → list SharedField.t * list nat
       → Serializer * (list SharedField.t * list nat)) : Prop :=
  keeps_indexed Ident.idx ser_idents
  ∧ keeps_indexed Function.idx ser_functions
  ∧ keeps_indexed Struct.idx ser_structs
  ∧ keeps_indexed SharedField.idx ser_fields.

(** ** Concrete values for the examples *)

(** The table a fresh one becomes under a list of calls. *)
Definition table_after (os : list op) : SymbolTable.t :=
  match run os SymbolTable.new with
  | Ret _ s | Throw _ s => s
  | Abort => SymbolTable.new
  end.

(** An identifier as [LookupLexDefOrDynScope] makes it, then flagged
    constant by its declaration. *)
Definition constant_x : Ident.t :=
  Ident.set_constant true (Ident.new "x" 1 0 0).

(** One scope with a variable [x]. *)
Definition table_x : SymbolTable.t :=
  table_after [OpScopeStart; OpLookupLexDefOrDynScope "x" 1 false None].

(** A record type [S] with a field [x], a variable [x] in the outer scope,
    and an inner scope that brings the fields of [S] into scope through a
    variable [p]. *)
Definition calls_with_x_field : list op :=
  [OpStructDecl "S"; OpFieldDecl "x" 0 0;
   OpAddField 0 (mkType (V_BUILTIN 0) (-1)) 0;
   OpScopeStart; OpLookupLexDefOrDynScope "x" 1 false None;
   OpScopeStart; OpLookupLexDefOrDynScope "p" 2 false None;
   OpAddWithStruct (mkType V_STRUCT 0) (Some 1)].

Definition table_with_x_field : SymbolTable.t :=
  table_after calls_with_x_field.

(** The same, with [x] declared in the scope of the with. *)
Definition table_with_x_field_same_scope : SymbolTable.t :=
  table_after
    [OpStructDecl "S"; OpFieldDecl "x" 0 0;
     OpAddField 0 (mkType (V_BUILTIN 0) (-1)) 0;
     OpScopeStart; OpLookupLexDefOrDynScope "p" 1 false None;
     OpLookupLexDefOrDynScope "x" 2 false None;
     OpAddWithStruct (mkType V_STRUCT 0) (Some 0)].

(** A variable [x] in an outer scope, seen from an inner scope. *)
Definition table_x_inner : SymbolTable.t :=
  table_after
    [OpScopeStart; OpLookupLexDefOrDynScope "x" 1 false None; OpScopeStart].

(** Two record types [S] and [T] that both have a field [x], [T] also a
    field [y]; a with over each of them. *)
Definition table_two_withs : SymbolTable.t :=
  table_after
    [OpStructDecl "S"; OpFieldDecl "x" 0 0;
     OpAddField 0 (mkType (V_BUILTIN 0) (-1)) 0;
     OpStructDecl "T"; OpFieldDecl "y" 0 1;
     OpAddField 1 (mkType (V_BUILTIN 0) (-1)) 1;
     OpFieldDecl "x" 1 1; OpAddField 1 (mkType (V_BUILTIN 0) (-1)) 0;
     OpScopeStart; OpLookupLexDefOrDynScope "p" 1 false None;
     OpLookupLexDefOrDynScope "q" 2 false None;
     OpAddWithStruct (mkType V_STRUCT 0) (Some 0);
     OpAddWithStruct (mkType V_STRUCT 1) (Some 1)].

(** A function [f] of one argument, declared at the top level. *)
Definition table_f1 : SymbolTable.t := table_after [OpFunctionDecl "f" 1].

(** The body of a scope that shadows [x], declares [y], and has an inner
    scope with another [x] and a [z]. *)
Definition scope_body : list op :=
  [OpLookupLexDefOrDynScope "x" 2 false None;
   OpLookupLexDefOrDynScope "y" 3 false None;
   OpScopeStart;
   OpLookupLexDefOrDynScope "x" 4 false None;
   OpLookupLexDefOrDynScope "z" 5 false None;
   OpScopeCleanup;
   OpLookupLexDefOrDynScope "w" 6 false None].

(** The table [table_x] after a scope with that body. *)
Definition table_x_after_scope : SymbolTable.t :=
  table_after
    ([OpScopeStart; OpLookupLexDefOrDynScope "x" 1 false None; OpScopeStart]
     ++ scope_body ++ [OpScopeCleanup]).

(** The table [table_with_x_field] when its inner scope has ended. *)
Definition table_with_x_field_closed : SymbolTable.t :=
  table_after (calls_with_x_field ++ [OpScopeCleanup]).

(** A variable [x], shadowed in an inner scope by a second [x] that its
    declaration flags private. *)
Definition calls_private_shadow : list op :=
  [OpScopeStart; OpLookupLexDefOrDynScope "x" 1 false None;
   OpScopeStart; OpLookupLexDefOrDynScope "x" 2 false None;
   OpSetPrivate 1 true].

Definition table_private_shadow : SymbolTable.t :=
  table_after calls_private_shadow.

(** Two variables at file scope, the first one private. *)
Definition table_private_a : SymbolTable.t :=
  table_after
    [OpScopeStart; OpLookupLexDefOrDynScope "a" 1 false None;
     OpSetPrivate 0 true; OpLookupLexDefOrDynScope "b" 2 false None].

(** A cache written by another build of the compiler, and one written by
    this build, for a compiler whose [__DATE__] is ["Oct 30 2026"]. *)
Definition stale_cache : image (list string) :=
  mkImage ["Jan  1 2014"; "rest"] table_x [1; 2]%Z [].

Definition fresh_cache : image (list string) :=
  mkImage ["Oct 30 2026"; "rest"] table_x [1; 2]%Z [].

(** [Serialize] over the list reader. *)
Definition Serialize_list_reader (reading : bool)
  : M (image (list string)) unit :=
  Serialize (list string) (λ _, reading) list_reader_string
    list_reader_other list_reader_other list_reader_other list_reader_other
    list_reader_other list_reader_other list_reader_other list_reader_other
    "Oct 30 2026".

(** [table_with_x_field] after the declaration of a second record type, and
    after a second use of the field [x]. *)
Definition table_with_T : SymbolTable.t :=
  table_after (calls_with_x_field ++ [OpStructDecl "T"]).

Definition table_with_x_twice : SymbolTable.t :=
  table_after (calls_with_x_field ++ [OpFieldDecl "x" 3 0]).

(** [table_f1] after the declaration of [f] with two arguments. *)
Definition table_f1_f2 : SymbolTable.t :=
  table_after [OpFunctionDecl "f" 1; OpFunctionDecl "f" 2].

(** [table_f1] inside a scope. *)
Definition table_f1_inner : SymbolTable.t :=
  table_after [OpFunctionDecl "f" 1; OpScopeStart].

(** [table_f1_f2] after unregistering the second function. *)
Definition table_f_unregistered : SymbolTable.t :=
  table_after [OpFunctionDecl "f" 1; OpFunctionDecl "f" 2; OpUnregisterFun 1].

(** [table_with_x_field] after unregistering the record type [S]. *)
Definition table_S_unregistered : SymbolTable.t :=
  table_after (calls_with_x_field ++ [OpUnregisterStruct 0]).

(** Two functions [f] and [g] with one sub-function each, and three
    identifiers: [a] in [f], [a] in [g], and [b] in [f] and in [g]. *)
Definition two_subfunctions : list SubFunction.t :=
  [SubFunction.new (Some 0); SubFunction.new (Some 1)].

Definition table_locals : SymbolTable.t :=
  table_after
    [OpFunctionDecl "f" 0; OpFunctionDecl "g" 0; OpScopeStart;
     OpLookupLexDefOrDynScope "a" 1 false (Some 0);
     OpLookupLexDefOrDynScope "b" 2 false (Some 0);
     OpScopeCleanup; OpScopeStart;
     OpLookupLexDefOrDynScope "a" 3 false (Some 1);
     OpLookupLexDefOrDynScope "b" 4 false (Some 1);
     OpLookupLexDefOrDynScope "c" 5 false None;
     OpSetConstant 2 true;
     OpScopeCleanup; OpScopeStart;
     OpLookupLexDefOrDynScope "b" 6 false (Some 0);
     OpScopeCleanup].

(** [table_x_inner] after the declaration of a second [x]. *)
Definition table_x_shadowed : SymbolTable.t :=
  table_after
    [OpScopeStart; OpLookupLexDefOrDynScope "x" 1 false None; OpScopeStart;
     OpLookupLexDefOrDynScope "x" 5 false None].

(** [table_private_a] after the pruning of the private names, before the
    scope ends: [a] is on the identifier stack and has no binding. *)
Definition table_pruned : SymbolTable.t :=
  table_after
    [OpScopeStart; OpLookupLexDefOrDynScope "a" 1 false None;
     OpSetPrivate 0 true; OpLookupLexDefOrDynScope "b" 2 false None;
     OpEndOfInclude].

(** [table_x] after a second declaration of [x] in the same scope, which
    fails. *)
Definition table_x_redefined : SymbolTable.t :=
  table_after
    [OpScopeStart; OpLookupLexDefOrDynScope "x" 1 false None;
     OpLookupLexDefOrDynScope "x" 5 false None].

(** The operations over the list reader. *)
Definition perform_list_reader (reading : bool) (x : operation)
  : M (image (list string)) unit :=
  perform (list string) (λ _, reading) list_reader_string
    list_reader_other list_reader_other list_reader_other list_reader_other
    list_reader_other list_reader_other list_reader_other list_reader_other
    "Oct 30 2026" x.

(** [table_f1] and [table_f1_f2] with an empty serializer and no code, and
    [fresh_cache] after it has been read. *)
Definition image_f1 : image (list string) := mkImage [] table_f1 [] [].

Definition image_f1_f2 : image (list string) := mkImage [] table_f1_f2 [] [].

Definition fresh_cache_read : image (list string) :=
  mkImage ["rest"] table_x [1; 2]%Z [].

(** * Properties *)

(** ** Machine integers *)

Lemma wrap_small bits z :
  (0 < bits)%Z →
  (- 2 ^ (bits - 1) ≤ z < 2 ^ (bits - 1))%Z →
  Int.wrap bits z = z.
Proof.
  intros Hb Hz. unfold Int.wrap.
  assert (2 ^ bits = 2 * 2 ^ (bits - 1))%Z as Hp.
  { rewrite <- Z.pow_succ_r by lia. f_equal. lia. }
  rewrite Z.mod_small by lia. lia.
Qed.

Lemma wrap_range bits z :
  (0 < bits)%Z → (- 2 ^ (bits - 1) ≤ Int.wrap bits z < 2 ^ (bits - 1))%Z.
Proof.
  intros Hb. unfold Int.wrap.
  assert (2 ^ bits = 2 * 2 ^ (bits - 1))%Z as Hp.
  { rewrite <- Z.pow_succ_r by lia. f_equal. lia. }
  assert (0 < 2 ^ (bits - 1))%Z by (apply Z.pow_pos_nonneg; lia).
  pose proof (Z.mod_pos_bound (z + 2 ^ (bits - 1)) (2 ^ bits)) as Hm. lia.
Qed.

Lemma to_int_small z : (- 2 ^ 31 ≤ z < 2 ^ 31)%Z → Int.to_int z = z.
Proof. intros. apply wrap_small; [lia | done]. Qed.

Lemma of_size_small n :
  (Z.of_nat n ≤ Int.INT_MAX)%Z → Int.of_size n = Z.of_nat n.
Proof. unfold Int.INT_MAX. intros. apply to_int_small. lia. Qed.

Lemma to_short_is_short z : Int.is_short (Int.to_short z).
Proof. apply (wrap_range 16). lia. Qed.

(** ** Counting distinct values *)

Lemma distinct_count_snoc_in (l : list Z) x :
  x ∈ l → distinct_count (l ++ [x]) = distinct_count l.
Proof.
  intros Hx. apply Permutation_length, NoDup_Permutation;
    try apply NoDup_remove_dups.
  intros y. rewrite !elem_of_remove_dups, elem_of_app, list_elem_of_singleton.
  split; [intros [?| ->]; done | by left].
Qed.

Lemma distinct_count_snoc_notin (l : list Z) x :
  x ∉ l → distinct_count (l ++ [x]) = S (distinct_count l).
Proof.
  intros Hx. unfold distinct_count.
  change (S (length (remove_dups l))) with (length (x :: remove_dups l)).
  apply Permutation_length, NoDup_Permutation.
  - apply NoDup_remove_dups.
  - constructor; [by rewrite elem_of_remove_dups | apply NoDup_remove_dups].
  - intros y.
    rewrite elem_of_cons, !elem_of_remove_dups, elem_of_app,
      list_elem_of_singleton.
    tauto.
Qed.

Lemma distinct_count_perm (l k : list Z) :
  l ≡ₚ k → distinct_count l = distinct_count k.
Proof.
  intros Hp. apply Permutation_length, NoDup_Permutation;
    try apply NoDup_remove_dups.
  intros y. rewrite !elem_of_remove_dups. by rewrite Hp.
Qed.

(** There are no more than [2 ^ 16] distinct [short]s. *)
Lemma distinct_count_short (l : list Z) :
  Forall Int.is_short l → (Z.of_nat (distinct_count l) ≤ 2 ^ 16)%Z.
Proof.
  intros Hl.
  assert (remove_dups l ⊆+ seqZ (- 2 ^ 15) (2 ^ 16)) as Hs.
  { apply NoDup_submseteq; [apply NoDup_remove_dups |].
    intros x. rewrite elem_of_remove_dups, elem_of_seqZ. intros Hx.
    rewrite Forall_forall in Hl. specialize (Hl x Hx).
    unfold Int.is_short in Hl. lia. }
  apply submseteq_length in Hs. rewrite length_seqZ in Hs.
  unfold distinct_count. lia.
Qed.

(** ** [Ident::Assign] *)

(** C3, as the source has it: on a constant identifier [Assign] always
    raises the compile error "variable ... is constant", and at that point
    the identifier is what it was except that [single_assignment] has been
    cleared; no other member changes. *)
Theorem Assign_constant_throws_after_clearing (i : Ident.t) :
  Ident.constant i = true →
  Ident.Assign i
  = Throw ("variable " +:+ Ident.name i +:+ " is constant")
      (Ident.set_single_assignment false i).
Proof.
  intros Hc. unfold Ident.Assign, bind, modify, get. simpl. by rewrite Hc.
Qed.

Lemma Assign_constant_throws_after_clearing_witness :
  Ident.constant constant_x = true
  ∧ Ident.Assign constant_x
    = Throw "variable x is constant"
        (Ident.set_single_assignment false constant_x).
Proof.
  split; [reflexivity |].
  apply (Assign_constant_throws_after_clearing constant_x). reflexivity.
Defined.

(** C3, as the design document has it, fails: a freshly declared constant
    identifier has [single_assignment] set, and after the failed [Assign]
    the flag is cleared. *)
Lemma Assign_constant_mutates :
  Ident.constant constant_x = true
  ∧ Ident.single_assignment constant_x = true
  ∧ ∃ msg i',
      Ident.Assign constant_x = Throw msg i'
      ∧ Ident.single_assignment i' = false
      ∧ i' ≠ constant_x.
Proof.
  split; [reflexivity |]. split; [reflexivity |].
  eexists _, _. split; [reflexivity |]. split; [reflexivity | discriminate].
Qed.

(** On an identifier that is not constant [Assign] returns, and the flag is
    cleared however often it is called. *)
Lemma Assign_variable (i : Ident.t) :
  Ident.constant i = false →
  Ident.Assign i = Ret tt (Ident.set_single_assignment false i).
Proof.
  intros Hc. unfold Ident.Assign, bind, modify, get. simpl. by rewrite Hc.
Qed.

(** ** [SharedField::NewFieldUse] *)

Lemma found_spec (offs : list FieldOffset.t) (nfo : FieldOffset.t) :
  SharedField.found offs nfo = true
  ↔ FieldOffset.offset nfo ∈ FieldOffset.offset <$> offs.
Proof.
  induction offs as [|fo offs IH]; simpl.
  - split; [done | by intros ?%elem_of_nil].
  - rewrite elem_of_cons. case_decide as Heq.
    + split; [by left | done].
    + rewrite IH. split; [by right | intros [?|?]; [congruence | done]].
Qed.

Lemma SharedField_new_inv name idx : SharedField_inv (SharedField.new name idx).
Proof. split; [reflexivity | constructor]. Qed.

Lemma NewFieldUse_inv (nfo : FieldOffset.t) (f : SharedField.t) :
  SharedField_inv f →
  Int.is_short (FieldOffset.offset nfo) →
  SharedField_inv (SharedField.NewFieldUse nfo f).
Proof.
  intros [Hn Hs] Hnfo. split; simpl.
  - rewrite fmap_app. simpl.
    destruct (SharedField.found (SharedField.offsets f) nfo) eqn:Hf.
    + apply found_spec in Hf. by rewrite distinct_count_snoc_in.
    + assert (FieldOffset.offset nfo
              ∉ FieldOffset.offset <$> SharedField.offsets f) as Hnot.
      { intros Hin%found_spec. congruence. }
      rewrite distinct_count_snoc_notin by done.
      assert (Forall Int.is_short
                (FieldOffset.offset <$> SharedField.offsets f)) as Hshort.
      { by apply Forall_fmap. }
      apply distinct_count_short in Hshort.
      rewrite to_int_small by lia. lia.
  - apply Forall_app. split; [done | by constructor].
Qed.

Lemma register_all_snoc uses nfo f :
  SharedField.register_all (uses ++ [nfo]) f
  = SharedField.NewFieldUse nfo (SharedField.register_all uses f).
Proof. unfold SharedField.register_all. by rewrite foldl_app. Qed.

Lemma register_all_offsets uses f :
  SharedField.offsets (SharedField.register_all uses f)
  = SharedField.offsets f ++ uses.
Proof.
  induction uses as [|nfo uses IH] using rev_ind.
  - by rewrite app_nil_r.
  - rewrite register_all_snoc. simpl. by rewrite IH, app_assoc.
Qed.

Lemma register_all_inv uses f :
  SharedField_inv f →
  Forall (λ fo, Int.is_short (FieldOffset.offset fo)) uses →
  SharedField_inv (SharedField.register_all uses f).
Proof.
  intros Hf. induction uses as [|nfo uses IH] using rev_ind; [done |].
  intros [Hu Hn]%Forall_app. rewrite register_all_snoc.
  apply NewFieldUse_inv; [by apply IH |]. by inversion Hn.
Qed.

Lemma uses_of_short regs :
  Forall (λ fo, Int.is_short (FieldOffset.offset fo)) (uses_of regs).
Proof.
  unfold uses_of. apply Forall_fmap, Forall_forall. intros r _.
  apply to_short_is_short.
Qed.

(** C4: starting from a new shared field, after the registrations [regs]
    the counter [numunique] is the number of distinct offsets among the
    registered pairs, and registering the same pairs in any other order
    [regs'] gives the same counter. *)
Theorem numunique_counts_distinct_offsets
    (name : string) (idx : Z) (regs regs' : list (Z * Z)) :
  regs ≡ₚ regs' →
  SharedField.numunique
    (SharedField.register_all (uses_of regs) (SharedField.new name idx))
  = Z.of_nat (distinct_count (FieldOffset.offset <$> uses_of regs))
  ∧ SharedField.numunique
      (SharedField.register_all (uses_of regs') (SharedField.new name idx))
    = SharedField.numunique
        (SharedField.register_all (uses_of regs) (SharedField.new name idx)).
Proof.
  intros Hp.
  assert (∀ rs,
    SharedField.numunique
      (SharedField.register_all (uses_of rs) (SharedField.new name idx))
    = Z.of_nat (distinct_count (FieldOffset.offset <$> uses_of rs))) as Hcount.
  { intros rs.
    destruct (register_all_inv (uses_of rs) (SharedField.new name idx))
      as [Hn _].
    - apply SharedField_new_inv.
    - apply uses_of_short.
    - by rewrite Hn, register_all_offsets. }
  split; [apply Hcount |].
  rewrite !Hcount. f_equal. apply distinct_count_perm.
  unfold uses_of. by rewrite Hp.
Qed.

Lemma numunique_counts_distinct_offsets_witness :
  [(0, 5); (1, 5); (2, 7); (3, 5); (4, 7)]%Z
  ≡ₚ [(2, 7); (0, 5); (4, 7); (3, 5); (1, 5)]%Z
  ∧ SharedField.numunique
      (SharedField.register_all
         (uses_of [(0, 5); (1, 5); (2, 7); (3, 5); (4, 7)]%Z)
         (SharedField.new "x" 0))
    = 2%Z
  ∧ SharedField.numunique
      (SharedField.register_all
         (uses_of [(2, 7); (0, 5); (4, 7); (3, 5); (1, 5)]%Z)
         (SharedField.new "x" 0))
    = 2%Z.
Proof.
  assert ([(0, 5); (1, 5); (2, 7); (3, 5); (4, 7)]%Z
          ≡ₚ [(2, 7); (0, 5); (4, 7); (3, 5); (1, 5)]%Z) as Hp.
  { apply (bool_decide_unpack _). vm_compute. reflexivity. }
  split; [exact Hp |].
  destruct (numunique_counts_distinct_offsets "x" 0 _ _ Hp) as [H1 H2].
  split; [exact H1 | rewrite H2; exact H1].
Defined.

(** ** The with-stack *)

(** The member functions are compositions of these. *)
Ltac unfold_monad :=
  unfold bind, ret, get, put, modify, deref, abort, Error, discard in *.

Lemma structtable_at_ok s wp :
  with_entry_ok s wp →
  ∃ st, SymbolTable.structtable_at (ty_idx wp.1) s = Ret st s
        ∧ ∀ fld, declares s fld wp = nonnull (Struct.Has (Some fld) st).
Proof.
  intros (Hidx & [st Hst] & _). exists st.
  unfold SymbolTable.structtable_at, SymbolTable.struct_at, declares.
  rewrite decide_True by done. rewrite Hst.
  unfold struct_of in Hst.
  destruct (SymbolTable.structtable s !! Z.to_nat (ty_idx wp.1)) as [p|];
    [| done].
  change (SymbolTable.struct_heap s !! p = Some st) in Hst.
  cbv beta. by rewrite Hst.
Qed.

(** The loop, started with a null [id] and with a non-null one. *)
Lemma LookupWithStruct_loop_spec s fld ws :
  Forall (with_entry_ok s) ws →
  is_Some (SymbolTable.field_heap s !! fld) →
  (∀ q, SymbolTable.LookupWithStruct_loop fld ws (Some q) s
        = match filter (λ wp, declares s fld wp = true) ws with
          | [] => Ret (Some q) s
          | _ :: _ =>
              Throw ("access to ambiguous field: " +:+ field_name s fld) s
          end)
  ∧ SymbolTable.LookupWithStruct_loop fld ws None s
    = match filter (λ wp, declares s fld wp = true) ws with
      | [] => Ret None s
      | [wp] => Ret wp.2 s
      | _ :: _ :: _ =>
          Throw ("access to ambiguous field: " +:+ field_name s fld) s
      end.
Proof.
  intros Hws [f Hf].
  induction Hws as [|wp ws Hwp Hws [IHsome IHnone]]; [done |].
  destruct (structtable_at_ok s wp Hwp) as (st & Hat & Hdecl).
  destruct Hwp as (_ & _ & [q' Hq']).
  assert (field_name s fld = SharedField.name f) as Hname.
  { unfold field_name. by rewrite Hf. }
  split.
  - intros q. simpl. unfold bind at 1. rewrite Hat.
    rewrite filter_cons. rewrite <- (Hdecl fld).
    destruct (declares s fld wp) eqn:Hd.
    + rewrite decide_True by done. simpl.
      unfold_monad. unfold SymbolTable.field_at. unfold_monad.
      by rewrite Hf, Hname.
    + rewrite decide_False by done. apply IHsome.
  - simpl. unfold bind at 1. rewrite Hat.
    rewrite filter_cons. rewrite <- (Hdecl fld).
    destruct (declares s fld wp) eqn:Hd.
    + rewrite decide_True by done. simpl. unfold bind at 1. simpl.
      rewrite Hq'. rewrite IHsome.
      by destruct (filter _ ws).
    + rewrite decide_False by done. apply IHnone.
Qed.

(** C6: on a with-stack whose entries carry a record type of the struct
    table and a non-null identifier, [LookupWithStruct] does what the design
    document says of [resolve_with_field]: no shared field of that name, or
    no entry whose record type declares it, is no binding and no error;
    exactly one such entry gives the shared field and the identifier of
    that entry; two or more are the error "access to ambiguous field". *)
Theorem LookupWithStruct_resolves (s : SymbolTable.t) (name : string) :
  withstack_ok s →
  fields_ok s →
  SymbolTable.LookupWithStruct name None s = resolve_with_field name s.
Proof.
  intros Hws Hfields.
  unfold SymbolTable.LookupWithStruct, resolve_with_field, SymbolTable.FieldUse.
  unfold bind at 1, get.
  destruct (SymbolTable.fields s !! name) as [fld|] eqn:Hfld; [|done].
  simpl. unfold bind at 1, ret at 1. unfold bind at 1.
  destruct (LookupWithStruct_loop_spec s fld (SymbolTable.withstack s) Hws)
    as [_ Hnone]; [by eapply Hfields |].
  rewrite Hnone.
  destruct (filter _ (SymbolTable.withstack s)) as [|wp [|wp' rest]] eqn:Hfilter;
    [done | | done].
  assert (wp ∈ SymbolTable.withstack s) as Hin.
  { eapply (list_elem_of_filter _ _ wp). rewrite Hfilter. by left. }
  unfold withstack_ok in Hws. rewrite Forall_forall in Hws.
  destruct (Hws wp Hin) as (_ & _ & [q Hq]).
  by rewrite Hq.
Qed.

Lemma LookupWithStruct_resolves_witness :
  withstack_ok table_two_withs
  ∧ fields_ok table_two_withs
  ∧ (∃ msg, SymbolTable.LookupWithStruct "x" None table_two_withs
            = Throw msg table_two_withs)
  ∧ SymbolTable.LookupWithStruct "y" None table_two_withs
    = Ret (Some 1, Some 1) table_two_withs
  ∧ SymbolTable.LookupWithStruct "z" None table_two_withs
    = Ret (None, None) table_two_withs.
Proof.
  assert (withstack_ok table_two_withs) as Hw.
  { apply (bool_decide_unpack _). vm_compute. reflexivity. }
  assert (fields_ok table_two_withs) as Hf.
  { apply (bool_decide_unpack _). vm_compute. reflexivity. }
  split; [exact Hw |]. split; [exact Hf |].
  rewrite !(LookupWithStruct_resolves table_two_withs _ Hw Hf).
  split; [eexists |]; [vm_compute; reflexivity |].
  split; vm_compute; reflexivity.
Defined.

(** Reduction of the monad and of the arena operations. *)
Ltac mred :=
  cbv beta iota delta
    [bind ret get put modify deref abort Error discard
     SymbolTable.ident_at SymbolTable.struct_at SymbolTable.field_at
     SymbolTable.function_at SymbolTable.new_Ident SymbolTable.new_Struct
     SymbolTable.new_SharedField SymbolTable.new_Function
     SymbolTable.update_ident SymbolTable.update_struct
     SymbolTable.update_field SymbolTable.update_function
     push_back pop_back back].

(** Reduction of the setters and projections of the table. *)
Ltac sred :=
  cbv beta iota delta
    [SymbolTable.set_ident_heap SymbolTable.set_struct_heap
     SymbolTable.set_field_heap SymbolTable.set_function_heap
     SymbolTable.set_idents SymbolTable.set_identtable
     SymbolTable.set_identstack SymbolTable.set_structs
     SymbolTable.set_structtable SymbolTable.set_fields
     SymbolTable.set_fieldtable SymbolTable.set_functions
     SymbolTable.set_functiontable SymbolTable.set_filenames
     SymbolTable.set_scopelevels SymbolTable.set_withstack
     SymbolTable.set_withstacklevels SymbolTable.set_uses_frame_state
     SymbolTable.ident_heap SymbolTable.struct_heap SymbolTable.field_heap
     SymbolTable.function_heap SymbolTable.idents SymbolTable.identtable
     SymbolTable.identstack SymbolTable.structs SymbolTable.structtable
     SymbolTable.fields SymbolTable.fieldtable SymbolTable.functions
     SymbolTable.functiontable SymbolTable.filenames
     SymbolTable.scopelevels SymbolTable.withstack
     SymbolTable.withstacklevels SymbolTable.uses_frame_state].

Ltac sred_in H :=
  cbv beta iota delta
    [SymbolTable.set_ident_heap SymbolTable.set_struct_heap
     SymbolTable.set_field_heap SymbolTable.set_function_heap
     SymbolTable.set_idents SymbolTable.set_identtable
     SymbolTable.set_identstack SymbolTable.set_structs
     SymbolTable.set_structtable SymbolTable.set_fields
     SymbolTable.set_fieldtable SymbolTable.set_functions
     SymbolTable.set_functiontable SymbolTable.set_filenames
     SymbolTable.set_scopelevels SymbolTable.set_withstack
     SymbolTable.set_withstacklevels SymbolTable.set_uses_frame_state
     SymbolTable.ident_heap SymbolTable.struct_heap SymbolTable.field_heap
     SymbolTable.function_heap SymbolTable.idents SymbolTable.identtable
     SymbolTable.identstack SymbolTable.structs SymbolTable.structtable
     SymbolTable.fields SymbolTable.fieldtable SymbolTable.functions
     SymbolTable.functiontable SymbolTable.filenames
     SymbolTable.scopelevels SymbolTable.withstack
     SymbolTable.withstacklevels SymbolTable.uses_frame_state] in H.

(** ** Arenas *)

Lemma lookup_snoc_new {A} (h : list A) x : (h ++ [x]) !! length h = Some x.
Proof. by apply list_lookup_middle. Qed.

Lemma lookup_snoc_old {A} (h : list A) x p a :
  h !! p = Some a → (h ++ [x]) !! p = Some a.
Proof. intros H. by apply lookup_app_l_Some. Qed.

Lemma insert_snoc_new {A} (h : list A) x y :
  <[length h := y]> (h ++ [x]) = h ++ [y].
Proof. rewrite insert_app_r_alt by lia. by rewrite Nat.sub_diag. Qed.

(** ** Declarations of identifiers *)

(** C10: a declaration with dynamic scope of a name that has a live binding
    returns the identifier of that binding and leaves the whole table as it
    was: no identifier is created, no map, table or stack changes, and no
    error is raised, the collision with a field of a with-scope
    included. *)
Theorem dynscope_declare_returns_live_binding
    (s : SymbolTable.t) (name : string) (line : Z) (sf : option ptr)
    (p : ptr) :
  SymbolTable.idents s !! name = Some p →
  SymbolTable.LookupLexDefOrDynScope name line true sf s = Ret p s.
Proof.
  intros Hlive. unfold SymbolTable.LookupLexDefOrDynScope.
  unfold bind at 1, get. by rewrite Hlive.
Qed.

Lemma dynscope_declare_returns_live_binding_witness :
  SymbolTable.idents table_with_x_field !! "x" = Some 0
  ∧ SymbolTable.LookupLexDefOrDynScope "x" 9 true None table_with_x_field
    = Ret 0 table_with_x_field.
Proof.
  assert (SymbolTable.idents table_with_x_field !! "x" = Some 0) as Hlive.
  { vm_compute. reflexivity. }
  split; [exact Hlive |].
  apply (dynscope_declare_returns_live_binding table_with_x_field "x" 9 None 0).
  exact Hlive.
Defined.

(** What a lexical declaration of [name] does in a state where the name has
    the live binding [p], made in another scope than the current one, and
    no field of a with-scope has that name. *)
Lemma declare_shadows (s : SymbolTable.t) (name : string) (line : Z)
    (sf : option ptr) (p : ptr) (old : Ident.t) (level : nat) :
  SymbolTable.idents s !! name = Some p →
  SymbolTable.ident_heap s !! p = Some old →
  back (SymbolTable.scopelevels s) = Some level →
  SymbolTable.LookupWithStruct name None s = Ret (None, None) s →
  Ident.scope old ≠ level →
  let ident := length (SymbolTable.ident_heap s) in
  let i := Ident.set_prev (Some p)
             (Ident.set_sf sf
                (Ident.new name line
                   (Int.of_size (length (SymbolTable.identtable s))) level)) in
  SymbolTable.LookupLexDefOrDynScope name line false sf s
  = Ret ident
      (SymbolTable.set_identtable (push_back ident)
         (SymbolTable.set_identstack (push_back ident)
            (SymbolTable.set_idents <[name := ident]>
               (SymbolTable.set_ident_heap (λ h, h ++ [i]) s)))).
Proof.
  intros Hlive Hold Hlevel Hwith Hscope ident i.
  unfold SymbolTable.LookupLexDefOrDynScope. unfold back in Hlevel.
  mred. rewrite Hlive. mred. rewrite Hwith. simpl. rewrite Hlevel.
  subst ident i. destruct s. sred_in Hold. sred.
  repeat first
    [ rewrite lookup_snoc_new | rewrite insert_snoc_new
    | rewrite (lookup_snoc_old _ _ _ _ Hold)
    | rewrite decide_False by done
    | progress sred ].
  reflexivity.
Qed.

(** The same declaration when the live binding was made in the current
    scope: the new identifier has been allocated when the error is
    raised, but no map, table or stack has changed. *)
Lemma declare_redefinition (s : SymbolTable.t) (name : string) (line : Z)
    (sf : option ptr) (p : ptr) (old : Ident.t) (level : nat) :
  SymbolTable.idents s !! name = Some p →
  SymbolTable.ident_heap s !! p = Some old →
  back (SymbolTable.scopelevels s) = Some level →
  SymbolTable.LookupWithStruct name None s = Ret (None, None) s →
  Ident.scope old = level →
  let i := Ident.set_sf sf
             (Ident.new name line
                (Int.of_size (length (SymbolTable.identtable s))) level) in
  SymbolTable.LookupLexDefOrDynScope name line false sf s
  = Throw ("identifier redefinition: " +:+ name)
      (SymbolTable.set_ident_heap (λ h, h ++ [i]) s).
Proof.
  intros Hlive Hold Hlevel Hwith Hscope i.
  unfold SymbolTable.LookupLexDefOrDynScope. unfold back in Hlevel.
  mred. rewrite Hlive. mred. rewrite Hwith. simpl. rewrite Hlevel.
  subst i. destruct s. sred_in Hold. sred.
  repeat first
    [ rewrite lookup_snoc_new | rewrite insert_snoc_new
    | rewrite (lookup_snoc_old _ _ _ _ Hold)
    | rewrite decide_True by done
    | progress sred ].
  reflexivity.
Qed.

(** C5, as the source has it: when no field of a with-scope has the name
    (so that [LookupWithStruct] finds nothing and raises nothing), a lexical
    declaration of a name whose live binding was made at the current scope
    depth raises "identifier redefinition", and one whose live binding was
    made at a strictly shallower depth returns a fresh identifier, which is
    then the live binding of the name and whose [prev] is the binding that
    was live before. *)
Theorem declare_redefines_or_shadows (s : SymbolTable.t) (name : string)
    (line : Z) (sf : option ptr) (p : ptr) (old : Ident.t) (level : nat) :
  SymbolTable.idents s !! name = Some p →
  SymbolTable.ident_heap s !! p = Some old →
  back (SymbolTable.scopelevels s) = Some level →
  SymbolTable.LookupWithStruct name None s = Ret (None, None) s →
  (Ident.scope old = level →
   ∃ s', SymbolTable.LookupLexDefOrDynScope name line false sf s
         = Throw ("identifier redefinition: " +:+ name) s'
         ∧ SymbolTable.idents s' = SymbolTable.idents s)
  ∧ (Ident.scope old < level →
     ∃ ident s' i,
       SymbolTable.LookupLexDefOrDynScope name line false sf s = Ret ident s'
       ∧ SymbolTable.LookupLexMaybe name s' = Some ident
       ∧ SymbolTable.ident_heap s' !! ident = Some i
       ∧ Ident.prev i = Some p
       ∧ SymbolTable.ident_heap s !! ident = None).
Proof.
  intros Hlive Hold Hlevel Hwith. split; intros Hscope.
  - eexists. split.
    + by apply (declare_redefinition s name line sf p old level).
    + by destruct s.
  - eexists _, _, _. split; [| split; [| split; [| split]]].
    + apply (declare_shadows s name line sf p old level); [done.. | lia].
    + unfold SymbolTable.LookupLexMaybe. sred. apply lookup_insert_eq.
    + sred. apply lookup_snoc_new.
    + reflexivity.
    + by apply lookup_ge_None.
Qed.

Lemma declare_redefines_or_shadows_witness :
  (∃ s', SymbolTable.LookupLexDefOrDynScope "x" 5 false None table_x
         = Throw "identifier redefinition: x" s'
         ∧ SymbolTable.idents s' = SymbolTable.idents table_x)
  ∧ (∃ ident s' i,
       SymbolTable.LookupLexDefOrDynScope "x" 5 false None table_x_inner
       = Ret ident s'
       ∧ SymbolTable.LookupLexMaybe "x" s' = Some ident
       ∧ SymbolTable.ident_heap s' !! ident = Some i
       ∧ Ident.prev i = Some 0
       ∧ SymbolTable.ident_heap table_x_inner !! ident = None).
Proof.
  split.
  - apply (declare_redefines_or_shadows table_x "x" 5 None 0
             (Ident.new "x" 1 0 0) 0);
      vm_compute; reflexivity.
  - apply (declare_redefines_or_shadows table_x_inner "x" 5 None 0
             (Ident.new "x" 1 0 0) 1);
      [vm_compute; reflexivity .. | simpl; lia].
Defined.

(** C5, as the design document has it, fails in a scope that brings a field
    [x] into scope: the live binding of [x] was made in a strictly shallower
    scope, and yet the declaration fails; and when the live binding was made
    in the current scope, the error raised is not the redefinition error. *)
Lemma declare_blocked_by_with_field :
  (∃ p old level,
     SymbolTable.idents table_with_x_field !! "x" = Some p
     ∧ SymbolTable.ident_heap table_with_x_field !! p = Some old
     ∧ back (SymbolTable.scopelevels table_with_x_field) = Some level
     ∧ Ident.scope old < level
     ∧ SymbolTable.LookupLexDefOrDynScope "x" 9 false None table_with_x_field
       = Throw "cannot define variable with same name as field in this scope: x"
           table_with_x_field)
  ∧ (∃ p old level,
       SymbolTable.idents table_with_x_field_same_scope !! "x" = Some p
       ∧ SymbolTable.ident_heap table_with_x_field_same_scope !! p = Some old
       ∧ back (SymbolTable.scopelevels table_with_x_field_same_scope)
         = Some level
       ∧ Ident.scope old = level
       ∧ SymbolTable.LookupLexDefOrDynScope "x" 9 false None
           table_with_x_field_same_scope
         = Throw
             "cannot define variable with same name as field in this scope: x"
             table_with_x_field_same_scope).
Proof.
  split.
  - exists 0, (Ident.new "x" 1 0 0), 1.
    repeat split; vm_compute; reflexivity.
  - exists 1, (Ident.new "x" 2 1 0), 0.
    repeat split; vm_compute; reflexivity.
Qed.

(** ** Functions and their sibling chains *)

Lemma is_chain_fun h o l1 l2 : is_chain h o l1 → is_chain h o l2 → l1 = l2.
Proof.
  intros H1. revert l2. induction H1 as [|p x l Hp _ IH]; intros l2 H2.
  - by inversion H2.
  - inversion H2 as [|p' x' l' Hp' Hl']; subst.
    rewrite Hp in Hp'. injection Hp' as <-. f_equal. by apply IH.
Qed.

(** From any function of a chain, the rest of the chain is a chain. *)
Lemma is_chain_from_elem h o l q :
  is_chain h o l → q ∈ l →
  ∃ l', is_chain h (Some q) (q :: l') ∧ length (q :: l') ≤ length l.
Proof.
  induction 1 as [|p x l Hp Hl IH]; intros Hq.
  - by apply elem_of_nil in Hq.
  - apply elem_of_cons in Hq as [->|Hq].
    + exists l. split; [by econstructor | done].
    + destruct (IH Hq) as (l' & Hl' & Hlen). exists l'. split; [done |].
      simpl in *. lia.
Qed.

(** A chain that ends does not pass twice through a function. *)
Lemma is_chain_NoDup h o l : is_chain h o l → NoDup l.
Proof.
  induction 1 as [|p x l Hp Hl IH]; constructor; [| done].
  intros Hin.
  destruct (is_chain_from_elem _ _ _ _ Hl Hin) as (l' & Hl' & Hlen).
  assert (p :: l' = p :: l) as Heq.
  { eapply is_chain_fun; [done |]. by econstructor. }
  injection Heq as ->. simpl in Hlen. lia.
Qed.

Lemma is_chain_allocated h o l q : is_chain h o l → q ∈ l → q < length h.
Proof.
  induction 1 as [|p x l Hp Hl IH]; intros Hq.
  - by apply elem_of_nil in Hq.
  - apply elem_of_cons in Hq as [->|Hq]; [by eapply lookup_lt_Some | auto].
Qed.

(** So it has no more links than the arena has functions: the fuel of
    [FunctionDecl_loop] is enough for every chain that ends. *)
Lemma is_chain_length h o l : is_chain h o l → length l ≤ length h.
Proof.
  intros Hl.
  assert (l ⊆+ seq 0 (length h)) as Hsub.
  { apply NoDup_submseteq; [by eapply is_chain_NoDup |].
    intros q Hq. apply elem_of_seq. split; [lia |].
    simpl. by eapply is_chain_allocated. }
  apply submseteq_length in Hsub. by rewrite length_seq in Hsub.
Qed.

(** A chain only depends on the functions it passes through. *)
Lemma is_chain_frame h h' o l :
  is_chain h o l → (∀ q, q ∈ l → h' !! q = h !! q) → is_chain h' o l.
Proof.
  induction 1 as [|p x l Hp Hl IH]; intros Hsame; [constructor |].
  econstructor.
  - rewrite Hsame; [done | by left].
  - apply IH. intros q Hq. apply Hsame. by right.
Qed.

(** The loop of [FunctionDecl] on a chain without the arity. *)
Lemma FunctionDecl_loop_absent s o l nargs fuel :
  is_chain (SymbolTable.function_heap s) o l →
  arity_absent (SymbolTable.function_heap s) l nargs →
  length l ≤ fuel →
  SymbolTable.FunctionDecl_loop fuel o nargs s = Ret None s.
Proof.
  intros Hl. revert fuel.
  induction Hl as [|p x l Hp Hl IH]; intros fuel Habs Hfuel.
  - by destruct fuel.
  - destruct fuel as [|fuel]; [simpl in Hfuel; lia |].
    simpl. mred. rewrite Hp.
    rewrite decide_False by (eapply Habs; [by left | done]).
    apply IH; [| simpl in Hfuel; lia].
    intros q y Hq Hy. eapply Habs; [by right | done].
Qed.

(** C2, as the source has it: when the name has registered functions, the
    head of their chain was declared at the current scope level, and no
    function of the chain has the arity, [FunctionDecl] allocates a new
    function and links it directly behind the head: [FindFunction] still
    returns the old head, whose [sibf] is now the new function, and the
    [sibf] of the new function is what the [sibf] of the head was, so the
    chain is head, new function, rest. *)
Theorem FunctionDecl_links_behind_head (s : SymbolTable.t) (name : string)
    (nargs : Z) (hd : ptr) (x : Function.t) (tl : list ptr) :
  SymbolTable.functions s !! name = Some hd →
  SymbolTable.function_heap s !! hd = Some x →
  is_chain (SymbolTable.function_heap s) (Some hd) (hd :: tl) →
  Function.scopelevel x = Int.of_size (length (SymbolTable.scopelevels s)) →
  arity_absent (SymbolTable.function_heap s) (hd :: tl) nargs →
  ∃ f s' y,
    SymbolTable.FunctionDecl name nargs s = Ret f s'
    ∧ SymbolTable.function_heap s !! f = None
    ∧ SymbolTable.function_heap s' !! f = Some y
    ∧ Function.nargs y = nargs
    ∧ Function.sibf y = Function.sibf x
    ∧ SymbolTable.function_heap s' !! hd = Some (Function.set_sibf (Some f) x)
    ∧ SymbolTable.FindFunction name s' = Some hd
    ∧ is_chain (SymbolTable.function_heap s') (Some hd) (hd :: f :: tl)
    ∧ SymbolTable.functiontable s' = SymbolTable.functiontable s ++ [f].
Proof.
  intros Hname Hhd Hchain Hlevel Habs.
  pose proof (is_chain_length _ _ _ Hchain) as Hlen.
  pose proof (FunctionDecl_loop_absent s _ _ nargs
                (length (SymbolTable.function_heap s)) Hchain Habs Hlen)
    as Hloop.
  assert (hd < length (SymbolTable.function_heap s)) as Hlt
    by (by eapply lookup_lt_Some).
  set (new := Function.new name
                (Int.of_size (length (SymbolTable.functiontable s))) nargs
                (Int.of_size (length (SymbolTable.scopelevels s)))).
  set (y := Function.set_sibf (Function.sibf x) new).
  set (h' := <[hd := Function.set_sibf (Some (length (SymbolTable.function_heap s))) x]>
               (SymbolTable.function_heap s ++ [y])).
  exists (length (SymbolTable.function_heap s)),
    (SymbolTable.set_function_heap (λ _, h')
       (SymbolTable.set_functiontable
          (λ l, l ++ [length (SymbolTable.function_heap s)]) s)), y.
  assert (h' !! hd = Some (Function.set_sibf (Some (length (SymbolTable.function_heap s))) x)) as Hhd'.
  { subst h'. apply list_lookup_insert_eq. rewrite length_app. lia. }
  assert (h' !! length (SymbolTable.function_heap s) = Some y) as Hnew'.
  { subst h'. rewrite list_lookup_insert_ne by lia. apply lookup_snoc_new. }
  split; [| split; [| split; [| split; [| split; [| split; [| split; [| split]]]]]]].
  - unfold SymbolTable.FunctionDecl. mred. rewrite Hname. mred. rewrite Hhd.
    rewrite decide_False by (intros Hne; by apply Hne).
    rewrite Hloop. subst h' y new. destruct s. sred_in Hhd. sred_in Hlt. sred.
    rewrite (lookup_snoc_old _ _ _ _ Hhd). rewrite lookup_snoc_new.
    rewrite insert_snoc_new.
    rewrite (lookup_snoc_old _ _ _ _ Hhd). reflexivity.
  - by apply lookup_ge_None.
  - sred. exact Hnew'.
  - reflexivity.
  - reflexivity.
  - sred. exact Hhd'.
  - unfold SymbolTable.FindFunction. sred. exact Hname.
  - sred. inversion Hchain as [|? x' ? Hx' Htl]; subst.
    rewrite Hhd in Hx'. injection Hx' as <-.
    apply is_chain_NoDup in Hchain as Hnodup. inversion Hnodup as [|? ? Hnotin _]; subst.
    econstructor; [exact Hhd' |]. simpl.
    econstructor; [exact Hnew' |]. simpl.
    eapply is_chain_frame; [exact Htl |].
    intros q Hq. subst h'.
    assert (q < length (SymbolTable.function_heap s))
      by (by eapply is_chain_allocated).
    rewrite list_lookup_insert_ne by (intros ->; done).
    by rewrite lookup_app_l.
  - reflexivity.
Qed.

Lemma FunctionDecl_links_behind_head_witness :
  ∃ f s' y,
    SymbolTable.FunctionDecl "f" 2 table_f1 = Ret f s'
    ∧ SymbolTable.function_heap table_f1 !! f = None
    ∧ SymbolTable.function_heap s' !! f = Some y
    ∧ Function.nargs y = 2%Z
    ∧ Function.sibf y = Function.sibf (Function.new "f" 0 1 0)
    ∧ SymbolTable.function_heap s' !! 0
      = Some (Function.set_sibf (Some f) (Function.new "f" 0 1 0))
    ∧ SymbolTable.FindFunction "f" s' = Some 0
    ∧ is_chain (SymbolTable.function_heap s') (Some 0) [0; f]
    ∧ SymbolTable.functiontable s' = SymbolTable.functiontable table_f1 ++ [f].
Proof.
  apply (FunctionDecl_links_behind_head table_f1 "f" 2 0
           (Function.new "f" 0 1 0) []).
  - vm_compute. reflexivity.
  - vm_compute. reflexivity.
  - apply (is_chain_cons _ 0 (Function.new "f" 0 1 0) []);
      [vm_compute; reflexivity | apply is_chain_nil].
  - vm_compute. reflexivity.
  - intros q y Hq Hy. apply list_elem_of_singleton in Hq as ->.
    vm_compute in Hy. injection Hy as <-. vm_compute. discriminate.
Defined.

(** C2, as the design document has it, fails: after [f] of one argument,
    declaring [f] of two arguments returns a new function, but
    [FindFunction] still returns the first one, and the [sibf] of the new
    function is null: it does not lead to the function that existed. *)
Lemma FunctionDecl_new_function_is_not_head :
  SymbolTable.FindFunction "f" table_f1 = Some 0
  ∧ ∃ s' y,
      SymbolTable.FunctionDecl "f" 2 table_f1 = Ret 1 s'
      ∧ SymbolTable.function_heap table_f1 !! 1 = None
      ∧ SymbolTable.FindFunction "f" s' = Some 0
      ∧ SymbolTable.FindFunction "f" s' ≠ Some 1
      ∧ SymbolTable.function_heap s' !! 1 = Some y
      ∧ Function.sibf y = None.
Proof.
  split; [vm_compute; reflexivity |].
  eexists _, _.
  split; [vm_compute; reflexivity |].
  split; [vm_compute; reflexivity |].
  split; [vm_compute; reflexivity |].
  split; [vm_compute; discriminate |].
  split; vm_compute; reflexivity.
Qed.

(** ** Scopes *)

(** [LookupWithStruct] only reads the table. *)
Lemma structtable_at_state i s st s' :
  SymbolTable.structtable_at i s = Ret st s' → s' = s.
Proof.
  unfold SymbolTable.structtable_at. mred.
  case_decide; [| done].
  destruct (SymbolTable.structtable s !! Z.to_nat i); [| done].
  destruct (SymbolTable.struct_heap s !! n); [| done].
  by intros [= _ ->].
Qed.

Lemma LookupWithStruct_loop_state fld ws id s r s' :
  SymbolTable.LookupWithStruct_loop fld ws id s = Ret r s' → s' = s.
Proof.
  revert id. induction ws as [|wp ws IH]; intros id; simpl.
  - by intros [= _ ->].
  - unfold bind at 1.
    destruct (SymbolTable.structtable_at (ty_idx wp.1) s) as [st s1| |] eqn:Hat;
      [| done..].
    apply structtable_at_state in Hat as ->.
    destruct (nonnull (Struct.Has (Some fld) st)); [| apply IH].
    destruct id as [q|]; simpl.
    + mred. by destruct (SymbolTable.field_heap s !! fld).
    + mred. apply IH.
Qed.

Lemma LookupWithStruct_state name id s r s' :
  SymbolTable.LookupWithStruct name id s = Ret r s' → s' = s.
Proof.
  unfold SymbolTable.LookupWithStruct. unfold bind at 1, get.
  destruct (SymbolTable.FieldUse name s) as [fld|]; [| by intros [= _ ->]].
  destruct id as [q|]; simpl; [done |].
  unfold bind at 1, ret at 1. unfold bind at 1.
  destruct (SymbolTable.LookupWithStruct_loop fld (SymbolTable.withstack s)
              None s) as [id' s1| |] eqn:Hloop; [| done..].
  apply LookupWithStruct_loop_state in Hloop as ->. by intros [= _ ->].
Qed.

(** A lexical declaration that returns has allocated one identifier [i],
    made it the live binding of the name with the former binding as its
    [prev], and pushed it on the stack and on the table. *)
Lemma declare_Ret_inv (s : SymbolTable.t) name line sf ident s' :
  SymbolTable.LookupLexDefOrDynScope name line false sf s = Ret ident s' →
  ∃ i,
    Ident.name i = name
    ∧ Ident.prev i = SymbolTable.idents s !! name
    ∧ ident = length (SymbolTable.ident_heap s)
    ∧ s' = SymbolTable.set_identtable (λ l, l ++ [ident])
             (SymbolTable.set_identstack (λ l, l ++ [ident])
                (SymbolTable.set_idents <[name := ident]>
                   (SymbolTable.set_ident_heap (λ h, h ++ [i]) s))).
Proof.
  unfold SymbolTable.LookupLexDefOrDynScope. mred.
  destruct (SymbolTable.idents s !! name) as [p|] eqn:Hlive; mred;
    (destruct (SymbolTable.LookupWithStruct name None s) as [[r1 r2] s1| |]
       eqn:Hw; [| done..]);
    apply LookupWithStruct_state in Hw as ->;
    (destruct r1 as [fld|]; simpl; [done |]);
    (destruct (last (SymbolTable.scopelevels s)) as [level|]; [| done]);
    destruct s; sred_in Hlive; sred; rewrite !lookup_snoc_new; sred;
    rewrite !insert_snoc_new.
  - destruct (ident_heap !! p) as [old|] eqn:Hold.
    + rewrite (lookup_snoc_old _ _ _ _ Hold).
      case_decide; [done |]. sred.
      rewrite lookup_snoc_new. sred. rewrite insert_snoc_new.
      intros [= <- <-].
      exists (Ident.set_prev (Some p)
                (Ident.set_sf sf
                   (Ident.new name line (Int.of_size (length identtable))
                      level))).
      sred. done.
    + apply lookup_ge_None in Hold.
      destruct (decide (p = length ident_heap)) as [->|Hne].
      * rewrite lookup_snoc_new. by rewrite decide_True.
      * rewrite lookup_ge_None_2; [done |]. rewrite length_app. simpl. lia.
  - intros [= <- <-].
    exists (Ident.set_sf sf
              (Ident.new name line (Int.of_size (length identtable)) level)).
    sred. done.
Qed.

Lemma unwind_app h ps qs m :
  unwind h (ps ++ qs) m = unwind h ps m ≫= unwind h qs.
Proof.
  revert m. induction ps as [|p ps IH]; intros m; simpl; [done |].
  destruct (h !! p); [apply IH | done].
Qed.

(** Allocating more identifiers does not change what popping does. *)
Lemma unwind_heap_ext h ext ps m m' :
  unwind h ps m = Some m' → unwind (h ++ ext) ps m = Some m'.
Proof.
  revert m. induction ps as [|p ps IH]; intros m; simpl; [done |].
  destruct (h !! p) as [i|] eqn:Hp; [| done].
  rewrite (lookup_app_l_Some _ _ _ _ Hp). apply IH.
Qed.

(** Popping an identifier that was declared on top of the bindings [m]
    gives [m] back. *)
Lemma unbind_declared (i : Ident.t) (ident : nat) (m : gmap string nat) :
  Ident.prev i = m !! Ident.name i →
  unbind i (<[Ident.name i := ident]> m) = m.
Proof.
  intros Hprev. unfold unbind. rewrite lookup_insert_eq.
  destruct (Ident.prev i) as [q|].
  - rewrite insert_insert_eq. by apply insert_id.
  - rewrite delete_insert_eq. by apply delete_id.
Qed.

(** The first loop of [ScopeCleanup] pops the identifiers above the level
    of the scope, the last one first. *)
Lemma ScopeCleanup_idents_spec news :
  ∀ fuel s base m',
    SymbolTable.identstack s = base ++ news →
    back (SymbolTable.scopelevels s) = Some (length base) →
    length news < fuel →
    unwind (SymbolTable.ident_heap s) (rev news) (SymbolTable.idents s)
    = Some m' →
    SymbolTable.ScopeCleanup_idents fuel s
    = Ret tt (SymbolTable.set_identstack (λ _, base)
                (SymbolTable.set_idents (λ _, m') s)).
Proof.
  unfold back.
  induction news as [|p news IH] using rev_ind;
    intros fuel s base m' Hstack Hlevel Hfuel Hunwind;
    (destruct fuel as [|fuel]; [simpl in Hfuel; lia |]).
  - simpl in *. mred. rewrite Hlevel. rewrite app_nil_r in Hstack.
    rewrite Hstack. rewrite decide_False by lia.
    injection Hunwind as <-. destruct s. sred_in Hstack. by subst.
  - rewrite rev_unit in Hunwind. simpl in Hunwind.
    destruct (SymbolTable.ident_heap s !! p) as [i|] eqn:Hp; [| done].
    rewrite length_app in Hfuel. simpl in Hfuel.
    simpl. mred. rewrite Hlevel.
    rewrite decide_True by (rewrite Hstack, !length_app; simpl; lia).
    rewrite Hstack, app_assoc, last_snoc. rewrite Hp.
    set (s1 := SymbolTable.set_identstack (λ _, base ++ news)
                 (SymbolTable.set_idents (λ _, unbind i (SymbolTable.idents s))
                    s)).
    assert (SymbolTable.ScopeCleanup_idents fuel s1
            = Ret tt (SymbolTable.set_identstack (λ _, base)
                        (SymbolTable.set_idents (λ _, m') s1))) as Hrest.
    { apply IH; [done | done | lia | done]. }
    assert (SymbolTable.set_identstack (λ _, base)
              (SymbolTable.set_idents (λ _, m') s1)
            = SymbolTable.set_identstack (λ _, base)
                (SymbolTable.set_idents (λ _, m') s)) as <-
      by (by destruct s).
    rewrite <- Hrest. clear Hrest IH.
    assert (removelast ((base ++ news) ++ [p]) = base ++ news) as Hpop
      by apply removelast_last.
    unfold unbind in s1. subst s1. destruct s. sred_in Hstack. sred.
    rewrite <- app_assoc in Hpop. subst identstack.
    destruct (idents !! Ident.name i) as [q|]; [destruct (Ident.prev i) |];
      sred; by rewrite Hpop.
Qed.

(** The second loop pops the with-stack down to its level. *)
Lemma ScopeCleanup_withstack_spec extra :
  ∀ fuel s base,
    SymbolTable.withstack s = base ++ extra →
    back (SymbolTable.withstacklevels s) = Some (length base) →
    length extra < fuel →
    SymbolTable.ScopeCleanup_withstack fuel s
    = Ret tt (SymbolTable.set_withstack (λ _, base) s).
Proof.
  unfold back.
  induction extra as [|wp extra IH] using rev_ind;
    intros fuel s base Hstack Hlevel Hfuel;
    (destruct fuel as [|fuel]; [simpl in Hfuel; lia |]).
  - simpl. mred. rewrite Hlevel. rewrite app_nil_r in Hstack.
    rewrite Hstack. rewrite decide_False by lia.
    destruct s. sred_in Hstack. by subst.
  - rewrite length_app in Hfuel. simpl in Hfuel.
    simpl. mred. rewrite Hlevel.
    rewrite decide_True by (rewrite Hstack, !length_app; simpl; lia).
    set (s1 := SymbolTable.set_withstack (λ _, base ++ extra) s).
    assert (SymbolTable.ScopeCleanup_withstack fuel s1
            = Ret tt (SymbolTable.set_withstack (λ _, base) s1)) as Hrest.
    { apply IH; [done | done | lia]. }
    assert (SymbolTable.set_withstack (λ _, base) s1
            = SymbolTable.set_withstack (λ _, base) s) as <-
      by (by destruct s).
    rewrite <- Hrest. clear Hrest IH.
    assert (removelast ((base ++ extra) ++ [wp]) = base ++ extra) as Hpop
      by apply removelast_last.
    subst s1. destruct s. sred_in Hstack. sred.
    rewrite <- app_assoc in Hpop. subst withstack. by rewrite Hpop.
Qed.

(** [ScopeCleanup], for a scope that was started at the depths [base] of the
    identifier stack and [wbase] of the with-stack. *)
Lemma ScopeCleanup_spec s base news lv wbase wextra wl m' :
  SymbolTable.identstack s = base ++ news →
  SymbolTable.scopelevels s = lv ++ [length base] →
  SymbolTable.withstack s = wbase ++ wextra →
  SymbolTable.withstacklevels s = wl ++ [length wbase] →
  unwind (SymbolTable.ident_heap s) (rev news) (SymbolTable.idents s)
  = Some m' →
  SymbolTable.ScopeCleanup s
  = Ret tt
      (SymbolTable.set_withstacklevels (λ _, wl)
         (SymbolTable.set_withstack (λ _, wbase)
            (SymbolTable.set_scopelevels (λ _, lv)
               (SymbolTable.set_identstack (λ _, base)
                  (SymbolTable.set_idents (λ _, m') s))))).
Proof.
  intros Hstack Hlevels Hwith Hwlevels Hunwind.
  unfold SymbolTable.ScopeCleanup. unfold bind at 1, get. unfold bind at 1.
  rewrite (ScopeCleanup_idents_spec news _ s base m'); try done.
  2: { unfold back. by rewrite Hlevels, last_snoc. }
  2: { rewrite Hstack, length_app. lia. }
  unfold bind at 1, modify at 1. unfold bind at 1.
  rewrite (ScopeCleanup_withstack_spec wextra _ _ wbase).
  - unfold modify. destruct s. sred_in Hlevels. sred_in Hwlevels. sred.
    subst scopelevels withstacklevels. unfold pop_back.
    by rewrite !removelast_last.
  - by destruct s.
  - destruct s. sred_in Hwlevels. sred. subst withstacklevels.
    unfold back. by rewrite last_snoc.
  - rewrite Hwith, length_app. lia.
Qed.

Lemma ScopeStart_spec s :
  SymbolTable.ScopeStart s
  = Ret tt
      (SymbolTable.set_withstacklevels
         (λ l, l ++ [length (SymbolTable.withstack s)])
         (SymbolTable.set_scopelevels
            (λ l, l ++ [length (SymbolTable.identstack s)]) s)).
Proof. reflexivity. Qed.

Lemma run_app os1 os2 s :
  run (os1 ++ os2) s
  = match run os1 s with
    | Ret _ s1 => run os2 s1
    | Throw msg s1 => Throw msg s1
    | Abort => Abort
    end.
Proof.
  revert s. induction os1 as [|o os1 IH]; intros s; simpl; [done |].
  unfold bind. destruct (exec o s); [apply IH | done..].
Qed.

(** A scope around such a run: when it has ended, the table is what it was
    before the scope started, but for the identifiers that were
    allocated. *)
Lemma scope_block_run body s s' :
  declares_only body →
  run (OpScopeStart :: body ++ [OpScopeCleanup]) s = Ret tt s' →
  ∃ ext tbl,
    s' = SymbolTable.set_identtable (λ l, l ++ tbl)
           (SymbolTable.set_ident_heap (λ h, h ++ ext) s).
Proof.
  intros Hbody Hrun.
  change (run (OpScopeStart :: body ++ [OpScopeCleanup]) s)
    with (bind SymbolTable.ScopeStart
            (λ _, run (body ++ [OpScopeCleanup])) s) in Hrun.
  unfold bind at 1 in Hrun.
  rewrite ScopeStart_spec, run_app in Hrun.
  destruct s. sred_in Hrun.
  match type of Hrun with
  | match run body ?sa with _ => _ end = _ =>
      destruct (run body sa) as [[] s_b| |] eqn:Hb; [| done..]
  end.
  destruct (Hbody _ _ Hb) as (news & ext & tbl & m' & -> & Hunwind).
  clear Hb Hbody. sred_in Hunwind. sred_in Hrun.
  change (run [OpScopeCleanup]) with
    (bind SymbolTable.ScopeCleanup (λ _, ret tt)) in Hrun.
  unfold bind at 1 in Hrun.
  erewrite (ScopeCleanup_spec _ identstack news scopelevels withstack []
              withstacklevels idents) in Hrun;
    [| sred; rewrite ?app_nil_r; done ..].
  sred_in Hrun. injection Hrun as <-. exists ext, tbl. sred. reflexivity.
Qed.

Lemma well_nested_declares_only os : well_nested os → declares_only os.
Proof.
  induction 1 as [|name line sf rest Hrest IHrest
                 |body rest Hbody IHbody Hrest IHrest]; intros s s' Hrun.
  - injection Hrun as <-. exists [], [], [], (SymbolTable.idents s).
    split; [| done]. destruct s. sred. by rewrite !app_nil_r.
  - simpl in Hrun. unfold bind at 1, discard, bind at 1 in Hrun.
    destruct (SymbolTable.LookupLexDefOrDynScope name line false sf s)
      as [ident s1| |] eqn:Hdecl; [| done..].
    apply declare_Ret_inv in Hdecl as (i & Hname & Hprev & -> & ->).
    unfold ret in Hrun.
    destruct (IHrest _ _ Hrun) as (news & ext & tbl & m' & -> & Hunwind).
    exists (length (SymbolTable.ident_heap s) :: news), (i :: ext),
      (length (SymbolTable.ident_heap s) :: tbl), m'.
    split.
    + destruct s. sred. by rewrite <- !app_assoc.
    + simpl. rewrite unwind_app.
      revert Hunwind. destruct s. sred. rewrite <- app_assoc. simpl.
      intros ->. simpl. rewrite list_lookup_middle by done.
      subst name. by rewrite unbind_declared.
  - change (OpScopeStart :: body ++ OpScopeCleanup :: rest)
      with ((OpScopeStart :: body ++ [OpScopeCleanup] ++ rest)) in Hrun.
    rewrite app_assoc, app_comm_cons, run_app in Hrun.
    destruct (run (OpScopeStart :: body ++ [OpScopeCleanup]) s)
      as [[] s1| |] eqn:Hblock; [| done..].
    apply scope_block_run in Hblock as (ext & tbl & ->); [| done].
    destruct (IHrest _ _ Hrun) as (news' & ext' & tbl' & m'' & -> & Hunwind').
    exists news', (ext ++ ext'), (tbl ++ tbl'), m''.
    destruct s. sred_in Hunwind'. sred. split.
    + by rewrite <- !app_assoc.
    + by rewrite app_assoc.
Qed.

(** C1: from any state of the table, after a scope start, a well nested
    sequence of lexical declarations and inner scopes that raises no error,
    and the matching scope end, [LookupLexMaybe] gives for every name the
    binding that was live immediately before the scope start: the same
    identifier where there was one, nothing where the name was unbound; and
    every identifier that existed then is still what it was. *)
Theorem scope_end_restores_bindings (s s' : SymbolTable.t) (body : list op) :
  well_nested body →
  run (OpScopeStart :: body ++ [OpScopeCleanup]) s = Ret tt s' →
  (∀ name, SymbolTable.LookupLexMaybe name s'
           = SymbolTable.LookupLexMaybe name s)
  ∧ (∀ p i, SymbolTable.ident_heap s !! p = Some i →
            SymbolTable.ident_heap s' !! p = Some i).
Proof.
  intros Hbody Hrun.
  apply scope_block_run in Hrun as (ext & tbl & ->);
    [| by apply well_nested_declares_only].
  split.
  - intros name. by destruct s.
  - intros p i Hp. destruct s. sred_in Hp. sred. by apply lookup_app_l_Some.
Qed.

Lemma scope_end_restores_bindings_witness :
  well_nested scope_body
  ∧ run (OpScopeStart :: scope_body ++ [OpScopeCleanup]) table_x
    = Ret tt table_x_after_scope
  ∧ SymbolTable.LookupLexMaybe "x" table_x_after_scope = Some 0
  ∧ SymbolTable.LookupLexMaybe "y" table_x_after_scope = None
  ∧ SymbolTable.LookupLexMaybe "z" table_x_after_scope = None.
Proof.
  assert (well_nested scope_body) as Hbody.
  { unfold scope_body. do 2 apply well_nested_decl.
    apply (well_nested_scope
             [OpLookupLexDefOrDynScope "x" 4 false None;
              OpLookupLexDefOrDynScope "z" 5 false None]
             [OpLookupLexDefOrDynScope "w" 6 false None]);
      repeat apply well_nested_decl; apply well_nested_nil. }
  assert (run (OpScopeStart :: scope_body ++ [OpScopeCleanup]) table_x
          = Ret tt table_x_after_scope) as Hrun.
  { vm_compute. reflexivity. }
  split; [exact Hbody |]. split; [exact Hrun |].
  destruct (scope_end_restores_bindings table_x table_x_after_scope scope_body
              Hbody Hrun) as [Hsame _].
  rewrite !Hsame. repeat split; vm_compute; reflexivity.
Defined.

(** ** The index tables *)

Lemma kind_step_refl {A} (idx : A → Z) h t : kind_step idx h h t t.
Proof. split; [eauto | by left]. Qed.

Lemma kind_step_indexed {A} (idx : A → Z) h h' t t' :
  kind_step idx h h' t t' →
  (Z.of_nat (length t) ≤ Int.INT_MAX)%Z →
  indexed idx h t → indexed idx h' t'.
Proof.
  intros [Hheap Htable] Hbound Hind i p Hi.
  destruct Htable as [-> | (q & e & -> & Hq & Hidx)].
  - destruct (Hind i p Hi) as (e & He & Hidx).
    destruct (Hheap p e He) as (e' & He' & Hidx'). exists e'.
    split; [done | congruence].
  - destruct (decide (i < length t)) as [Hlt|Hge].
    + rewrite lookup_app_l in Hi by done.
      destruct (Hind i p Hi) as (e0 & He0 & Hidx0).
      destruct (Hheap p e0 He0) as (e' & He' & Hidx'). exists e'.
      split; [done | congruence].
    + assert (i = length t) as ->.
      { apply lookup_lt_Some in Hi. rewrite length_app in Hi. simpl in Hi.
        lia. }
      rewrite list_lookup_middle in Hi by done. injection Hi as <-.
      exists e. split; [done |]. by rewrite Hidx, of_size_small.
Qed.

Lemma kind_step_prefix {A} (idx : A → Z) h h' t t' :
  kind_step idx h h' t t' → t `prefix_of` t'.
Proof.
  intros [_ [-> | (q & e & -> & _)]]; [done | by apply prefix_app_r].
Qed.

Lemma index_step_refl s : index_step s s.
Proof. repeat split; eauto; by left. Qed.

Lemma same_index_step s s' : same_index s s' → index_step s s'.
Proof.
  intros (H1 & H2 & H3 & H4 & H5 & H6 & H7 & H8). unfold index_step.
  rewrite H1, H2, H3, H4, H5, H6, H7, H8. apply index_step_refl.
Qed.

Lemma index_step_inv s s' :
  index_step s s' → tables_bounded s → idx_inv s → idx_inv s'.
Proof.
  intros (H1 & H2 & H3 & H4) (B1 & B2 & B3 & B4) (I1 & I2 & I3 & I4).
  repeat split; eapply kind_step_indexed; eauto.
Qed.

Lemma index_step_grow s s' : index_step s s' → tables_grow s s'.
Proof.
  intros (H1 & H2 & H3 & H4). repeat split; eapply kind_step_prefix; eauto.
Qed.

(** An update through a pointer that keeps [idx]. *)
Lemma kind_step_update {A} (idx : A → Z) h t p e e' :
  h !! p = Some e → idx e' = idx e →
  kind_step idx h (<[p := e']> h) t t.
Proof.
  intros Hp Hidx. split; [| by left]. intros q x Hq.
  destruct (decide (q = p)) as [->|Hne].
  - exists e'. rewrite list_lookup_insert_eq by (by eapply lookup_lt_Some).
    split; [done |]. congruence.
  - exists x. by rewrite list_lookup_insert_ne.
Qed.

(** An allocation that is not entered in the table. *)
Lemma kind_step_leak {A} (idx : A → Z) h t e :
  kind_step idx h (h ++ [e]) t t.
Proof.
  split; [| by left]. intros q x Hq. exists x.
  split; [by apply lookup_app_l_Some | done].
Qed.

(** An allocation that is entered in the table. *)
Lemma kind_step_alloc {A} (idx : A → Z) h t e :
  idx e = Int.of_size (length t) →
  kind_step idx h (h ++ [e]) t (t ++ [length h]).
Proof.
  intros Hidx. split.
  - intros q x Hq. exists x. split; [by apply lookup_app_l_Some | done].
  - right. exists (length h), e. split; [done |].
    split; [by apply list_lookup_middle | done].
Qed.

Lemma kind_step_trans {A} (idx : A → Z) h1 h2 h3 t t' :
  kind_step idx h1 h2 t t' → kind_step idx h2 h3 t' t' →
  kind_step idx h1 h3 t t'.
Proof.
  intros [Hh1 Ht1] [Hh2 _]. split.
  - intros p e Hp. destruct (Hh1 p e Hp) as (e' & Hp' & Hidx').
    destruct (Hh2 p e' Hp') as (e'' & Hp'' & Hidx''). exists e''.
    split; [done | congruence].
  - destruct Ht1 as [-> | (q & e & -> & Hq & Hidx)]; [by left |].
    right. destruct (Hh2 q e Hq) as (e' & Hq' & Hidx'). exists q, e'.
    split; [done |]. split; [done | congruence].
Qed.

Lemma same_index_refl s : same_index s s.
Proof. by repeat split. Qed.

Lemma same_index_trans s1 s2 s3 :
  same_index s1 s2 → same_index s2 s3 → same_index s1 s3.
Proof.
  intros (A1 & A2 & A3 & A4 & A5 & A6 & A7 & A8)
    (B1 & B2 & B3 & B4 & B5 & B6 & B7 & B8).
  repeat split; congruence.
Qed.

(** *** Member functions that keep the arenas and the index tables *)

Lemma keeps_ret {A} (a : A) : keeps_index (ret a).
Proof. intros s s' [= <-]. apply same_index_refl. Qed.

Lemma keeps_get : keeps_index get.
Proof. intros s s' [= <-]. apply same_index_refl. Qed.

Lemma keeps_Error {A} msg : keeps_index (@Error _ A msg).
Proof. intros s s' [= <-]. apply same_index_refl. Qed.

Lemma keeps_abort {A} : keeps_index (@abort _ A).
Proof. intros s s' [=]. Qed.

Lemma keeps_deref {A} (o : option A) : keeps_index (deref o).
Proof. destruct o; [apply keeps_ret | apply keeps_abort]. Qed.

Lemma keeps_modify f :
  (∀ s, same_index s (f s)) → keeps_index (modify f).
Proof. intros Hf s s' [= <-]. apply Hf. Qed.

Lemma keeps_bind {A B} (m : M SymbolTable.t A) (k : A → M SymbolTable.t B) :
  keeps_index m → (∀ a, keeps_index (k a)) → keeps_index (bind m k).
Proof.
  intros Hm Hk s s'. unfold bind.
  destruct (m s) as [a s1|msg s1|] eqn:Hms; simpl.
  - intros Hs'. eapply same_index_trans; [| by eapply Hk].
    apply Hm. by rewrite Hms.
  - intros [= <-]. apply Hm. by rewrite Hms.
  - done.
Qed.

Lemma keeps_ident_at p : keeps_index (SymbolTable.ident_at p).
Proof. intros s. apply keeps_deref. Qed.

Lemma keeps_struct_at p : keeps_index (SymbolTable.struct_at p).
Proof. intros s. apply keeps_deref. Qed.

Lemma keeps_field_at p : keeps_index (SymbolTable.field_at p).
Proof. intros s. apply keeps_deref. Qed.

Lemma keeps_function_at p : keeps_index (SymbolTable.function_at p).
Proof. intros s. apply keeps_deref. Qed.

Lemma keeps_structtable_at i : keeps_index (SymbolTable.structtable_at i).
Proof.
  intros s. unfold SymbolTable.structtable_at. case_decide; [| done].
  destruct (SymbolTable.structtable s !! Z.to_nat i); [| done].
  apply keeps_struct_at.
Qed.

(** One step of the proofs below: take the member function apart. *)
Ltac keeps_step :=
  first
    [ assumption
    | apply keeps_ret | apply keeps_get | apply keeps_Error
    | apply keeps_abort | apply keeps_deref
    | apply keeps_ident_at | apply keeps_struct_at | apply keeps_field_at
    | apply keeps_function_at | apply keeps_structtable_at
    | apply keeps_modify; intros ?; by repeat split
    | apply keeps_bind; [| intros ?]
    | match goal with
      | |- keeps_index (if ?b then _ else _) => destruct b
      | |- keeps_index (match ?x with _ => _ end) => destruct x
      end ].

Ltac keeps := repeat keeps_step.

Lemma keeps_LookupWithStruct_loop fld ws id :
  keeps_index (SymbolTable.LookupWithStruct_loop fld ws id).
Proof.
  revert id. induction ws as [|wp ws IH]; intros id; simpl; keeps; apply IH.
Qed.

Lemma keeps_LookupWithStruct name id :
  keeps_index (SymbolTable.LookupWithStruct name id).
Proof.
  unfold SymbolTable.LookupWithStruct. keeps.
  apply keeps_LookupWithStruct_loop.
Qed.

Lemma keeps_AddWithStruct_loop ws ty :
  keeps_index (SymbolTable.AddWithStruct_loop ws ty).
Proof. induction ws as [|wp ws IH]; simpl; keeps. Qed.

Lemma keeps_AddWithStruct ty id :
  keeps_index (SymbolTable.AddWithStruct ty id).
Proof.
  unfold SymbolTable.AddWithStruct. keeps. apply keeps_AddWithStruct_loop.
Qed.

Lemma keeps_ScopeStart : keeps_index SymbolTable.ScopeStart.
Proof. unfold SymbolTable.ScopeStart. keeps. Qed.

Lemma keeps_ScopeCleanup_idents fuel :
  keeps_index (SymbolTable.ScopeCleanup_idents fuel).
Proof. induction fuel as [|fuel IH]; simpl; keeps. Qed.

Lemma keeps_ScopeCleanup_withstack fuel :
  keeps_index (SymbolTable.ScopeCleanup_withstack fuel).
Proof. induction fuel as [|fuel IH]; simpl; keeps. Qed.

Lemma keeps_ScopeCleanup : keeps_index SymbolTable.ScopeCleanup.
Proof.
  unfold SymbolTable.ScopeCleanup. keeps.
  - apply keeps_ScopeCleanup_idents.
  - apply keeps_ScopeCleanup_withstack.
Qed.

Lemma keeps_EndOfInclude_loop its :
  keeps_index (SymbolTable.EndOfInclude_loop its).
Proof. induction its as [|it its IH]; simpl; keeps. Qed.

Lemma keeps_EndOfInclude : keeps_index SymbolTable.EndOfInclude.
Proof.
  unfold SymbolTable.EndOfInclude. keeps. apply keeps_EndOfInclude_loop.
Qed.

Lemma keeps_structs_subscript name :
  keeps_index (SymbolTable.structs_subscript name).
Proof. unfold SymbolTable.structs_subscript. keeps. Qed.

Lemma keeps_StructUse name : keeps_index (SymbolTable.StructUse name).
Proof.
  unfold SymbolTable.StructUse. keeps; apply keeps_structs_subscript.
Qed.

Lemma keeps_UnregisterStruct st : keeps_index (SymbolTable.UnregisterStruct st).
Proof. unfold SymbolTable.UnregisterStruct. keeps. Qed.

Lemma keeps_UnregisterFun f : keeps_index (SymbolTable.UnregisterFun f).
Proof. unfold SymbolTable.UnregisterFun. keeps. Qed.

Lemma keeps_FunctionDecl_loop fuel f nargs :
  keeps_index (SymbolTable.FunctionDecl_loop fuel f nargs).
Proof.
  revert f. induction fuel as [|fuel IH]; intros [p|]; simpl; keeps.
  apply IH.
Qed.

Lemma FunctionDecl_loop_state fuel f nargs s s' :
  state_of (SymbolTable.FunctionDecl_loop fuel f nargs s) = Some s' → s' = s.
Proof.
  revert f. induction fuel as [|fuel IH]; intros [p|]; simpl; mred;
    try (by intros [= <-]).
  destruct (SymbolTable.function_heap s !! p) as [x|]; [| done].
  case_decide; [by intros [= <-] | apply IH].
Qed.

Lemma state_of_discard {A} (m : M SymbolTable.t A) s :
  state_of (discard m s) = state_of (m s).
Proof. unfold discard, bind, ret. by destruct (m s). Qed.

(** *** Member functions that allocate or write through a pointer *)

Ltac index_step_leaf :=
  intros [= <-]; unfold index_step; sred;
  repeat split;
  first
    [ by eauto
    | by left
    | by (eapply kind_step_update)
    | by (apply kind_step_leak)
    | by (apply kind_step_alloc)
    | idtac ].

Lemma declare_index_step name line dynscope sf s s' :
  state_of (SymbolTable.LookupLexDefOrDynScope name line dynscope sf s)
  = Some s' →
  index_step s s'.
Proof.
  unfold SymbolTable.LookupLexDefOrDynScope. unfold bind at 1, get.
  set (k := bind (SymbolTable.LookupWithStruct name None) _).
  assert (state_of (k s) = Some s' → index_step s s') as Hk.
  2: { destruct (SymbolTable.idents s !! name) as [p|], dynscope; try done.
       intros [= <-]. apply index_step_refl. }
  subst k. unfold bind at 1.
  destruct (SymbolTable.LookupWithStruct name None s) as [[r1 r2] s1|msg s1|]
    eqn:Hw; [| | done].
  2: { intros [= <-]. apply same_index_step.
       apply (keeps_LookupWithStruct name None). by rewrite Hw. }
  apply LookupWithStruct_state in Hw as ->.
  destruct r1 as [fld|]; simpl.
  { intros [= <-]. apply index_step_refl. }
  mred. destruct (last (SymbolTable.scopelevels s)) as [level|]; [| done].
  destruct s. sred. rewrite !lookup_snoc_new. sred. rewrite !insert_snoc_new.
  destruct (idents !! name) as [p|] eqn:Hlive.
  - destruct dynscope.
    + intros [= <-]. unfold index_step. sred.
      split; [by apply kind_step_alloc |].
      repeat split; eauto; by left.
    + destruct ((ident_heap ++ _) !! p) as [old|]; [| done].
      case_decide.
      * intros [= <-]. unfold index_step. sred.
        split; [by apply kind_step_leak |].
        repeat split; eauto; by left.
      * sred. rewrite lookup_snoc_new. sred. rewrite insert_snoc_new.
        intros [= <-]. unfold index_step. sred.
        split; [by apply kind_step_alloc |].
        repeat split; eauto; by left.
  - intros [= <-]. unfold index_step. sred.
    split; [by apply kind_step_alloc |].
    repeat split; eauto; by left.
Qed.

Lemma StructDecl_index_step name s s' :
  state_of (SymbolTable.StructDecl name s) = Some s' → index_step s s'.
Proof.
  unfold SymbolTable.StructDecl, SymbolTable.structs_subscript. mred.
  destruct s. sred.
  destruct (structs !! name) as [[p|]|]; simpl; sred.
  - intros [= <-]. apply index_step_refl.
  - intros [= <-]. unfold index_step. sred.
    split; [apply kind_step_refl |]. split; [by apply kind_step_alloc |].
    split; apply kind_step_refl.
  - intros [= <-]. unfold index_step. sred.
    split; [apply kind_step_refl |]. split; [by apply kind_step_alloc |].
    split; apply kind_step_refl.
Qed.

Lemma FieldDecl_index_step name idx st s s' :
  state_of (SymbolTable.FieldDecl name idx st s) = Some s' → index_step s s'.
Proof.
  unfold SymbolTable.FieldDecl. mred. destruct s. sred.
  destruct (fields !! name) as [fld|]; sred.
  - destruct (struct_heap !! st) as [x|]; [| done].
    destruct (field_heap !! fld) as [f|] eqn:Hfld; [| done].
    intros [= <-]. unfold index_step. sred.
    split; [apply kind_step_refl |]. split; [apply kind_step_refl |].
    split; [| apply kind_step_refl].
    by eapply kind_step_update.
  - destruct (struct_heap !! st) as [x|]; [| done].
    rewrite lookup_snoc_new. sred. rewrite insert_snoc_new.
    intros [= <-]. unfold index_step. sred.
    split; [apply kind_step_refl |]. split; [apply kind_step_refl |].
    split; [| apply kind_step_refl].
    by apply kind_step_alloc.
Qed.

Lemma FunctionDecl_index_step name nargs s s' :
  state_of (SymbolTable.FunctionDecl name nargs s) = Some s' →
  index_step s s'.
Proof.
  unfold SymbolTable.FunctionDecl. unfold bind at 1, get.
  destruct (SymbolTable.functions s !! name) as [hd|] eqn:Hname.
  - unfold bind at 1. unfold bind at 1. unfold SymbolTable.function_at at 1.
    destruct (SymbolTable.function_heap s !! hd) as [x|] eqn:Hhd; [| done].
    simpl. unfold bind at 1.
    case_decide.
    { intros [= <-]. apply index_step_refl. }
    unfold ret at 1.
    destruct (SymbolTable.FunctionDecl_loop _ (Some hd) nargs s)
      as [r s1|msg s1|] eqn:Hloop; [| | done].
    2: { intros [= <-]. apply same_index_step.
         eapply keeps_FunctionDecl_loop. by rewrite Hloop. }
    assert (s1 = s) as ->.
    { eapply FunctionDecl_loop_state. by rewrite Hloop. }
    destruct r as [f|].
    { intros [= <-]. apply index_step_refl. }
    mred. destruct s. sred_in Hhd. sred.
    rewrite (lookup_snoc_old _ _ _ _ Hhd). rewrite lookup_snoc_new. sred.
    rewrite insert_snoc_new. rewrite (lookup_snoc_old _ _ _ _ Hhd).
    intros [= <-]. unfold index_step. sred.
    split; [apply kind_step_refl |]. split; [apply kind_step_refl |].
    split; [apply kind_step_refl |].
    eapply kind_step_trans;
      [| eapply kind_step_update; [by apply lookup_snoc_old | done]].
    by apply kind_step_alloc.
  - mred. destruct s. sred.
    intros [= <-]. unfold index_step. sred.
    split; [apply kind_step_refl |]. split; [apply kind_step_refl |].
    split; [apply kind_step_refl |].
    by apply kind_step_alloc.
Qed.

Lemma update_ident_index_step p f s s' :
  (∀ i, Ident.idx (f i) = Ident.idx i) →
  state_of (SymbolTable.update_ident p f s) = Some s' → index_step s s'.
Proof.
  intros Hf. mred. destruct s. sred.
  destruct (ident_heap !! p) as [i|] eqn:Hp; [| done].
  intros [= <-]. unfold index_step. sred.
  split; [by eapply kind_step_update |].
  repeat split; eauto; by left.
Qed.

Lemma update_struct_index_step p f s s' :
  (∀ x, Struct.idx (f x) = Struct.idx x) →
  state_of (SymbolTable.update_struct p f s) = Some s' → index_step s s'.
Proof.
  intros Hf. mred. destruct s. sred.
  destruct (struct_heap !! p) as [x|] eqn:Hp; [| done].
  intros [= <-]. unfold index_step. sred.
  split; [apply kind_step_refl |].
  split; [by eapply kind_step_update |].
  split; apply kind_step_refl.
Qed.

Lemma Assign_index_step p s s' :
  state_of (SymbolTable.on_ident p Ident.Assign s) = Some s' →
  index_step s s'.
Proof.
  unfold SymbolTable.on_ident. destruct s. sred.
  destruct (ident_heap !! p) as [i|] eqn:Hp; [| done].
  unfold Ident.Assign. mred. simpl.
  destruct (Ident.constant i); intros [= <-]; unfold index_step; sred;
    (split; [by eapply kind_step_update |]);
    repeat split; eauto; by left.
Qed.

(** Every call makes an index step. *)
Lemma exec_index_step o s s' :
  state_of (exec o s) = Some s' → index_step s s'.
Proof.
  destruct o; simpl; rewrite ?state_of_discard.
  - apply declare_index_step.
  - intros H. by apply same_index_step, (keeps_AddWithStruct ty id).
  - intros H. by apply same_index_step, keeps_ScopeStart.
  - intros H. by apply same_index_step, keeps_ScopeCleanup.
  - intros H. by apply same_index_step, (keeps_UnregisterStruct st).
  - intros H. by apply same_index_step, (keeps_UnregisterFun f).
  - intros H. by apply same_index_step, keeps_EndOfInclude.
  - apply StructDecl_index_step.
  - intros H. by apply same_index_step, (keeps_StructUse name).
  - apply FieldDecl_index_step.
  - apply FunctionDecl_index_step.
  - apply Assign_index_step.
  - by apply update_ident_index_step.
  - by apply update_ident_index_step.
  - by apply update_struct_index_step.
Qed.

Lemma tables_grow_bounded s s' :
  tables_grow s s' → tables_bounded s' → tables_bounded s.
Proof.
  intros (G1 & G2 & G3 & G4) (B1 & B2 & B3 & B4).
  apply prefix_length in G1, G2, G3, G4. unfold tables_bounded. lia.
Qed.

Lemma idx_inv_new : idx_inv SymbolTable.new.
Proof. repeat split; intros i p Hi; simpl in Hi; by rewrite lookup_nil in Hi. Qed.

(** The invariant holds in every state a client can reach in which the
    sizes of the index tables are values of [int]. *)
Lemma reachable_idx_inv s : reachable s → tables_bounded s → idx_inv s.
Proof.
  induction 1 as [|o s s' Hs IH Hexec]; intros Hbound; [apply idx_inv_new |].
  assert (index_step s s') as Hstep.
  { apply (exec_index_step o). by rewrite Hexec. }
  eapply index_step_inv; [done | |].
  - eapply tables_grow_bounded; [by apply index_step_grow | done].
  - apply IH. eapply tables_grow_bounded; [by apply index_step_grow | done].
Qed.

Lemma reachable_run os s s' :
  reachable s → run os s = Ret tt s' → reachable s'.
Proof.
  revert s. induction os as [|o os IH]; intros s Hs; simpl.
  - by intros [= <-].
  - unfold bind. destruct (exec o s) as [[] s1| |] eqn:Hexec; [| done..].
    apply IH. by eapply reachable_step.
Qed.

(** ** Privacy pruning *)

Lemma prune_visited_lookup h its m k p :
  prune_visited h its m !! k = Some p
  ↔ m !! k = Some p ∧ ∀ p', (k, p') ∈ its → is_private h p' = false.
Proof.
  revert m. induction its as [|[k0 p0] its IH]; intros m.
  - split; [| by intros [? _]]. intros Hm. split; [done |].
    by intros p' ?%elem_of_nil.
  - unfold prune_visited in *. simpl. rewrite IH. clear IH.
    destruct (is_private h p0) eqn:Hp0.
    + rewrite lookup_delete_Some. split.
      * intros [[Hne Hm] Hits]. split; [done |].
        intros p' [[= -> ->]|Hin]%elem_of_cons; [done | by apply Hits].
      * intros [Hm Hits]. split; [split; [| done] |].
        -- intros ->. specialize (Hits p0 ltac:(by left)). congruence.
        -- intros p' Hin. apply Hits. by right.
    + split.
      * intros [Hm Hits]. split; [done |].
        intros p' [[= -> ->]|Hin]%elem_of_cons; [done | by apply Hits].
      * intros [Hm Hits]. split; [done |].
        intros p' Hin. apply Hits. by right.
Qed.

(** Visiting all the bindings leaves those that are not private. *)
Lemma prune_visited_all h m :
  prune_visited h (map_to_list m) m = prune h m.
Proof.
  apply map_eq. intros k. apply option_eq. intros p.
  rewrite prune_visited_lookup. unfold prune.
  rewrite map_lookup_filter_Some. simpl. split.
  - intros [Hm Hall]. split; [done |]. apply Hall.
    by apply elem_of_map_to_list.
  - intros [Hm Hp]. split; [done |].
    intros p' Hin%elem_of_map_to_list. congruence.
Qed.

Lemma EndOfInclude_loop_returns h its :
  ∀ s,
    SymbolTable.ident_heap s = h →
    Forall (λ it, is_Some (h !! it.2)
                  ∧ (is_private h it.2 = true → shadows h it.2 = false))
      its →
    SymbolTable.EndOfInclude_loop its s
    = Ret tt (SymbolTable.set_idents (prune_visited h its) s).
Proof.
  induction its as [|[k p] its IH]; intros s Hh Hits.
  - by destruct s.
  - inversion Hits as [|? ? [[i Hi] Hpriv] Hrest]; subst. simpl in *.
    unfold is_private, shadows in Hpriv. rewrite Hi in Hpriv.
    mred. rewrite Hi.
    destruct (Ident.isprivate i) eqn:Hp.
    + rewrite Hpriv by done.
      rewrite IH; [| by destruct s | by destruct s].
      unfold prune_visited, is_private. simpl. rewrite Hi, Hp.
      by destruct s.
    + rewrite IH; [| done | done].
      unfold prune_visited, is_private. simpl. by rewrite Hi, Hp.
Qed.

Lemma EndOfInclude_loop_aborts h its :
  ∀ s,
    SymbolTable.ident_heap s = h →
    Forall (λ it, is_Some (h !! it.2)) its →
    Exists (λ it, is_private h it.2 = true ∧ shadows h it.2 = true) its →
    SymbolTable.EndOfInclude_loop its s = Abort.
Proof.
  induction its as [|[k p] its IH]; intros s Hh Hits Hex.
  - by apply Exists_nil in Hex.
  - inversion Hits as [|? ? [i Hi] Hrest]; subst. simpl in *.
    mred. rewrite Hi.
    apply Exists_cons in Hex as [[Hp Hs]|Hex].
    + unfold is_private, shadows in Hp, Hs. simpl in Hp, Hs.
      rewrite Hi in Hp, Hs. by rewrite Hp, Hs.
    + destruct (Ident.isprivate i); [destruct (nonnull (Ident.prev i)) |];
        try done; apply IH; try done; by destruct s.
Qed.

(** X1: in a table whose live bindings are identifiers of the arena,
    [EndOfInclude] returns exactly when no live binding is both private and
    a shadow, and then it has removed the private live bindings and nothing
    else; when some private live binding has a [prev], the assertion
    fails. *)
Theorem EndOfInclude_prunes_unless_private_shadow (s : SymbolTable.t) :
  bindings_ok s →
  (private_unshadowed s →
   SymbolTable.EndOfInclude s
   = Ret tt (SymbolTable.set_idents (prune (SymbolTable.ident_heap s)) s))
  ∧ (¬ private_unshadowed s → SymbolTable.EndOfInclude s = Abort).
Proof.
  intros Hok.
  assert (SymbolTable.EndOfInclude s
          = SymbolTable.EndOfInclude_loop
              (map_to_list (SymbolTable.idents s)) s) as -> by reflexivity.
  apply map_Forall_to_list in Hok. split.
  - intros Hpriv. apply map_Forall_to_list in Hpriv.
    rewrite (EndOfInclude_loop_returns (SymbolTable.ident_heap s));
      [| done |].
    + f_equal. destruct s. sred. by rewrite prune_visited_all.
    + apply Forall_forall. intros [k p] Hin.
      rewrite Forall_forall in Hok, Hpriv.
      split; [apply (Hok _ Hin) | apply (Hpriv _ Hin)].
  - intros Hpriv.
    apply (EndOfInclude_loop_aborts (SymbolTable.ident_heap s)); [done | |].
    + eapply Forall_impl; [exact Hok |]. by intros [k p].
    + destruct (decide
                  (Exists
                     (λ it : string * nat,
                        is_private (SymbolTable.ident_heap s) it.2 = true
                        ∧ shadows (SymbolTable.ident_heap s) it.2 = true)
                     (map_to_list (SymbolTable.idents s)))) as [|Hn];
        [done |].
      exfalso. apply Hpriv. apply map_Forall_to_list.
      apply Forall_forall. intros [k p] Hin Hp. simpl in *.
      destruct (shadows (SymbolTable.ident_heap s) p) eqn:Hs; [| done].
      exfalso. apply Hn. apply Exists_exists. by exists (k, p).
Qed.

Lemma EndOfInclude_prunes_unless_private_shadow_witness :
  bindings_ok table_private_a
  ∧ private_unshadowed table_private_a
  ∧ (∃ s', SymbolTable.EndOfInclude table_private_a = Ret tt s'
           ∧ SymbolTable.LookupLexMaybe "a" s' = None
           ∧ SymbolTable.LookupLexMaybe "b" s' = Some 1)
  ∧ bindings_ok table_private_shadow
  ∧ ¬ private_unshadowed table_private_shadow
  ∧ SymbolTable.EndOfInclude table_private_shadow = Abort.
Proof.
  assert (bindings_ok table_private_a) as Hok.
  { apply (@bool_decide_unpack _ (bindings_ok_dec _)).
    vm_compute. reflexivity. }
  assert (private_unshadowed table_private_a) as Hpriv.
  { apply (@bool_decide_unpack _ (private_unshadowed_dec _)).
    vm_compute. reflexivity. }
  assert (bindings_ok table_private_shadow) as Hok'.
  { apply (@bool_decide_unpack _ (bindings_ok_dec _)).
    vm_compute. reflexivity. }
  assert (¬ private_unshadowed table_private_shadow) as Hpriv'.
  { apply (@bool_decide_eq_false_1 _ (private_unshadowed_dec _)).
    vm_compute. reflexivity. }
  split; [exact Hok |]. split; [exact Hpriv |].
  split.
  - eexists. split.
    + apply (EndOfInclude_prunes_unless_private_shadow table_private_a Hok).
      exact Hpriv.
    + split; vm_compute; reflexivity.
  - split; [exact Hok' |]. split; [exact Hpriv' |].
    apply (EndOfInclude_prunes_unless_private_shadow table_private_shadow
             Hok').
    exact Hpriv'.
Defined.

(** Nothing in the table keeps a client from flagging a shadowing
    identifier private: with calls that all return it reaches a state in
    which the live binding of [x] is private and has a shadowed predecessor,
    and there the assertion of [EndOfInclude] fails. *)
Lemma private_shadow_is_reachable :
  reachable table_private_shadow
  ∧ (∃ i, SymbolTable.idents table_private_shadow !! "x" = Some 1
          ∧ SymbolTable.ident_heap table_private_shadow !! 1 = Some i
          ∧ Ident.isprivate i = true
          ∧ Ident.prev i = Some 0)
  ∧ SymbolTable.EndOfInclude table_private_shadow = Abort.
Proof.
  split.
  - apply (reachable_run calls_private_shadow SymbolTable.new);
      [apply reachable_new |]. vm_compute. reflexivity.
  - split; [| vm_compute; reflexivity].
    exists (Ident.set_isprivate true
              (Ident.set_prev (Some 0) (Ident.new "x" 2 1 1))).
    repeat split; vm_compute; reflexivity.
Qed.

(** ** [Serialize] *)

Section SerializeProperties.

Context {Serializer : Type}.
Variable rbuf : Serializer → bool.
Variable ser_string : Serializer → string → Serializer * string.
Variable ser_bool : Serializer → bool → Serializer * bool.
Variable ser_idents :
  Serializer → list Ident.t * list nat → Serializer * (list Ident.t * list nat).
Variable ser_functions :
  Serializer → list Function.t * list nat
  → Serializer * (list Function.t * list nat).
Variable ser_structs :
  Serializer → list Struct.t * list nat
  → Serializer * (list Struct.t * list nat).
Variable ser_fields :
  Serializer → list SharedField.t * list nat
  → Serializer * (list SharedField.t * list nat).
Variable ser_ints : Serializer → list Z → Serializer * list Z.
Variable ser_strings : Serializer → list string → Serializer * list string.
Variable ser_lineinfos :
  Serializer → list LineInfo.t → Serializer * list LineInfo.t.
Variable curvers : string.

(** X2: when the serializer reads and the version string it delivers is not
    that of the running compiler, [Serialize] throws, and at that point
    only the version string has been transferred: the table, the code and
    the line numbers are what they were. *)
Theorem Serialize_rejects_other_version (im : image Serializer) :
  rbuf (ser_string (ser im) curvers).1 = true →
  (ser_string (ser im) curvers).2 ≠ curvers →
  Serialize Serializer rbuf ser_string ser_bool ser_idents ser_functions
    ser_structs ser_fields ser_ints ser_strings ser_lineinfos curvers im
  = Throw "cannot load bytecode from a different version of the compiler"
      (mkImage (ser_string (ser im) curvers).1 (table im) (code im)
         (linenumbers im)).
Proof.
  intros Hread Hvers. unfold Serialize.
  destruct (ser_string (ser im) curvers) as [ser1 vers]. simpl in *.
  rewrite Hread. apply String.eqb_neq in Hvers. by rewrite Hvers.
Qed.

End SerializeProperties.

Lemma Serialize_rejects_other_version_witness :
  Serialize_list_reader true stale_cache
  = Throw "cannot load bytecode from a different version of the compiler"
      (mkImage ["rest"] table_x [1; 2]%Z []).
Proof.
  apply (Serialize_rejects_other_version (λ _, true) list_reader_string
           list_reader_other list_reader_other list_reader_other
           list_reader_other list_reader_other list_reader_other
           list_reader_other list_reader_other "Oct 30 2026" stale_cache).
  - reflexivity.
  - simpl. discriminate.
Defined.

(** The same reader accepts a cache of this build, and a writer does not
    look at the version at all. *)
Lemma Serialize_list_reader_examples :
  (∃ im', Serialize_list_reader true fresh_cache = Ret tt im')
  ∧ (∃ im', Serialize_list_reader false stale_cache = Ret tt im').
Proof. split; eexists; reflexivity. Qed.

(** ** [AddWithStruct] *)

Lemma AddWithStruct_loop_spec ws ty s :
  SymbolTable.AddWithStruct_loop ws ty s
  = if decide (ty_idx ty ∈ (λ wp : Type_ * option nat, ty_idx wp.1) <$> ws)
    then Throw "type used twice in the same scope with ::" s
    else Ret tt s.
Proof.
  induction ws as [|wp ws IH].
  - reflexivity.
  - cbn [SymbolTable.AddWithStruct_loop]. mred. rewrite fmap_cons.
    destruct (decide (ty_idx wp.1 = ty_idx ty)) as [Heq|Hne].
    + rewrite decide_True; [done |]. rewrite Heq. by left.
    + rewrite IH. destruct (decide (ty_idx ty ∈ _ <$> ws)) as [Hin|Hnin].
      * rewrite decide_True; [done |]. by right.
      * rewrite decide_False; [done |].
        intros [?|?]%elem_of_cons; [congruence | done].
Qed.

(** X4: [AddWithStruct] compares the index of the type with every entry of
    the with-stack, those of the enclosing scopes included: if one has it,
    the error is "type used twice in the same scope with ::" and the table
    is unchanged; otherwise the pair is pushed, unless the index is
    negative, which fails the assertion. *)
Theorem AddWithStruct_checks_whole_stack (s : SymbolTable.t) (ty : Type_)
    (id : option nat) :
  SymbolTable.AddWithStruct ty id s
  = if decide (ty_idx ty
               ∈ (λ wp : Type_ * option nat, ty_idx wp.1)
                   <$> SymbolTable.withstack s)
    then Throw "type used twice in the same scope with ::" s
    else if decide (0 ≤ ty_idx ty)%Z
         then Ret tt (SymbolTable.set_withstack (push_back (ty, id)) s)
         else Abort.
Proof.
  unfold SymbolTable.AddWithStruct. unfold bind at 1, get. unfold bind at 1.
  rewrite AddWithStruct_loop_spec.
  destruct (decide (ty_idx ty ∈ _)); [done |].
  mred. by destruct (decide (0 ≤ ty_idx ty)%Z).
Qed.

(** ** Record types *)

Lemma StructDecl_Ret_inv s name p s' :
  SymbolTable.StructDecl name s = Ret p s' →
  p = length (SymbolTable.struct_heap s)
  ∧ (SymbolTable.structs s !! name = None
     ∨ SymbolTable.structs s !! name = Some None)
  ∧ s' = SymbolTable.set_structtable (λ l, l ++ [p])
           (SymbolTable.set_structs <[name := Some p]>
              (SymbolTable.set_struct_heap
                 (λ h, h ++ [Struct.new name
                               (Int.of_size
                                  (length (SymbolTable.structtable s)))])
                 s)).
Proof.
  unfold SymbolTable.StructDecl, SymbolTable.structs_subscript. mred.
  destruct s. sred.
  destruct (structs !! name) as [[q|]|]; simpl; sred; [done | |];
    intros [= <- <-]; (split; [done |]); (split; [eauto |]); [done |].
  by rewrite insert_insert_eq.
Qed.

(** X5: once [StructDecl] has returned a record type for a name,
    [StructUse] of that name returns this record type and changes nothing,
    and a second [StructDecl] of the name is the error "double declaration
    of type"; the record type is a new object of the arena, named as
    declared. *)
Theorem StructDecl_then_use (s s' : SymbolTable.t) (name : string) (p : nat) :
  SymbolTable.StructDecl name s = Ret p s' →
  SymbolTable.StructUse name s' = Ret p s'
  ∧ SymbolTable.StructDecl name s'
    = Throw ("double declaration of type: " +:+ name) s'
  ∧ SymbolTable.struct_heap s !! p = None
  ∧ (∃ x, SymbolTable.struct_heap s' !! p = Some x ∧ Struct.name x = name
          ∧ Struct.fields x = []).
Proof.
  intros (-> & _ & ->)%StructDecl_Ret_inv.
  unfold SymbolTable.StructUse, SymbolTable.StructDecl,
    SymbolTable.structs_subscript.
  mred. destruct s. sred. rewrite !lookup_insert_eq. simpl.
  split; [done |]. split; [done |].
  split; [by apply lookup_ge_None |].
  eexists. split; [apply lookup_snoc_new | done].
Qed.

Lemma StructDecl_then_use_witness :
  SymbolTable.StructDecl "T" table_with_x_field = Ret 1 table_with_T
  ∧ SymbolTable.StructUse "T" table_with_T = Ret 1 table_with_T
  ∧ SymbolTable.StructDecl "T" table_with_T
    = Throw "double declaration of type: T" table_with_T
  ∧ SymbolTable.struct_heap table_with_x_field !! 1 = None
  ∧ (∃ x, SymbolTable.struct_heap table_with_T !! 1 = Some x
          ∧ Struct.name x = "T" ∧ Struct.fields x = []).
Proof.
  assert (SymbolTable.StructDecl "T" table_with_x_field
          = Ret 1 table_with_T) as Hdecl.
  { vm_compute. reflexivity. }
  split; [exact Hdecl |].
  exact (StructDecl_then_use table_with_x_field table_with_T "T" 1 Hdecl).
Defined.

(** X6: [StructUse] of a name that has no record type is the error "unknown
    type"; the null entry that the subscript has then entered in the map
    does not count as a declaration: [StructUse] fails again, and
    [StructDecl] of the name returns. *)
Theorem StructUse_unknown_leaves_name_free (s : SymbolTable.t)
    (name : string) :
  SymbolTable.structs s !! name = None →
  ∃ s',
    SymbolTable.StructUse name s = Throw ("unknown type: " +:+ name) s'
    ∧ SymbolTable.structs s' !! name = Some None
    ∧ SymbolTable.StructUse name s' = Throw ("unknown type: " +:+ name) s'
    ∧ ∃ p s'', SymbolTable.StructDecl name s' = Ret p s''
               ∧ SymbolTable.StructUse name s'' = Ret p s''.
Proof.
  intros Hnone. exists (SymbolTable.set_structs <[name := None]> s).
  unfold SymbolTable.StructUse, SymbolTable.StructDecl,
    SymbolTable.structs_subscript.
  mred. destruct s. sred. sred_in Hnone.
  rewrite Hnone, !lookup_insert_eq. simpl. sred.
  split; [done |]. split; [done |]. split; [done |].
  eexists _, _. split; [reflexivity |]. sred. by rewrite lookup_insert_eq.
Qed.

Lemma StructUse_unknown_leaves_name_free_witness :
  ∃ s',
    SymbolTable.StructUse "T" table_with_x_field = Throw "unknown type: T" s'
    ∧ SymbolTable.structs s' !! "T" = Some None
    ∧ SymbolTable.StructUse "T" s' = Throw "unknown type: T" s'
    ∧ ∃ p s'', SymbolTable.StructDecl "T" s' = Ret p s''
               ∧ SymbolTable.StructUse "T" s'' = Ret p s''.
Proof.
  apply (StructUse_unknown_leaves_name_free table_with_x_field "T").
  vm_compute. reflexivity.
Defined.

(** ** Shared fields *)

(** X7: when [FieldDecl] returns, [FieldUse] of the name gives the shared
    field it returned; this is the shared field the name had before, if it
    had one, and a new object otherwise; and the last entry of its log of
    offsets is the pair of the [idx] of the record type and the offset, both
    narrowed to [short]. *)
Theorem FieldDecl_then_FieldUse (s s' : SymbolTable.t) (name : string)
    (idx : Z) (st fld : nat) :
  SymbolTable.FieldDecl name idx st s = Ret fld s' →
  SymbolTable.FieldUse name s' = Some fld
  ∧ match SymbolTable.FieldUse name s with
    | Some fld0 => fld = fld0
    | None => SymbolTable.field_heap s !! fld = None
    end
  ∧ ∃ x f,
      SymbolTable.struct_heap s !! st = Some x
      ∧ SymbolTable.field_heap s' !! fld = Some f
      ∧ last (SharedField.offsets f) = Some (FieldOffset.new (Struct.idx x) idx).
Proof.
  unfold SymbolTable.FieldDecl, SymbolTable.FieldUse. mred. destruct s. sred.
  destruct (fields !! name) as [fld0|] eqn:Hname; sred.
  - destruct (struct_heap !! st) as [x|]; [| done].
    destruct (field_heap !! fld0) as [f|] eqn:Hfld; [| done].
    intros [= <- <-]. sred. split; [done |]. split; [done |].
    exists x, (SharedField.NewFieldUse (FieldOffset.new (Struct.idx x) idx) f).
    split; [done |]. split.
    + apply list_lookup_insert_eq. by eapply lookup_lt_Some.
    + simpl. apply last_snoc.
  - destruct (struct_heap !! st) as [x|]; [| done].
    rewrite lookup_snoc_new. sred. rewrite insert_snoc_new.
    intros [= <- <-]. sred. split; [apply lookup_insert_eq |].
    split; [by apply lookup_ge_None |].
    eexists x, _. split; [done |]. split; [apply lookup_snoc_new |].
    reflexivity.
Qed.

Lemma FieldDecl_then_FieldUse_witness :
  SymbolTable.FieldDecl "x" 3 0 table_with_x_field = Ret 0 table_with_x_twice
  ∧ SymbolTable.FieldUse "x" table_with_x_twice = Some 0
  ∧ match SymbolTable.FieldUse "x" table_with_x_field with
    | Some fld0 => 0 = fld0
    | None => SymbolTable.field_heap table_with_x_field !! 0 = None
    end
  ∧ ∃ x f,
      SymbolTable.struct_heap table_with_x_field !! 0 = Some x
      ∧ SymbolTable.field_heap table_with_x_twice !! 0 = Some f
      ∧ last (SharedField.offsets f) = Some (FieldOffset.new (Struct.idx x) 3).
Proof.
  assert (SymbolTable.FieldDecl "x" 3 0 table_with_x_field
          = Ret 0 table_with_x_twice) as Hdecl.
  { vm_compute. reflexivity. }
  split; [exact Hdecl |].
  exact (FieldDecl_then_FieldUse table_with_x_field table_with_x_twice "x" 3
           0 0 Hdecl).
Defined.

(** ** Declaring and unregistering functions *)

(** What [FunctionDecl] does when it returns: the function existed, and the
    table is unchanged; or the name was new, and the function is the head of
    its chain; or the function is new and linked behind the head [hd]. *)
Lemma FunctionDecl_Ret_inv s name nargs f s' :
  SymbolTable.FunctionDecl name nargs s = Ret f s' →
  let new := Function.new name
               (Int.of_size (length (SymbolTable.functiontable s))) nargs
               (Int.of_size (length (SymbolTable.scopelevels s))) in
  (∃ hd x,
     SymbolTable.functions s !! name = Some hd
     ∧ SymbolTable.function_heap s !! hd = Some x
     ∧ Function.scopelevel x
       = Int.of_size (length (SymbolTable.scopelevels s))
     ∧ SymbolTable.FunctionDecl_loop
         (length (SymbolTable.function_heap s)) (Some hd) nargs s
       = Ret (Some f) s
     ∧ s' = s)
  ∨ (SymbolTable.functions s !! name = None
     ∧ f = length (SymbolTable.function_heap s)
     ∧ s' = SymbolTable.set_functions <[name := f]>
              (SymbolTable.set_functiontable (λ l, l ++ [f])
                 (SymbolTable.set_function_heap (λ h, h ++ [new]) s)))
  ∨ (∃ hd x,
       SymbolTable.functions s !! name = Some hd
       ∧ SymbolTable.function_heap s !! hd = Some x
       ∧ Function.scopelevel x
         = Int.of_size (length (SymbolTable.scopelevels s))
       ∧ Function.nargs x ≠ nargs
       ∧ f = length (SymbolTable.function_heap s)
       ∧ s' = SymbolTable.set_functiontable (λ l, l ++ [f])
                (SymbolTable.set_function_heap
                   (λ h, <[hd := Function.set_sibf (Some f) x]>
                           (h ++ [Function.set_sibf (Function.sibf x) new]))
                   s)).
Proof.
  intros Hdecl new. revert Hdecl.
  unfold SymbolTable.FunctionDecl. unfold bind at 1, get.
  destruct (SymbolTable.functions s !! name) as [hd|] eqn:Hname.
  - unfold bind at 1. unfold bind at 1. unfold SymbolTable.function_at at 1.
    destruct (SymbolTable.function_heap s !! hd) as [x|] eqn:Hhd; [| done].
    simpl. unfold bind at 1.
    case_decide as Hlevel; [done |].
    unfold ret at 1.
    destruct (SymbolTable.FunctionDecl_loop _ (Some hd) nargs s)
      as [r s1|msg s1|] eqn:Hloop; [| done..].
    assert (s1 = s) as ->.
    { eapply FunctionDecl_loop_state. by rewrite Hloop. }
    destruct r as [f0|].
    { intros [= <- <-]. left. by exists hd, x. }
    assert (Function.nargs x ≠ nargs) as Hnargs.
    { assert (hd < length (SymbolTable.function_heap s)) as Hlt
        by (by eapply lookup_lt_Some).
      destruct (length (SymbolTable.function_heap s)) as [|n]; [lia |].
      revert Hloop. simpl. mred. rewrite Hhd. by case_decide. }
    intros Hdecl. right. right. exists hd, x.
    split; [done |]. split; [done |]. split; [done |]. split; [done |].
    revert Hdecl. subst new. mred. destruct s. sred_in Hhd. sred.
    rewrite (lookup_snoc_old _ _ _ _ Hhd). rewrite lookup_snoc_new. sred.
    rewrite insert_snoc_new. rewrite (lookup_snoc_old _ _ _ _ Hhd).
    by intros [= <- <-].
  - intros Hdecl. right. left. split; [done |].
    revert Hdecl. subst new. mred. destruct s. sred.
    by intros [= <- <-].
Qed.

(** X8: function declaration is idempotent per name and arity: when
    [FunctionDecl] has returned a function, declaring the same name with
    the same number of arguments again returns the same function and
    changes nothing. *)
Theorem FunctionDecl_idempotent (s s' : SymbolTable.t) (name : string)
    (nargs : Z) (f : nat) :
  SymbolTable.FunctionDecl name nargs s = Ret f s' →
  SymbolTable.FunctionDecl name nargs s' = Ret f s'.
Proof.
  intros Hdecl.
  destruct (FunctionDecl_Ret_inv _ _ _ _ _ Hdecl)
    as [(hd & x & Hname & Hhd & Hlevel & Hloop & ->)
       |[(Hname & -> & ->)
        |(hd & x & Hname & Hhd & Hlevel & Hnargs & -> & ->)]].
  - done.
  - clear Hdecl. unfold SymbolTable.FunctionDecl. mred. destruct s. sred.
    rewrite lookup_insert_eq. sred. rewrite lookup_snoc_new. simpl.
    rewrite decide_False by (by intros Hne; apply Hne).
    rewrite length_app, Nat.add_comm. simpl. mred. sred.
    rewrite lookup_snoc_new. simpl. by rewrite decide_True.
  - clear Hdecl.
    assert (hd < length (SymbolTable.function_heap s)) as Hlt
      by (by eapply lookup_lt_Some).
    unfold SymbolTable.FunctionDecl. mred. destruct s.
    sred_in Hname. sred_in Hhd. sred_in Hlevel. sred_in Hlt. sred.
    rewrite Hname. sred.
    rewrite list_lookup_insert_eq by (rewrite length_app; lia). simpl.
    rewrite decide_False by (by intros Hne; apply Hne).
    rewrite length_insert, length_app, Nat.add_comm. simpl. mred. sred.
    rewrite list_lookup_insert_eq by (rewrite length_app; lia). simpl.
    rewrite decide_False by done.
    destruct (length function_heap) as [|n] eqn:Hn; [lia |].
    simpl. mred. sred. rewrite <- Hn.
    rewrite list_lookup_insert_ne by lia. rewrite lookup_snoc_new. simpl.
    by rewrite decide_True.
Qed.

Lemma FunctionDecl_idempotent_witness :
  SymbolTable.FunctionDecl "f" 2 table_f1 = Ret 1 table_f1_f2
  ∧ SymbolTable.FunctionDecl "f" 2 table_f1_f2 = Ret 1 table_f1_f2.
Proof.
  assert (SymbolTable.FunctionDecl "f" 2 table_f1 = Ret 1 table_f1_f2)
    as Hdecl.
  { vm_compute. reflexivity. }
  split; [exact Hdecl |].
  exact (FunctionDecl_idempotent table_f1 table_f1_f2 "f" 2 1 Hdecl).
Defined.

(** X9: overloads of a function can only be declared at the scope level of
    its first declaration: once [FunctionDecl] has returned a function of
    some name, any declaration of that name one scope further in, of the
    same or of another arity, is the error "cannot define a variation of
    function ... at a different scope level", and the table is unchanged.
    The depth of the scope stack is assumed to be a value of [int]. *)
Theorem FunctionDecl_inner_scope_throws (s s' s'' : SymbolTable.t)
    (name : string) (nargs nargs' : Z) (f : nat) :
  SymbolTable.FunctionDecl name nargs s = Ret f s' →
  SymbolTable.ScopeStart s' = Ret tt s'' →
  (Z.of_nat (length (SymbolTable.scopelevels s)) < Int.INT_MAX)%Z →
  SymbolTable.FunctionDecl name nargs' s''
  = Throw ("cannot define a variation of function " +:+ name
           +:+ " at a different scope level") s''.
Proof.
  intros Hdecl Hstart Hbound.
  assert (∃ hd x,
            SymbolTable.functions s' !! name = Some hd
            ∧ SymbolTable.function_heap s' !! hd = Some x
            ∧ Function.scopelevel x
              = Int.of_size (length (SymbolTable.scopelevels s))
            ∧ SymbolTable.scopelevels s' = SymbolTable.scopelevels s)
    as (hd & x & Hname & Hhd & Hlevel & Hlevels).
  { destruct (FunctionDecl_Ret_inv _ _ _ _ _ Hdecl)
      as [(hd & x & Hname & Hhd & Hlevel & Hloop & ->)
         |[(Hname & -> & ->)
          |(hd & x & Hname & Hhd & Hlevel & Hnargs & -> & ->)]].
    - by exists hd, x.
    - destruct s. sred. eexists _, _.
      split; [apply lookup_insert_eq |].
      split; [apply lookup_snoc_new | done].
    - assert (hd < length (SymbolTable.function_heap s))
        by (by eapply lookup_lt_Some).
      destruct s. sred_in Hname. sred_in H. sred. eexists hd, _.
      split; [done |].
      split; [apply list_lookup_insert_eq; rewrite length_app; lia |].
      done. }
  rewrite ScopeStart_spec in Hstart. injection Hstart as <-.
  remember (SymbolTable.scopelevels s) as lv eqn:Hlv. clear Hlv Hdecl.
  unfold SymbolTable.FunctionDecl. mred. destruct s'.
  sred_in Hname. sred_in Hhd. sred_in Hlevels. sred.
  rewrite Hname. sred. rewrite Hhd. rewrite Hlevel, Hlevels.
  rewrite decide_True; [done |].
  rewrite length_app. simpl.
  unfold Int.INT_MAX in Hbound.
  rewrite !of_size_small by (unfold Int.INT_MAX; lia). lia.
Qed.

Lemma FunctionDecl_inner_scope_throws_witness :
  SymbolTable.FunctionDecl "f" 1 SymbolTable.new = Ret 0 table_f1
  ∧ SymbolTable.ScopeStart table_f1 = Ret tt table_f1_inner
  ∧ (Z.of_nat (length (SymbolTable.scopelevels SymbolTable.new))
     < Int.INT_MAX)%Z
  ∧ SymbolTable.FunctionDecl "f" 1 table_f1_inner
    = Throw "cannot define a variation of function f at a different scope level"
        table_f1_inner.
Proof.
  assert (SymbolTable.FunctionDecl "f" 1 SymbolTable.new = Ret 0 table_f1)
    as Hdecl.
  { vm_compute. reflexivity. }
  assert (SymbolTable.ScopeStart table_f1 = Ret tt table_f1_inner) as Hstart.
  { vm_compute. reflexivity. }
  assert (Z.of_nat (length (SymbolTable.scopelevels SymbolTable.new))
          < Int.INT_MAX)%Z as Hbound.
  { vm_compute. reflexivity. }
  split; [exact Hdecl |]. split; [exact Hstart |]. split; [exact Hbound |].
  exact (FunctionDecl_inner_scope_throws SymbolTable.new table_f1
           table_f1_inner "f" 1 1 0 Hdecl Hstart Hbound).
Defined.

(** X10: [UnregisterFun] removes the name of the function from the map,
    whichever function of that name the map points to, and nothing else:
    afterwards [FindFunction] of the name finds nothing, other names are
    found as before, the arena and the function table are unchanged, and
    unregistering the function again changes nothing. *)
Theorem UnregisterFun_removes_name (s s' : SymbolTable.t) (f : nat) :
  SymbolTable.UnregisterFun f s = Ret tt s' →
  (∃ x, SymbolTable.function_heap s !! f = Some x
        ∧ SymbolTable.FindFunction (Function.name x) s' = None
        ∧ ∀ other, other ≠ Function.name x →
                   SymbolTable.FindFunction other s'
                   = SymbolTable.FindFunction other s)
  ∧ SymbolTable.function_heap s' = SymbolTable.function_heap s
  ∧ SymbolTable.functiontable s' = SymbolTable.functiontable s
  ∧ SymbolTable.UnregisterFun f s' = Ret tt s'.
Proof.
  unfold SymbolTable.UnregisterFun, SymbolTable.FindFunction. mred.
  destruct s. sred.
  destruct (function_heap !! f) as [x|] eqn:Hf; [| done].
  intros [= <-]. sred. rewrite Hf. sred.
  split; [| split; [done | split; [done |]]].
  - exists x. split; [done |]. split; [apply lookup_delete_eq |].
    intros other Hother. by apply lookup_delete_ne.
  - by rewrite delete_delete_eq.
Qed.

Lemma UnregisterFun_removes_name_witness :
  SymbolTable.UnregisterFun 1 table_f1_f2 = Ret tt table_f_unregistered
  ∧ SymbolTable.FindFunction "f" table_f1_f2 = Some 0
  ∧ SymbolTable.FindFunction "f" table_f_unregistered = None
  ∧ SymbolTable.UnregisterFun 1 table_f_unregistered
    = Ret tt table_f_unregistered.
Proof.
  assert (SymbolTable.UnregisterFun 1 table_f1_f2
          = Ret tt table_f_unregistered) as Hun.
  { vm_compute. reflexivity. }
  split; [exact Hun |]. split; [vm_compute; reflexivity |].
  destruct (UnregisterFun_removes_name table_f1_f2 table_f_unregistered 1 Hun)
    as (_ & _ & _ & Hagain).
  split; [vm_compute; reflexivity | exact Hagain].
Defined.

(** ** Lookups in the index tables *)

(** X11: [Has] returns the first field of the record type, in declaration
    order, that refers to the shared field, and the null pointer when no
    field does. *)
Theorem Has_finds_first_field (fld : option nat) (st : Struct.t) :
  Struct.Has fld st
  = snd <$> list_find (λ uf, UniqueField.sf uf = fld) (Struct.fields st).
Proof.
  unfold Struct.Has. induction (Struct.fields st) as [|uf ufs IH]; [done |].
  simpl. case_decide; [done |]. rewrite IH.
  by destruct (list_find _ ufs) as [[i uf']|].
Qed.

Lemma StructIdx_loop_spec s name sts :
  ∀ k,
    (∀ i p, sts !! i = Some p →
            ∃ x, SymbolTable.struct_heap s !! p = Some x
                 ∧ Struct.idx x = Z.of_nat (k + i)) →
    SymbolTable.StructIdx_loop name sts s
    = Ret match list_find (λ p, struct_named s name p = true) sts with
          | Some (i, p) => (Z.of_nat (k + i), Some (struct_arity s p))
          | None => ((-1)%Z, None)
          end s.
Proof.
  induction sts as [|p sts IH]; intros k Hsts; [done |].
  destruct (Hsts 0 p eq_refl) as (x & Hp & Hidx).
  simpl. mred. rewrite Hp.
  assert (struct_named s name p = bool_decide (Struct.name x = name)) as Hsn.
  { unfold struct_named. rewrite Hp. simpl. apply bool_decide_ext.
    split; [by intros [= ?] | by intros ->]. }
  destruct (decide (Struct.name x = name)) as [Hname|Hname];
    destruct (decide (struct_named s name p = true)) as [Ht|Hf];
    rewrite Hsn in *.
  - unfold struct_arity. by rewrite Hp, Hidx.
  - by rewrite bool_decide_eq_true_2 in Hf.
  - by rewrite bool_decide_eq_false_2 in Ht.
  - clear Hf.
    rewrite (IH (S k)).
    + destruct (list_find _ sts) as [[i q]|]; [| done]. simpl.
      do 3 f_equal. lia.
    + intros i q Hq. destruct (Hsts (S i) q Hq) as (y & Hy & Hidy).
      exists y. split; [done |]. rewrite Hidy. f_equal. lia.
Qed.

(** X12: in a table that satisfies [table[e.idx] is e], [StructIdx] returns
    the position in the struct table of the first record type that has the
    name, and writes its number of fields; it returns -1 and writes nothing
    when no record type of the table has the name.  The map of live record
    types plays no part. *)
Theorem StructIdx_finds_first (s : SymbolTable.t) (name : string) :
  idx_inv s →
  SymbolTable.StructIdx name s = Ret (first_struct_named s name) s.
Proof.
  intros (_ & Hstructs & _). unfold SymbolTable.StructIdx. mred.
  rewrite (StructIdx_loop_spec s name _ 0); [done |].
  intros i p Hp. by apply Hstructs.
Qed.

Lemma StructIdx_finds_first_witness :
  idx_inv table_S_unregistered
  ∧ SymbolTable.structs table_S_unregistered !! "S" = None
  ∧ SymbolTable.StructIdx "S" table_S_unregistered
    = Ret (0%Z, Some 1) table_S_unregistered
  ∧ SymbolTable.StructIdx "T" table_S_unregistered
    = Ret ((-1)%Z, None) table_S_unregistered.
Proof.
  assert (idx_inv table_S_unregistered) as Hinv.
  { apply reachable_idx_inv.
    - apply (reachable_run (calls_with_x_field ++ [OpUnregisterStruct 0])
               SymbolTable.new); [apply reachable_new |].
      vm_compute. reflexivity.
    - repeat split; vm_compute; discriminate. }
  split; [exact Hinv |]. split; [vm_compute; reflexivity |].
  rewrite !(StructIdx_finds_first table_S_unregistered _ Hinv).
  split; vm_compute; reflexivity.
Defined.

Lemma StructIdx_loop_frame name sts s s' r :
  SymbolTable.struct_heap s' = SymbolTable.struct_heap s →
  SymbolTable.StructIdx_loop name sts s = Ret r s →
  SymbolTable.StructIdx_loop name sts s' = Ret r s'.
Proof.
  intros Hheap. induction sts as [|p sts IH]; simpl; mred.
  - by intros [= <-].
  - rewrite Hheap. destruct (SymbolTable.struct_heap s !! p) as [x|]; [| done].
    case_decide; [by intros [= <-] | apply IH].
Qed.

(** X13: [UnregisterStruct] only removes the name of the record type from
    the map: the record type stays in the arena and in the struct table,
    where [StructIdx] finds it as before.  It may be called once:
    unregistering the same record type again fails the assertion. *)
Theorem UnregisterStruct_once (s s' : SymbolTable.t) (st : nat) :
  SymbolTable.UnregisterStruct st s = Ret tt s' →
  (∃ x, SymbolTable.struct_heap s !! st = Some x
        ∧ is_Some (SymbolTable.structs s !! Struct.name x)
        ∧ SymbolTable.structs s' !! Struct.name x = None)
  ∧ SymbolTable.struct_heap s' = SymbolTable.struct_heap s
  ∧ SymbolTable.structtable s' = SymbolTable.structtable s
  ∧ (∀ name r, SymbolTable.StructIdx name s = Ret r s →
               SymbolTable.StructIdx name s' = Ret r s')
  ∧ SymbolTable.UnregisterStruct st s' = Abort.
Proof.
  unfold SymbolTable.UnregisterStruct. mred.
  destruct (SymbolTable.struct_heap s !! st) as [x|] eqn:Hst; [| done].
  destruct (SymbolTable.structs s !! Struct.name x) as [o|] eqn:Hname;
    [| done].
  simpl. intros [= <-].
  split; [| split; [by destruct s | split; [by destruct s | split]]].
  - exists x. split; [done |]. split; [by eexists |].
    destruct s. sred. apply lookup_delete_eq.
  - intros name r. unfold SymbolTable.StructIdx. mred.
    assert (SymbolTable.structtable
              (SymbolTable.set_structs (delete (Struct.name x)) s)
            = SymbolTable.structtable s) as -> by (by destruct s).
    apply StructIdx_loop_frame. by destruct s.
  - destruct s. sred. sred_in Hst. rewrite Hst.
    by rewrite lookup_delete_eq.
Qed.

Lemma UnregisterStruct_once_witness :
  SymbolTable.UnregisterStruct 0 table_with_x_field
  = Ret tt table_S_unregistered
  ∧ SymbolTable.structtable table_S_unregistered
    = SymbolTable.structtable table_with_x_field
  ∧ SymbolTable.UnregisterStruct 0 table_S_unregistered = Abort.
Proof.
  assert (SymbolTable.UnregisterStruct 0 table_with_x_field
          = Ret tt table_S_unregistered) as Hun.
  { vm_compute. reflexivity. }
  split; [exact Hun |].
  destruct (UnregisterStruct_once table_with_x_field table_S_unregistered 0
              Hun) as (_ & _ & Htable & _ & Hagain).
  split; [exact Htable | exact Hagain].
Defined.

(** X14: in a table that satisfies [table[e.idx] is e], the [idx] stored in
    an identifier of the identifier table, a record type of the struct
    table or a function of the function table is the index under which the
    reverse lookups return its name, and [ReadOnlyIdent] and [ReadOnlyType]
    its flag. *)
Theorem reverse_lookup_by_idx (s : SymbolTable.t) :
  idx_inv s →
  (∀ v p i,
     SymbolTable.identtable s !! v = Some p →
     SymbolTable.ident_heap s !! p = Some i →
     SymbolTable.ReverseLookupIdent (Z.to_nat (Ident.idx i)) s
     = Ret (Ident.name i) s
     ∧ SymbolTable.ReadOnlyIdent (Z.to_nat (Ident.idx i)) s
       = Ret (Ident.constant i) s)
  ∧ (∀ v p x,
       SymbolTable.structtable s !! v = Some p →
       SymbolTable.struct_heap s !! p = Some x →
       SymbolTable.ReverseLookupType (Z.to_nat (Struct.idx x)) s
       = Ret (Struct.name x) s
       ∧ SymbolTable.ReadOnlyType (Z.to_nat (Struct.idx x)) s
         = Ret (Struct.readonly x) s)
  ∧ (∀ v p x,
       SymbolTable.functiontable s !! v = Some p →
       SymbolTable.function_heap s !! p = Some x →
       SymbolTable.ReverseLookupFunction (Z.to_nat (Function.idx x)) s
       = Ret (Function.name x) s).
Proof.
  intros (Hids & Hsts & _ & Hfns).
  split; [| split].
  - intros v p i Hv Hp. destruct (Hids v p Hv) as (i' & Hp' & Hidx).
    rewrite Hp in Hp'. injection Hp' as <-.
    rewrite Hidx, Nat2Z.id.
    unfold SymbolTable.ReverseLookupIdent, SymbolTable.ReadOnlyIdent. mred.
    rewrite decide_True by (by eapply lookup_lt_Some).
    by rewrite Hv, Hp.
  - intros v p x Hv Hp. destruct (Hsts v p Hv) as (x' & Hp' & Hidx).
    rewrite Hp in Hp'. injection Hp' as <-.
    rewrite Hidx, Nat2Z.id.
    unfold SymbolTable.ReverseLookupType, SymbolTable.ReadOnlyType. mred.
    rewrite decide_True by (by eapply lookup_lt_Some).
    by rewrite Hv, Hp.
  - intros v p x Hv Hp. destruct (Hfns v p Hv) as (x' & Hp' & Hidx).
    rewrite Hp in Hp'. injection Hp' as <-.
    rewrite Hidx, Nat2Z.id.
    unfold SymbolTable.ReverseLookupFunction. mred.
    rewrite decide_True by (by eapply lookup_lt_Some).
    by rewrite Hv, Hp.
Qed.

Lemma reverse_lookup_by_idx_witness :
  idx_inv table_locals
  ∧ SymbolTable.ReverseLookupIdent 2 table_locals = Ret "a" table_locals
  ∧ SymbolTable.ReadOnlyIdent 2 table_locals = Ret true table_locals.
Proof.
  assert (idx_inv table_locals) as Hinv.
  { apply reachable_idx_inv.
    - apply (reachable_run
               [OpFunctionDecl "f" 0; OpFunctionDecl "g" 0; OpScopeStart;
                OpLookupLexDefOrDynScope "a" 1 false (Some 0);
                OpLookupLexDefOrDynScope "b" 2 false (Some 0);
                OpScopeCleanup; OpScopeStart;
                OpLookupLexDefOrDynScope "a" 3 false (Some 1);
                OpLookupLexDefOrDynScope "b" 4 false (Some 1);
                OpLookupLexDefOrDynScope "c" 5 false None;
                OpSetConstant 2 true;
                OpScopeCleanup; OpScopeStart;
                OpLookupLexDefOrDynScope "b" 6 false (Some 0);
                OpScopeCleanup]
               SymbolTable.new); [apply reachable_new |].
      vm_compute. reflexivity.
    - repeat split; vm_compute; discriminate. }
  split; [exact Hinv |].
  destruct (reverse_lookup_by_idx table_locals Hinv) as (Hids & _ & _).
  apply (Hids 2 2
           (Ident.set_constant true
              (Ident.set_sf (Some 1) (Ident.new "a" 3 2 0))));
    vm_compute; reflexivity.
Defined.

(** The reverse lookups and the flags are only defined below the size of
    the table: beyond it the assertion fails. *)
Lemma reverse_lookup_out_of_range (s : SymbolTable.t) (v : nat) :
  (length (SymbolTable.identtable s) ≤ v →
   SymbolTable.ReverseLookupIdent v s = Abort
   ∧ SymbolTable.ReadOnlyIdent v s = Abort)
  ∧ (length (SymbolTable.structtable s) ≤ v →
     SymbolTable.ReverseLookupType v s = Abort
     ∧ SymbolTable.ReadOnlyType v s = Abort)
  ∧ (length (SymbolTable.functiontable s) ≤ v →
     SymbolTable.ReverseLookupFunction v s = Abort).
Proof.
  unfold SymbolTable.ReverseLookupIdent, SymbolTable.ReadOnlyIdent,
    SymbolTable.ReverseLookupType, SymbolTable.ReadOnlyType,
    SymbolTable.ReverseLookupFunction.
  mred. split; [| split]; intros Hv; try split;
    rewrite decide_False by lia; done.
Qed.

(** *** [LookupIdentInFun] *)

Lemma LookupIdentInFun_test_state subfunctions idname fname p s b s' :
  SymbolTable.LookupIdentInFun_test subfunctions idname fname p s = Ret b s' →
  s' = s.
Proof.
  unfold SymbolTable.LookupIdentInFun_test. mred.
  destruct (SymbolTable.ident_heap s !! p) as [i|]; [| done].
  case_decide; [| by intros [= _ <-]].
  destruct (Ident.sf i) as [sf|]; [| by intros [= _ <-]].
  destruct (subfunctions !! sf) as [x|]; [| done].
  destruct (SubFunction.parent x) as [f|]; [| done].
  destruct (SymbolTable.function_heap s !! f) as [y|]; [| done].
  by intros [= _ <-].
Qed.

Lemma LookupIdentInFun_loop_spec s subfunctions idname fname ids :
  Forall
    (λ p, ∃ b, SymbolTable.LookupIdentInFun_test subfunctions idname fname p s
               = Ret b s) ids →
  (∀ q, SymbolTable.LookupIdentInFun_loop subfunctions idname fname ids
          (Some q) s
        = Ret match filter
                      (λ p, ident_in_fun s subfunctions idname fname p = true)
                      ids with
              | [] => Some q
              | _ :: _ => None
              end s)
  ∧ SymbolTable.LookupIdentInFun_loop subfunctions idname fname ids None s
    = Ret match filter
                  (λ p, ident_in_fun s subfunctions idname fname p = true)
                  ids with
          | [p] => Some p
          | _ => None
          end s.
Proof.
  induction 1 as [|p ids [b Hp] Hids [IHsome IHnone]]; [done |].
  assert (ident_in_fun s subfunctions idname fname p = b) as Hb.
  { unfold ident_in_fun. by rewrite Hp. }
  split.
  - intros q. simpl. unfold bind at 1. rewrite Hp. rewrite filter_cons.
    destruct b.
    + by rewrite decide_True by exact Hb.
    + rewrite decide_False by (by rewrite Hb). apply IHsome.
  - simpl. unfold bind at 1. rewrite Hp. rewrite filter_cons.
    destruct b.
    + rewrite decide_True by exact Hb. simpl. rewrite IHsome.
      by destruct (filter _ ids).
    + rewrite decide_False by (by rewrite Hb). apply IHnone.
Qed.

(** X15: when the pointers that its test follows are not dangling,
    [LookupIdentInFun] returns the identifier of the identifier table that
    has the name and is local to a function of the given name if there is
    exactly one, and the null pointer if there is none or more than one; it
    looks at all identifiers ever declared, whether their scope has ended or
    not. *)
Theorem LookupIdentInFun_unique (s : SymbolTable.t)
    (subfunctions : list SubFunction.t) (idname fname : string) :
  idents_testable s subfunctions idname fname →
  SymbolTable.LookupIdentInFun subfunctions idname fname s
  = Ret match filter
                (λ p, ident_in_fun s subfunctions idname fname p = true)
                (SymbolTable.identtable s) with
        | [p] => Some p
        | _ => None
        end s.
Proof.
  intros Hok. unfold SymbolTable.LookupIdentInFun. unfold bind at 1, get.
  by destruct (LookupIdentInFun_loop_spec s subfunctions idname fname
                 (SymbolTable.identtable s) Hok) as [_ ->].
Qed.

Lemma LookupIdentInFun_unique_witness :
  idents_testable table_locals two_subfunctions "a" "g"
  ∧ idents_testable table_locals two_subfunctions "b" "f"
  ∧ idents_testable table_locals two_subfunctions "c" "f"
  ∧ SymbolTable.LookupIdentInFun two_subfunctions "a" "g" table_locals
    = Ret (Some 2) table_locals
  ∧ SymbolTable.LookupIdentInFun two_subfunctions "b" "f" table_locals
    = Ret None table_locals
  ∧ SymbolTable.LookupIdentInFun two_subfunctions "c" "f" table_locals
    = Ret None table_locals.
Proof.
  assert (∀ idname fname,
            idents_testable table_locals two_subfunctions idname fname)
    as Hok.
  { intros idname fname. unfold idents_testable.
    assert (SymbolTable.identtable table_locals = [0; 1; 2; 3; 4; 5]) as ->
      by (vm_compute; reflexivity).
    unfold SymbolTable.LookupIdentInFun_test. mred.
    repeat constructor;
      match goal with
      | |- context [SymbolTable.ident_heap table_locals !! ?p] =>
          let r := eval vm_compute in (SymbolTable.ident_heap table_locals !! p)
          in change (SymbolTable.ident_heap table_locals !! p) with r
      end;
      cbv beta iota; case_decide; eauto; simpl; eauto. }
  split; [apply Hok |]. split; [apply Hok |]. split; [apply Hok |].
  rewrite !(LookupIdentInFun_unique table_locals two_subfunctions _ _
              (Hok _ _)).
  repeat split; vm_compute; reflexivity.
Defined.

(** ** More on declarations *)

(** A declaration with dynamic scope that returns has returned the live
    binding, or has made a first binding for the name. *)
Lemma declare_dyn_Ret_inv (s : SymbolTable.t) name line sf ident s' :
  SymbolTable.LookupLexDefOrDynScope name line true sf s = Ret ident s' →
  (SymbolTable.idents s !! name = Some ident ∧ s' = s)
  ∨ (SymbolTable.idents s !! name = None
     ∧ ident = length (SymbolTable.ident_heap s)
     ∧ ∃ i, Ident.name i = name
            ∧ Ident.prev i = None
            ∧ s' = SymbolTable.set_identtable (λ l, l ++ [ident])
                     (SymbolTable.set_identstack (λ l, l ++ [ident])
                        (SymbolTable.set_idents <[name := ident]>
                           (SymbolTable.set_ident_heap (λ h, h ++ [i]) s)))).
Proof.
  unfold SymbolTable.LookupLexDefOrDynScope. mred.
  destruct (SymbolTable.idents s !! name) as [p|] eqn:Hlive; mred.
  { intros [= <- <-]. by left. }
  destruct (SymbolTable.LookupWithStruct name None s) as [[r1 r2] s1| |]
    eqn:Hw; [| done..].
  apply LookupWithStruct_state in Hw as ->.
  destruct r1 as [fld|]; simpl; [done |].
  destruct (last (SymbolTable.scopelevels s)) as [level|]; [| done].
  destruct s; sred_in Hlive; sred; rewrite !lookup_snoc_new; sred;
    rewrite !insert_snoc_new.
  intros [= <- <-]. right. split; [done |]. split; [done |].
  by exists (Ident.set_sf sf
               (Ident.new name line (Int.of_size (length identtable)) level)).
Qed.

(** X16: when a declaration returns an identifier, lexical or with dynamic
    scope, that identifier is the live binding of the name: [LookupLexMaybe]
    and [LookupLexUse] return it, and the bindings of all other names are
    what they were. *)
Theorem declare_then_lookup (s s' : SymbolTable.t) (name : string)
    (line : Z) (dynscope : bool) (sf : option nat) (ident : nat) :
  SymbolTable.LookupLexDefOrDynScope name line dynscope sf s = Ret ident s' →
  SymbolTable.LookupLexMaybe name s' = Some ident
  ∧ SymbolTable.LookupLexUse name s' = Ret (Some ident) s'
  ∧ ∀ other, other ≠ name →
             SymbolTable.LookupLexMaybe other s'
             = SymbolTable.LookupLexMaybe other s.
Proof.
  intros Hdecl.
  assert (SymbolTable.LookupLexMaybe name s' = Some ident
          ∧ ∀ other, other ≠ name →
                     SymbolTable.LookupLexMaybe other s'
                     = SymbolTable.LookupLexMaybe other s) as [Hname Hother].
  { unfold SymbolTable.LookupLexMaybe. destruct dynscope.
    - apply declare_dyn_Ret_inv in Hdecl
        as [[Hlive ->]|(Hlive & -> & i & _ & _ & ->)]; [done |].
      destruct s. sred. split; [apply lookup_insert_eq |].
      intros other Hother. by apply lookup_insert_ne.
    - apply declare_Ret_inv in Hdecl as (i & _ & _ & -> & ->).
      destruct s. sred. split; [apply lookup_insert_eq |].
      intros other Hother. by apply lookup_insert_ne. }
  split; [done |]. split; [| done].
  unfold SymbolTable.LookupLexUse. mred. by rewrite Hname.
Qed.

Lemma declare_then_lookup_witness :
  SymbolTable.LookupLexDefOrDynScope "x" 5 false None table_x_inner
  = Ret 1 table_x_shadowed
  ∧ SymbolTable.LookupLexMaybe "x" table_x_inner = Some 0
  ∧ SymbolTable.LookupLexMaybe "x" table_x_shadowed = Some 1
  ∧ SymbolTable.LookupLexUse "x" table_x_shadowed
    = Ret (Some 1) table_x_shadowed.
Proof.
  assert (SymbolTable.LookupLexDefOrDynScope "x" 5 false None table_x_inner
          = Ret 1 table_x_shadowed) as Hdecl.
  { vm_compute. reflexivity. }
  split; [exact Hdecl |]. split; [vm_compute; reflexivity |].
  destruct (declare_then_lookup table_x_inner table_x_shadowed "x" 5 false
              None 1 Hdecl) as (Hmaybe & Huse & _).
  split; [exact Hmaybe | exact Huse].
Defined.

(** [LookupLexUse] of a name without live binding is the error "unknown
    identifier", and the table is unchanged. *)
Lemma LookupLexUse_unknown (s : SymbolTable.t) (name : string) :
  SymbolTable.LookupLexMaybe name s = None →
  SymbolTable.LookupLexUse name s = Throw ("unknown identifier: " +:+ name) s.
Proof. intros Hnone. unfold SymbolTable.LookupLexUse. mred. by rewrite Hnone. Qed.

Lemma structtable_at_no_throw i s msg s' :
  SymbolTable.structtable_at i s ≠ Throw msg s'.
Proof.
  unfold SymbolTable.structtable_at. mred.
  case_decide; [| done].
  destruct (SymbolTable.structtable s !! Z.to_nat i); [| done].
  by destruct (SymbolTable.struct_heap s !! n).
Qed.

Lemma LookupWithStruct_loop_Throw_state fld ws id s msg s' :
  SymbolTable.LookupWithStruct_loop fld ws id s = Throw msg s' → s' = s.
Proof.
  revert id. induction ws as [|wp ws IH]; intros id; simpl; [done |].
  unfold bind at 1.
  destruct (SymbolTable.structtable_at (ty_idx wp.1) s) as [st s2|m s2|]
    eqn:Hat; [| by apply structtable_at_no_throw in Hat | done].
  apply structtable_at_state in Hat as ->.
  destruct (nonnull (Struct.Has (Some fld) st)); [| apply IH].
  destruct id as [q|]; simpl.
  - mred. destruct (SymbolTable.field_heap s !! fld); [| done].
    by intros [= _ <-].
  - mred. apply IH.
Qed.

Lemma LookupWithStruct_Throw_state name id s msg s' :
  SymbolTable.LookupWithStruct name id s = Throw msg s' → s' = s.
Proof.
  unfold SymbolTable.LookupWithStruct. unfold bind at 1, get.
  destruct (SymbolTable.FieldUse name s) as [fld|]; [| done].
  destruct id as [q|]; simpl; [done |].
  unfold bind at 1, ret at 1. unfold bind at 1.
  destruct (SymbolTable.LookupWithStruct_loop fld (SymbolTable.withstack s)
              None s) as [id' s1|msg' s1|] eqn:Hloop; [done | | done].
  intros [= _ <-]. by eapply LookupWithStruct_loop_Throw_state.
Qed.

(** X17: a declaration that raises an error has entered nothing in the
    table: the live bindings, the identifier stack, the identifier table and
    everything else are what they were; at most one identifier has been
    allocated, which no map, stack or table has received. *)
Theorem declare_throw_keeps_table (s s' : SymbolTable.t) (name : string)
    (line : Z) (dynscope : bool) (sf : option nat) (msg : string) :
  SymbolTable.LookupLexDefOrDynScope name line dynscope sf s = Throw msg s' →
  s' = s ∨ ∃ i, s' = SymbolTable.set_ident_heap (λ h, h ++ [i]) s.
Proof.
  unfold SymbolTable.LookupLexDefOrDynScope. unfold bind at 1, get.
  set (k := bind (SymbolTable.LookupWithStruct name None) _).
  assert (k s = Throw msg s' →
          s' = s ∨ ∃ i, s' = SymbolTable.set_ident_heap (λ h, h ++ [i]) s)
    as Hk.
  2: { by destruct (SymbolTable.idents s !! name) as [p|], dynscope. }
  subst k. unfold bind at 1.
  destruct (SymbolTable.LookupWithStruct name None s) as [[r1 r2] s1|msg' s1|]
    eqn:Hw; [| | done].
  2: { intros [= _ <-]. left. by eapply LookupWithStruct_Throw_state. }
  apply LookupWithStruct_state in Hw as ->.
  destruct r1 as [fld|]; simpl.
  { intros [= _ <-]. by left. }
  mred. destruct (last (SymbolTable.scopelevels s)) as [level|]; [| done].
  destruct s. sred. rewrite !lookup_snoc_new. sred. rewrite !insert_snoc_new.
  destruct (idents !! name) as [p|] eqn:Hlive; [| done].
  destruct dynscope; [done |].
  destruct ((ident_heap ++ _) !! p) as [old|]; [| done].
  case_decide.
  - intros [= _ <-]. right. by eexists.
  - sred. rewrite lookup_snoc_new. sred. by rewrite insert_snoc_new.
Qed.

Lemma declare_throw_keeps_table_witness :
  SymbolTable.LookupLexDefOrDynScope "x" 5 false None table_x
  = Throw "identifier redefinition: x" table_x_redefined
  ∧ (table_x_redefined = table_x
     ∨ ∃ i, table_x_redefined
            = SymbolTable.set_ident_heap (λ h, h ++ [i]) table_x).
Proof.
  assert (SymbolTable.LookupLexDefOrDynScope "x" 5 false None table_x
          = Throw "identifier redefinition: x" table_x_redefined) as Hdecl.
  { vm_compute. reflexivity. }
  split; [exact Hdecl |].
  exact (declare_throw_keeps_table table_x table_x_redefined "x" 5 false None
           "identifier redefinition: x" Hdecl).
Defined.

(** ** More on scopes *)

Lemma unwind_defined h ps m :
  Forall (λ p, is_Some (h !! p)) ps → is_Some (unwind h ps m).
Proof.
  intros Hps. revert m. induction Hps as [|p ps [i Hp] _ IH]; intros m.
  - by eexists.
  - simpl. rewrite Hp. apply IH.
Qed.

(** The first loop of [ScopeCleanup] for any level, also one beyond the top
    of the stack. *)
Lemma ScopeCleanup_idents_returns s level fuel :
  back (SymbolTable.scopelevels s) = Some level →
  Forall (λ p, is_Some (SymbolTable.ident_heap s !! p))
    (drop level (SymbolTable.identstack s)) →
  length (SymbolTable.identstack s) < fuel →
  ∃ m',
    unwind (SymbolTable.ident_heap s)
      (rev (drop level (SymbolTable.identstack s))) (SymbolTable.idents s)
    = Some m'
    ∧ SymbolTable.ScopeCleanup_idents fuel s
      = Ret tt (SymbolTable.set_identstack (take level)
                  (SymbolTable.set_idents (λ _, m') s)).
Proof.
  intros Hlevel Hvalid Hfuel.
  destruct (decide (level ≤ length (SymbolTable.identstack s))) as [Hle|Hgt].
  - destruct (unwind_defined (SymbolTable.ident_heap s)
                (rev (drop level (SymbolTable.identstack s)))
                (SymbolTable.idents s)) as [m' Hm'].
    { by apply Forall_rev. }
    exists m'. split; [done |].
    rewrite (ScopeCleanup_idents_spec
               (drop level (SymbolTable.identstack s)) fuel s
               (take level (SymbolTable.identstack s)) m'); try done.
    + by rewrite take_drop.
    + rewrite length_take. by rewrite Nat.min_l.
    + rewrite length_drop. lia.
  - exists (SymbolTable.idents s). split.
    { by rewrite drop_ge by lia. }
    destruct fuel as [|fuel]; [lia |]. unfold back in Hlevel.
    simpl. mred. rewrite Hlevel. rewrite decide_False by lia.
    destruct s. sred. sred_in Hgt. by rewrite take_ge by lia.
Qed.

Lemma ScopeCleanup_withstack_returns s level fuel :
  back (SymbolTable.withstacklevels s) = Some level →
  length (SymbolTable.withstack s) < fuel →
  SymbolTable.ScopeCleanup_withstack fuel s
  = Ret tt (SymbolTable.set_withstack (take level) s).
Proof.
  intros Hlevel Hfuel.
  destruct (decide (level ≤ length (SymbolTable.withstack s))) as [Hle|Hgt].
  - rewrite (ScopeCleanup_withstack_spec
               (drop level (SymbolTable.withstack s)) fuel s
               (take level (SymbolTable.withstack s))); try done.
    + by rewrite take_drop.
    + rewrite length_take. by rewrite Nat.min_l.
    + rewrite length_drop. lia.
  - destruct fuel as [|fuel]; [lia |]. unfold back in Hlevel.
    simpl. mred. rewrite Hlevel. rewrite decide_False by lia.
    destruct s. sred. sred_in Hgt. by rewrite take_ge by lia.
Qed.

(** [ScopeCleanup] cuts the two stacks down to the saved levels. *)
Lemma ScopeCleanup_cuts_stacks (s : SymbolTable.t) (lv wl : list nat)
    (level wlevel : nat) :
  SymbolTable.scopelevels s = lv ++ [level] →
  SymbolTable.withstacklevels s = wl ++ [wlevel] →
  Forall (λ p, is_Some (SymbolTable.ident_heap s !! p))
    (drop level (SymbolTable.identstack s)) →
  ∃ s',
    SymbolTable.ScopeCleanup s = Ret tt s'
    ∧ SymbolTable.identstack s' = take level (SymbolTable.identstack s)
    ∧ SymbolTable.withstack s' = take wlevel (SymbolTable.withstack s)
    ∧ SymbolTable.scopelevels s' = lv
    ∧ SymbolTable.withstacklevels s' = wl
    ∧ same_index s s'.
Proof.
  intros Hlevels Hwlevels Hvalid.
  destruct (ScopeCleanup_idents_returns s level
              (S (length (SymbolTable.identstack s)))) as (m' & _ & Hloop);
    [unfold back; by rewrite Hlevels, last_snoc | done | lia |].
  eexists. split.
  - unfold SymbolTable.ScopeCleanup. unfold bind at 1, get. unfold bind at 1.
    rewrite Hloop. unfold bind at 1, modify at 1. unfold bind at 1.
    rewrite (ScopeCleanup_withstack_returns _ wlevel).
    + reflexivity.
    + unfold back. destruct s. sred. sred_in Hwlevels.
      by rewrite Hwlevels, last_snoc.
    + destruct s. sred. lia.
  - destruct s. sred. sred_in Hlevels. sred_in Hwlevels.
    subst scopelevels withstacklevels. unfold pop_back.
    rewrite !removelast_last. by repeat split.
Qed.

(** X18: [ScopeCleanup] returns whenever there is a scope to end (the two
    stacks of levels are not empty) and the identifiers above the level of
    the scope are objects of the arena, whatever the live bindings are, so
    also when pruning has removed some of them before: it cuts the
    identifier stack and the with-stack down to the levels saved by
    [ScopeStart], pops these levels, and allocates and registers
    nothing. *)
Theorem ScopeCleanup_returns (s : SymbolTable.t) (lv wl : list nat)
    (level wlevel : nat) :
  SymbolTable.scopelevels s = lv ++ [level] →
  SymbolTable.withstacklevels s = wl ++ [wlevel] →
  Forall (λ p, is_Some (SymbolTable.ident_heap s !! p))
    (drop level (SymbolTable.identstack s)) →
  ∃ s',
    SymbolTable.ScopeCleanup s = Ret tt s'
    ∧ SymbolTable.identstack s' = take level (SymbolTable.identstack s)
    ∧ SymbolTable.withstack s' = take wlevel (SymbolTable.withstack s)
    ∧ SymbolTable.scopelevels s' = lv
    ∧ SymbolTable.withstacklevels s' = wl
    ∧ same_index s s'.
Proof. apply ScopeCleanup_cuts_stacks. Qed.

Lemma ScopeCleanup_returns_witness :
  SymbolTable.scopelevels table_pruned = [] ++ [0]
  ∧ SymbolTable.withstacklevels table_pruned = [] ++ [0]
  ∧ Forall (λ p, is_Some (SymbolTable.ident_heap table_pruned !! p))
      (drop 0 (SymbolTable.identstack table_pruned))
  ∧ SymbolTable.LookupLexMaybe "a" table_pruned = None
  ∧ ∃ s',
      SymbolTable.ScopeCleanup table_pruned = Ret tt s'
      ∧ SymbolTable.identstack s' = take 0 (SymbolTable.identstack table_pruned)
      ∧ SymbolTable.withstack s' = take 0 (SymbolTable.withstack table_pruned)
      ∧ SymbolTable.scopelevels s' = []
      ∧ SymbolTable.withstacklevels s' = []
      ∧ same_index table_pruned s'.
Proof.
  assert (SymbolTable.scopelevels table_pruned = [] ++ [0]) as H1
    by (vm_compute; reflexivity).
  assert (SymbolTable.withstacklevels table_pruned = [] ++ [0]) as H2
    by (vm_compute; reflexivity).
  assert (Forall (λ p, is_Some (SymbolTable.ident_heap table_pruned !! p))
            (drop 0 (SymbolTable.identstack table_pruned))) as H3.
  { apply (bool_decide_unpack _). vm_compute. reflexivity. }
  split; [exact H1 |]. split; [exact H2 |]. split; [exact H3 |].
  split; [vm_compute; reflexivity |].
  exact (ScopeCleanup_returns table_pruned [] [] 0 0 H1 H2 H3).
Defined.

(** X19: a scope that is started, filled with a well nested sequence of
    lexical declarations and inner scopes, and ended, leaves the table as it
    was but for the identifiers it has allocated: they are appended to the
    arena and to the identifier table, and the identifier stack, the stacks
    of levels, the with-stack, the maps and the other tables are exactly
    what they were. *)
Theorem scope_block_frame (s s' : SymbolTable.t) (body : list op) :
  well_nested body →
  run (OpScopeStart :: body ++ [OpScopeCleanup]) s = Ret tt s' →
  ∃ ext tbl,
    s' = SymbolTable.set_identtable (λ l, l ++ tbl)
           (SymbolTable.set_ident_heap (λ h, h ++ ext) s).
Proof.
  intros Hbody Hrun. eapply scope_block_run; [| done].
  by apply well_nested_declares_only.
Qed.

Lemma scope_block_frame_witness :
  well_nested scope_body
  ∧ run (OpScopeStart :: scope_body ++ [OpScopeCleanup]) table_x
    = Ret tt table_x_after_scope
  ∧ ∃ ext tbl,
      table_x_after_scope
      = SymbolTable.set_identtable (λ l, l ++ tbl)
          (SymbolTable.set_ident_heap (λ h, h ++ ext) table_x).
Proof.
  assert (well_nested scope_body) as Hbody.
  { unfold scope_body. do 2 apply well_nested_decl.
    apply (well_nested_scope
             [OpLookupLexDefOrDynScope "x" 4 false None;
              OpLookupLexDefOrDynScope "z" 5 false None]
             [OpLookupLexDefOrDynScope "w" 6 false None]);
      repeat apply well_nested_decl; apply well_nested_nil. }
  assert (run (OpScopeStart :: scope_body ++ [OpScopeCleanup]) table_x
          = Ret tt table_x_after_scope) as Hrun.
  { vm_compute. reflexivity. }
  split; [exact Hbody |]. split; [exact Hrun |].
  exact (scope_block_frame table_x table_x_after_scope scope_body Hbody Hrun).
Defined.

(** ** What a call leaves alone *)

Section Keeps.

Variable R : SymbolTable.t → SymbolTable.t → Prop.
Hypothesis R_refl : ∀ s, R s s.
Hypothesis R_trans : ∀ s1 s2 s3, R s1 s2 → R s2 s3 → R s1 s3.

Lemma keeps_R_ret {A} (a : A) : keeps R (ret a).
Proof. intros s s' [= <-]. apply R_refl. Qed.

Lemma keeps_R_get : keeps R get.
Proof. intros s s' [= <-]. apply R_refl. Qed.

Lemma keeps_R_Error {A} msg : keeps R (@Error _ A msg).
Proof. intros s s' [= <-]. apply R_refl. Qed.

Lemma keeps_R_abort {A} : keeps R (@abort _ A).
Proof. intros s s' [=]. Qed.

Lemma keeps_R_deref {A} (o : option A) : keeps R (deref o).
Proof. destruct o; [apply keeps_R_ret | apply keeps_R_abort]. Qed.

Lemma keeps_R_modify f : (∀ s, R s (f s)) → keeps R (modify f).
Proof. intros Hf s s' [= <-]. apply Hf. Qed.

Lemma keeps_R_bind {A B} (m : M SymbolTable.t A)
    (k : A → M SymbolTable.t B) :
  keeps R m → (∀ a, keeps R (k a)) → keeps R (bind m k).
Proof.
  intros Hm Hk s s'. unfold bind.
  destruct (m s) as [a s1|msg s1|] eqn:Hms; simpl.
  - intros Hs'. eapply R_trans; [| by eapply Hk].
    apply Hm. by rewrite Hms.
  - intros [= <-]. apply Hm. by rewrite Hms.
  - done.
Qed.

Lemma keeps_R_ident_at p : keeps R (SymbolTable.ident_at p).
Proof. intros s. apply keeps_R_deref. Qed.

Lemma keeps_R_struct_at p : keeps R (SymbolTable.struct_at p).
Proof. intros s. apply keeps_R_deref. Qed.

Lemma keeps_R_field_at p : keeps R (SymbolTable.field_at p).
Proof. intros s. apply keeps_R_deref. Qed.

Lemma keeps_R_function_at p : keeps R (SymbolTable.function_at p).
Proof. intros s. apply keeps_R_deref. Qed.

Lemma keeps_R_structtable_at i : keeps R (SymbolTable.structtable_at i).
Proof.
  intros s. unfold SymbolTable.structtable_at. case_decide; [| done].
  destruct (SymbolTable.structtable s !! Z.to_nat i); [| done].
  apply keeps_R_struct_at.
Qed.

Lemma keeps_R_new_Struct x :
  ignores R SymbolTable.set_struct_heap → keeps R (SymbolTable.new_Struct x).
Proof. intros H s s' [= <-]. apply H. Qed.

Lemma keeps_R_new_SharedField x :
  ignores R SymbolTable.set_field_heap → keeps R (SymbolTable.new_SharedField x).
Proof. intros H s s' [= <-]. apply H. Qed.

Lemma keeps_R_new_Function x :
  ignores R SymbolTable.set_function_heap →
  keeps R (SymbolTable.new_Function x).
Proof. intros H s s' [= <-]. apply H. Qed.

Lemma keeps_R_update_struct p f :
  ignores R SymbolTable.set_struct_heap →
  keeps R (SymbolTable.update_struct p f).
Proof.
  intros H. unfold SymbolTable.update_struct.
  apply keeps_R_bind; [apply keeps_R_struct_at |]. intros x.
  apply keeps_R_modify. intros s. apply H.
Qed.

Lemma keeps_R_update_field p f :
  ignores R SymbolTable.set_field_heap →
  keeps R (SymbolTable.update_field p f).
Proof.
  intros H. unfold SymbolTable.update_field.
  apply keeps_R_bind; [apply keeps_R_field_at |]. intros x.
  apply keeps_R_modify. intros s. apply H.
Qed.

Lemma keeps_R_update_function p f :
  ignores R SymbolTable.set_function_heap →
  keeps R (SymbolTable.update_function p f).
Proof.
  intros H. unfold SymbolTable.update_function.
  apply keeps_R_bind; [apply keeps_R_function_at |]. intros x.
  apply keeps_R_modify. intros s. apply H.
Qed.

(** One step of the proofs below. *)
Ltac keeps_R_step :=
  first
    [ assumption
    | apply keeps_R_ret | apply keeps_R_get | apply keeps_R_Error
    | apply keeps_R_abort | apply keeps_R_deref
    | apply keeps_R_ident_at | apply keeps_R_struct_at
    | apply keeps_R_field_at | apply keeps_R_function_at
    | apply keeps_R_structtable_at
    | apply keeps_R_new_Struct; assumption
    | apply keeps_R_new_SharedField; assumption
    | apply keeps_R_new_Function; assumption
    | apply keeps_R_update_struct; assumption
    | apply keeps_R_update_field; assumption
    | apply keeps_R_update_function; assumption
    | apply keeps_R_modify; intros ?;
      match goal with H : ignores R _ |- _ => apply H end
    | apply keeps_R_bind; [| intros ?]
    | match goal with
      | |- keeps R (if ?b then _ else _) => destruct b
      | |- keeps R (match ?x with _ => _ end) => destruct x
      end ].

Lemma keeps_R_AddWithStruct ty id :
  ignores R SymbolTable.set_withstack →
  keeps R (SymbolTable.AddWithStruct ty id).
Proof.
  intros H. unfold SymbolTable.AddWithStruct.
  assert (∀ ws, keeps R (SymbolTable.AddWithStruct_loop ws ty)) as Hloop.
  { induction ws as [|wp ws IH]; simpl; repeat keeps_R_step. }
  repeat keeps_R_step; apply Hloop.
Qed.

Lemma keeps_R_structs_subscript name :
  ignores R SymbolTable.set_structs →
  keeps R (SymbolTable.structs_subscript name).
Proof. intros H. unfold SymbolTable.structs_subscript. repeat keeps_R_step. Qed.

Lemma keeps_R_StructDecl name :
  ignores R SymbolTable.set_structs →
  ignores R SymbolTable.set_struct_heap →
  ignores R SymbolTable.set_structtable →
  keeps R (SymbolTable.StructDecl name).
Proof.
  intros H1 H2 H3. unfold SymbolTable.StructDecl.
  repeat keeps_R_step.
Qed.

Lemma keeps_R_StructUse name :
  ignores R SymbolTable.set_structs → keeps R (SymbolTable.StructUse name).
Proof.
  intros H. unfold SymbolTable.StructUse.
  repeat keeps_R_step.
Qed.

Lemma keeps_R_UnregisterStruct st :
  ignores R SymbolTable.set_structs →
  keeps R (SymbolTable.UnregisterStruct st).
Proof. intros H. unfold SymbolTable.UnregisterStruct. repeat keeps_R_step. Qed.

Lemma keeps_R_UnregisterFun f :
  ignores R SymbolTable.set_functions →
  keeps R (SymbolTable.UnregisterFun f).
Proof. intros H. unfold SymbolTable.UnregisterFun. repeat keeps_R_step. Qed.

Lemma keeps_R_FieldDecl name idx st :
  ignores R SymbolTable.set_fields →
  ignores R SymbolTable.set_field_heap →
  ignores R SymbolTable.set_fieldtable →
  keeps R (SymbolTable.FieldDecl name idx st).
Proof.
  intros H1 H2 H3. unfold SymbolTable.FieldDecl. repeat keeps_R_step.
Qed.

Lemma keeps_R_FunctionDecl name nargs :
  ignores R SymbolTable.set_functions →
  ignores R SymbolTable.set_function_heap →
  ignores R SymbolTable.set_functiontable →
  keeps R (SymbolTable.FunctionDecl name nargs).
Proof.
  intros H1 H2 H3. unfold SymbolTable.FunctionDecl.
  assert (∀ fuel f, keeps R (SymbolTable.FunctionDecl_loop fuel f nargs))
    as Hloop.
  { induction fuel as [|fuel IH]; intros [p|]; simpl; repeat keeps_R_step.
    apply IH. }
  repeat keeps_R_step; apply Hloop.
Qed.

End Keeps.

(** ** No pointer to an identifier dangles *)

Lemma same_scoping_refl s : same_scoping s s.
Proof. by repeat split. Qed.

Lemma same_scoping_trans s1 s2 s3 :
  same_scoping s1 s2 → same_scoping s2 s3 → same_scoping s1 s3.
Proof.
  intros (A1 & A2 & A3 & A4 & A5 & A6) (B1 & B2 & B3 & B4 & B5 & B6).
  repeat split; congruence.
Qed.

Lemma scoping_wf_same s s' : same_scoping s s' → scoping_wf s → scoping_wf s'.
Proof.
  intros (H1 & H2 & H3 & H4 & H5 & H6).
  unfold scoping_wf, no_dangling, levels_paired.
  by rewrite H1, H2, H3, H4, H5, H6.
Qed.

Lemma scoping_wf_new : scoping_wf SymbolTable.new.
Proof.
  split; [| done]. split; [| split; [| split; constructor]].
  - intros name p Hp. simpl in Hp. by rewrite lookup_empty in Hp.
  - intros p i q Hp. simpl in Hp. by rewrite lookup_nil in Hp.
Qed.

(** A new identifier for [name], on top of the live bindings. *)
Lemma scoping_wf_push s name i :
  scoping_wf s →
  Ident.name i = name →
  (Ident.prev i = None ∨ Ident.prev i = SymbolTable.idents s !! name) →
  scoping_wf
    (SymbolTable.set_identtable
       (λ l, l ++ [length (SymbolTable.ident_heap s)])
       (SymbolTable.set_identstack
          (λ l, l ++ [length (SymbolTable.ident_heap s)])
          (SymbolTable.set_idents
             <[name := length (SymbolTable.ident_heap s)]>
             (SymbolTable.set_ident_heap (λ h, h ++ [i]) s)))).
Proof.
  intros [(Hbind & Hprev & Hstack & Htable) Hlevels] Hname Hi.
  destruct s. unfold scoping_wf, no_dangling, levels_paired in *.
  sred_in Hbind. sred_in Hprev. sred_in Hstack. sred_in Htable.
  sred_in Hlevels. sred_in Hi. sred.
  assert (∀ l, Forall (λ p, is_Some (ident_heap !! p)) l →
               Forall (λ p, is_Some ((ident_heap ++ [i]) !! p))
                 (l ++ [length ident_heap])) as Hgrow.
  { intros l Hl. apply Forall_app. split.
    - eapply Forall_impl; [exact Hl |]. intros p [x Hx]. exists x.
      by apply lookup_app_l_Some.
    - constructor; [| done]. exists i. apply lookup_snoc_new. }
  split; [| done].
  split; [| split; [| split; by apply Hgrow]].
  - intros n p Hp. destruct (decide (n = name)) as [->|Hne].
    + rewrite lookup_insert_eq in Hp. injection Hp as <-.
      exists i. split; [apply lookup_snoc_new | done].
    + rewrite lookup_insert_ne in Hp by done.
      destruct (Hbind n p Hp) as (x & Hx & Hxn). exists x.
      split; [by apply lookup_app_l_Some | done].
  - intros p x q Hp Hq.
    apply lookup_snoc_Some in Hp as [[_ Hp]|[-> <-]].
    + destruct (Hprev p x q Hp Hq) as (j & Hj & Hjn). exists j.
      split; [by apply lookup_app_l_Some | done].
    + destruct Hi as [Hi|Hi]; [congruence |].
      rewrite Hq in Hi. symmetry in Hi.
      destruct (Hbind name q Hi) as (j & Hj & Hjn). exists j.
      split; [by apply lookup_app_l_Some | congruence].
Qed.

Lemma declare_wf s name line dynscope sf ident s' :
  scoping_wf s →
  SymbolTable.LookupLexDefOrDynScope name line dynscope sf s = Ret ident s' →
  scoping_wf s'.
Proof.
  intros Hwf Hdecl. destruct dynscope.
  - apply declare_dyn_Ret_inv in Hdecl
      as [[Hlive ->]|(Hlive & -> & i & Hname & Hprev & ->)]; [done |].
    apply scoping_wf_push; auto.
  - apply declare_Ret_inv in Hdecl as (i & Hname & Hprev & -> & ->).
    apply scoping_wf_push; auto.
Qed.

Lemma ScopeStart_wf s s' :
  scoping_wf s → SymbolTable.ScopeStart s = Ret tt s' → scoping_wf s'.
Proof.
  intros [Hnd Hlevels]. rewrite ScopeStart_spec. intros [= <-].
  destruct s. unfold scoping_wf, no_dangling, levels_paired in *.
  sred_in Hnd. sred_in Hlevels. sred.
  split; [done |]. rewrite !length_app. simpl. lia.
Qed.

(** Popping an identifier keeps the live bindings well named. *)
Lemma unbind_named h i m :
  prevs_named h → (∃ p, h !! p = Some i) →
  bindings_named h m → bindings_named h (unbind i m).
Proof.
  intros Hprev [p Hp] Hbind. unfold unbind.
  destruct (m !! Ident.name i) as [p0|]; [| done].
  destruct (Ident.prev i) as [q|] eqn:Hq.
  - destruct (Hprev p i q Hp Hq) as (j & Hj & Hjn).
    intros n p' Hp'. destruct (decide (n = Ident.name i)) as [->|Hne].
    + rewrite lookup_insert_eq in Hp'. injection Hp' as <-. by exists j.
    + rewrite lookup_insert_ne in Hp' by done. by apply Hbind.
  - intros n p' Hp'. apply lookup_delete_Some in Hp' as [_ Hp'].
    by apply Hbind.
Qed.

Lemma unwind_named h ps m m' :
  prevs_named h → bindings_named h m →
  unwind h ps m = Some m' → bindings_named h m'.
Proof.
  intros Hprev. revert m. induction ps as [|p ps IH]; intros m Hbind; simpl.
  - by intros [= <-].
  - destruct (h !! p) as [i|] eqn:Hp; [| done].
    apply IH. apply unbind_named; eauto.
Qed.

Lemma snoc_or_nil {A} (l : list A) : l = [] ∨ ∃ l' x, l = l' ++ [x].
Proof.
  induction l as [|x l _] using rev_ind; [by left | right; eauto].
Qed.

(** What [ScopeCleanup] has done when it returns, in a table without
    dangling pointers. *)
Lemma ScopeCleanup_Ret_inv s s' :
  Forall (λ p, is_Some (SymbolTable.ident_heap s !! p))
    (SymbolTable.identstack s) →
  SymbolTable.ScopeCleanup s = Ret tt s' →
  ∃ lv level wl wlevel m',
    SymbolTable.scopelevels s = lv ++ [level]
    ∧ SymbolTable.withstacklevels s = wl ++ [wlevel]
    ∧ unwind (SymbolTable.ident_heap s)
        (rev (drop level (SymbolTable.identstack s))) (SymbolTable.idents s)
      = Some m'
    ∧ s' = SymbolTable.set_withstacklevels (λ _, wl)
             (SymbolTable.set_withstack (take wlevel)
                (SymbolTable.set_scopelevels (λ _, lv)
                   (SymbolTable.set_identstack (take level)
                      (SymbolTable.set_idents (λ _, m') s)))).
Proof.
  intros Hstack.
  destruct (snoc_or_nil (SymbolTable.scopelevels s))
    as [Hnil|(lv & level & Hlevels)].
  { unfold SymbolTable.ScopeCleanup. unfold bind at 1, get. unfold bind at 1.
    simpl. mred. by rewrite Hnil. }
  destruct (ScopeCleanup_idents_returns s level
              (S (length (SymbolTable.identstack s))))
    as (m' & Hunwind & Hloop);
    [unfold back; by rewrite Hlevels, last_snoc
    | by apply Forall_drop | lia |].
  unfold SymbolTable.ScopeCleanup. unfold bind at 1, get. unfold bind at 1.
  rewrite Hloop. unfold bind at 1, modify at 1. unfold bind at 1.
  destruct (snoc_or_nil (SymbolTable.withstacklevels s))
    as [Hnil|(wl & wlevel & Hwlevels)].
  { simpl. mred. destruct s. sred. sred_in Hnil. by rewrite Hnil. }
  rewrite (ScopeCleanup_withstack_returns _ wlevel).
  - unfold modify. intros [= <-].
    exists lv, level, wl, wlevel, m'.
    split; [done |]. split; [done |]. split; [done |].
    destruct s. sred. sred_in Hlevels. sred_in Hwlevels.
    subst scopelevels withstacklevels. unfold pop_back.
    by rewrite !removelast_last.
  - unfold back. destruct s. sred. sred_in Hwlevels.
    by rewrite Hwlevels, last_snoc.
  - destruct s. sred. lia.
Qed.

Lemma ScopeCleanup_wf s s' :
  scoping_wf s → SymbolTable.ScopeCleanup s = Ret tt s' → scoping_wf s'.
Proof.
  intros [(Hbind & Hprev & Hstack & Htable) Hlevels] Hclean.
  apply ScopeCleanup_Ret_inv in Hclean
    as (lv & level & wl & wlevel & m' & Hlv & Hwl & Hunwind & ->); [| done].
  pose proof (unwind_named _ _ _ _ Hprev Hbind Hunwind) as Hbind'.
  unfold levels_paired in Hlevels. rewrite Hlv, Hwl, !length_app in Hlevels.
  simpl in Hlevels.
  destruct s. unfold scoping_wf, no_dangling, levels_paired.
  sred_in Hbind'. sred_in Hprev. sred_in Hstack. sred_in Htable. sred.
  split; [| lia].
  split; [done |]. split; [done |]. split; [by apply Forall_take | done].
Qed.

Lemma EndOfInclude_loop_Ret_inv its :
  ∀ s s',
    SymbolTable.EndOfInclude_loop its s = Ret tt s' →
    ∃ m', m' ⊆ SymbolTable.idents s
          ∧ s' = SymbolTable.set_idents (λ _, m') s.
Proof.
  induction its as [|[k p] its IH]; intros s s'; simpl.
  - intros [= <-]. exists (SymbolTable.idents s). split; [done |].
    by destruct s.
  - mred. destruct (SymbolTable.ident_heap s !! p) as [i|]; [| done].
    destruct (Ident.isprivate i).
    + destruct (nonnull (Ident.prev i)); [done |]. simpl.
      intros Hrest. apply IH in Hrest as (m' & Hsub & ->).
      exists m'. split; [| by destruct s].
      etrans; [exact Hsub |]. destruct s. sred. apply delete_subseteq.
    + simpl. apply IH.
Qed.

Lemma EndOfInclude_wf s s' :
  scoping_wf s → SymbolTable.EndOfInclude s = Ret tt s' → scoping_wf s'.
Proof.
  intros [(Hbind & Hprev & Hstack & Htable) Hlevels] Hend.
  apply EndOfInclude_loop_Ret_inv in Hend as (m' & Hsub & ->).
  destruct s. unfold scoping_wf, no_dangling, levels_paired in *.
  sred_in Hbind. sred_in Hsub. sred.
  split; [| done]. split; [| done].
  intros n p Hp. apply Hbind. by eapply lookup_weaken.
Qed.

(** A write through a pointer to an identifier that keeps its name and its
    [prev]. *)
Lemma scoping_wf_update s p i i' :
  scoping_wf s →
  SymbolTable.ident_heap s !! p = Some i →
  Ident.name i' = Ident.name i →
  Ident.prev i' = Ident.prev i →
  scoping_wf (SymbolTable.set_ident_heap (λ h, <[p := i']> h) s).
Proof.
  intros [(Hbind & Hprev & Hstack & Htable) Hlevels] Hp Hname Hprevi.
  destruct s. unfold scoping_wf, no_dangling, levels_paired in *.
  sred_in Hbind. sred_in Hprev. sred_in Hstack. sred_in Htable.
  sred_in Hlevels. sred_in Hp. sred.
  assert (∀ q x, ident_heap !! q = Some x →
                 ∃ x', <[p := i']> ident_heap !! q = Some x'
                       ∧ Ident.name x' = Ident.name x) as Hold.
  { intros q x Hq. destruct (decide (q = p)) as [->|Hne].
    - exists i'. rewrite list_lookup_insert_eq by (by eapply lookup_lt_Some).
      split; [done |]. congruence.
    - exists x. by rewrite list_lookup_insert_ne. }
  assert (∀ l, Forall (λ q, is_Some (ident_heap !! q)) l →
               Forall (λ q, is_Some (<[p := i']> ident_heap !! q)) l)
    as Hvalid.
  { intros l Hl. eapply Forall_impl; [exact Hl |]. intros q [x Hx].
    destruct (Hold q x Hx) as (x' & Hx' & _). by exists x'. }
  split; [| done].
  split; [| split; [| split; by apply Hvalid]].
  - intros n q Hq. destruct (Hbind n q Hq) as (x & Hx & Hxn).
    destruct (Hold q x Hx) as (x' & Hx' & Hxn'). exists x'.
    split; [done | congruence].
  - intros q x r Hq Hr.
    assert (∃ y, ident_heap !! q = Some y ∧ Ident.prev y = Some r
                 ∧ Ident.name y = Ident.name x) as (y & Hy & Hyr & Hyn).
    { destruct (decide (q = p)) as [->|Hne].
      - rewrite list_lookup_insert_eq in Hq by (by eapply lookup_lt_Some).
        injection Hq as <-. exists i. split; [done |].
        split; congruence.
      - rewrite list_lookup_insert_ne in Hq by done. by exists x. }
    destruct (Hprev q y r Hy Hyr) as (j & Hj & Hjn).
    destruct (Hold r j Hj) as (j' & Hj' & Hjn'). exists j'.
    split; [done | congruence].
Qed.

Lemma update_ident_wf s s' p f :
  (∀ i, Ident.name (f i) = Ident.name i) →
  (∀ i, Ident.prev (f i) = Ident.prev i) →
  scoping_wf s →
  SymbolTable.update_ident p f s = Ret tt s' → scoping_wf s'.
Proof.
  intros Hname Hprev Hwf. mred.
  destruct (SymbolTable.ident_heap s !! p) as [i|] eqn:Hp; [| done].
  intros [= <-]. by eapply scoping_wf_update.
Qed.

Lemma Assign_wf s s' p :
  scoping_wf s →
  SymbolTable.on_ident p Ident.Assign s = Ret tt s' → scoping_wf s'.
Proof.
  intros Hwf. unfold SymbolTable.on_ident.
  destruct (SymbolTable.ident_heap s !! p) as [i|] eqn:Hp; [| done].
  unfold Ident.Assign. mred. simpl.
  destruct (Ident.constant i); [done |].
  intros [= <-]. by eapply scoping_wf_update.
Qed.

Lemma ignores_same_scoping_structs :
  ignores same_scoping SymbolTable.set_struct_heap
  ∧ ignores same_scoping SymbolTable.set_field_heap
  ∧ ignores same_scoping SymbolTable.set_function_heap
  ∧ ignores same_scoping SymbolTable.set_structs
  ∧ ignores same_scoping SymbolTable.set_structtable
  ∧ ignores same_scoping SymbolTable.set_fields
  ∧ ignores same_scoping SymbolTable.set_fieldtable
  ∧ ignores same_scoping SymbolTable.set_functions
  ∧ ignores same_scoping SymbolTable.set_functiontable
  ∧ ignores same_scoping SymbolTable.set_withstack.
Proof. repeat split. Qed.

Lemma Ret_state_of {A} (m : M SymbolTable.t A) s a s' :
  m s = Ret a s' → state_of (m s) = Some s'.
Proof. by intros ->. Qed.

(** Every call that returns keeps the identifiers well formed. *)
Lemma exec_wf o s s' :
  scoping_wf s → exec o s = Ret tt s' → scoping_wf s'.
Proof.
  destruct ignores_same_scoping_structs
    as (I1 & I2 & I3 & I4 & I5 & I6 & I7 & I8 & I9 & I10).
  intros Hwf.
  assert (∀ (m : M SymbolTable.t unit),
            keeps same_scoping m → m s = Ret tt s' → scoping_wf s') as Hframe.
  { intros m Hm Hms. eapply scoping_wf_same; [| exact Hwf].
    apply Hm. by apply Ret_state_of in Hms. }
  assert (∀ A (m : M SymbolTable.t A),
            keeps same_scoping m → discard m s = Ret tt s' → scoping_wf s')
    as Hframe'.
  { intros A m Hm Hms. eapply scoping_wf_same; [| exact Hwf].
    apply Hm. rewrite <- state_of_discard. by rewrite Hms. }
  destruct o; simpl.
  - unfold discard, bind, ret.
    destruct (SymbolTable.LookupLexDefOrDynScope name line dynscope sf s)
      as [ident s1| |] eqn:Hdecl; [| done..].
    intros [= <-]. by eapply declare_wf.
  - apply Hframe.
    apply keeps_R_AddWithStruct;
      [apply same_scoping_refl | apply same_scoping_trans | done].
  - by apply ScopeStart_wf.
  - by apply ScopeCleanup_wf.
  - apply Hframe.
    apply keeps_R_UnregisterStruct;
      [apply same_scoping_refl | apply same_scoping_trans | done].
  - apply Hframe.
    apply keeps_R_UnregisterFun;
      [apply same_scoping_refl | apply same_scoping_trans | done].
  - by apply EndOfInclude_wf.
  - apply Hframe'.
    apply keeps_R_StructDecl;
      [apply same_scoping_refl | apply same_scoping_trans | done..].
  - apply Hframe'.
    apply keeps_R_StructUse;
      [apply same_scoping_refl | apply same_scoping_trans | done].
  - apply Hframe'.
    apply keeps_R_FieldDecl;
      [apply same_scoping_refl | apply same_scoping_trans | done..].
  - apply Hframe'.
    apply keeps_R_FunctionDecl;
      [apply same_scoping_refl | apply same_scoping_trans | done..].
  - by apply Assign_wf.
  - by apply update_ident_wf.
  - by apply update_ident_wf.
  - apply Hframe.
    apply keeps_R_update_struct;
      [apply same_scoping_refl | apply same_scoping_trans | done].
Qed.

Lemma reachable_scoping_wf s : reachable s → scoping_wf s.
Proof.
  induction 1 as [|o s s' _ IH Hexec]; [apply scoping_wf_new |].
  by eapply exec_wf.
Qed.

(** X20: in every table that returning calls have built from a fresh one,
    no pointer to an identifier dangles: each live binding of a name and
    each [prev] pointer leads to an identifier of that name, every entry of
    [identstack] and of [identtable] is an identifier of the table, and
    [scopelevels] and [withstacklevels] have the same depth. *)
Theorem reachable_no_dangling (s : SymbolTable.t) :
  reachable s → no_dangling s ∧ levels_paired s.
Proof. apply reachable_scoping_wf. Qed.

Lemma reachable_no_dangling_witness :
  reachable table_with_x_field
  ∧ no_dangling table_with_x_field ∧ levels_paired table_with_x_field.
Proof.
  assert (reachable table_with_x_field) as Hreach.
  { apply (reachable_run calls_with_x_field SymbolTable.new);
      [apply reachable_new | vm_compute; reflexivity]. }
  split; [exact Hreach |].
  exact (reachable_no_dangling table_with_x_field Hreach).
Defined.

(** X21: in every table that returning calls have built from a fresh one
    and in which a scope is open, [ScopeCleanup] returns: it finds every
    identifier it pops and a level on each of the two stacks of levels, and
    takes one level off each. *)
Theorem ScopeCleanup_returns_when_open (s : SymbolTable.t) :
  reachable s →
  SymbolTable.scopelevels s ≠ [] →
  ∃ s',
    SymbolTable.ScopeCleanup s = Ret tt s'
    ∧ S (length (SymbolTable.scopelevels s'))
      = length (SymbolTable.scopelevels s)
    ∧ S (length (SymbolTable.withstacklevels s'))
      = length (SymbolTable.withstacklevels s).
Proof.
  intros Hreach Hopen.
  destruct (reachable_scoping_wf s Hreach)
    as [(_ & _ & Hstack & _) Hlevels].
  destruct (snoc_or_nil (SymbolTable.scopelevels s))
    as [Hnil|(lv & level & Hlv)]; [done |].
  destruct (snoc_or_nil (SymbolTable.withstacklevels s))
    as [Hnil|(wl & wlevel & Hwl)].
  { unfold levels_paired in Hlevels.
    rewrite Hlv, Hnil, length_app in Hlevels. simpl in Hlevels. lia. }
  destruct (ScopeCleanup_cuts_stacks s lv wl level wlevel Hlv Hwl)
    as (s' & Hclean & _ & _ & Hlv' & Hwl' & _); [by apply Forall_drop |].
  exists s'. split; [done |].
  rewrite Hlv', Hwl', Hlv, Hwl, !length_app. simpl. lia.
Qed.

Lemma ScopeCleanup_returns_when_open_witness :
  reachable table_with_x_field
  ∧ SymbolTable.scopelevels table_with_x_field ≠ []
  ∧ ∃ s',
      SymbolTable.ScopeCleanup table_with_x_field = Ret tt s'
      ∧ S (length (SymbolTable.scopelevels s'))
        = length (SymbolTable.scopelevels table_with_x_field)
      ∧ S (length (SymbolTable.withstacklevels s'))
        = length (SymbolTable.withstacklevels table_with_x_field).
Proof.
  assert (reachable table_with_x_field) as Hreach.
  { apply (reachable_run calls_with_x_field SymbolTable.new);
      [apply reachable_new | vm_compute; reflexivity]. }
  assert (SymbolTable.scopelevels table_with_x_field ≠ []) as Hopen.
  { vm_compute. discriminate. }
  split; [exact Hreach |]. split; [exact Hopen |].
  exact (ScopeCleanup_returns_when_open table_with_x_field Hreach Hopen).
Defined.

(** ** Outside any scope *)



(** ** Declarations and the index tables *)

Lemma created_snoc {A} (idx : A → Z) (h h' : list A) (t : list nat) e :
  (Z.of_nat (length t) ≤ Int.INT_MAX)%Z →
  h' !! length h = Some e →
  idx e = Int.of_size (length t) →
  created idx h h' t (t ++ [length h]) (length h).
Proof.
  intros Hbound He Hidx. rewrite of_size_small in Hidx by done.
  split; [by apply lookup_ge_None_2 |]. split; [done |].
  exists e. split; [done |]. split; [done |].
  rewrite Hidx, Nat2Z.id. apply lookup_snoc_new.
Qed.

Lemma same_index_tables s s' : same_index s s' → same_tables s s'.
Proof. by intros (_ & _ & _ & _ & H1 & H2 & H3 & H4). Qed.

(** A declaration of an identifier that returns has created and registered
    it, unless it has dynamic scope and the name has a live binding. *)
Lemma declare_created s name line dynscope sf p s' :
  tables_bounded s →
  SymbolTable.LookupLexDefOrDynScope name line dynscope sf s = Ret p s' →
  (dynscope = true ∧ SymbolTable.idents s !! name = Some p ∧ s' = s)
  ∨ created Ident.idx (SymbolTable.ident_heap s) (SymbolTable.ident_heap s')
      (SymbolTable.identtable s) (SymbolTable.identtable s') p.
Proof.
  intros (Hbound & _). revert Hbound.
  unfold SymbolTable.LookupLexDefOrDynScope. mred.
  destruct (SymbolTable.idents s !! name) as [q|] eqn:Hlive, dynscope; mred;
    try (intros _ [= <- <-]; by left);
    intros Hbound;
    (destruct (SymbolTable.LookupWithStruct name None s) as [[r1 r2] s1| |]
       eqn:Hw; [| done..]);
    apply LookupWithStruct_state in Hw as ->;
    (destruct r1 as [fld|]; simpl; [done |]);
    (destruct (last (SymbolTable.scopelevels s)) as [level|]; [| done]);
    destruct s; sred_in Hlive; sred_in Hbound; sred;
    rewrite !lookup_snoc_new; sred; rewrite !insert_snoc_new.
  - destruct (ident_heap !! q) as [old|] eqn:Hold.
    + rewrite (lookup_snoc_old _ _ _ _ Hold).
      case_decide; [done |]. sred.
      rewrite lookup_snoc_new. sred. rewrite insert_snoc_new.
      intros [= <- <-]. right. sred.
      eapply created_snoc; [done | apply lookup_snoc_new | done].
    + apply lookup_ge_None in Hold.
      destruct (decide (q = length ident_heap)) as [->|Hne].
      * rewrite lookup_snoc_new. by rewrite decide_True.
      * rewrite lookup_ge_None_2; [done |]. rewrite length_app. simpl. lia.
  - intros [= <- <-]. right. sred.
    eapply created_snoc; [done | apply lookup_snoc_new | done].
  - intros [= <- <-]. right. sred.
    eapply created_snoc; [done | apply lookup_snoc_new | done].
Qed.

Lemma StructDecl_created s name p s' :
  tables_bounded s →
  SymbolTable.StructDecl name s = Ret p s' →
  created Struct.idx (SymbolTable.struct_heap s) (SymbolTable.struct_heap s')
    (SymbolTable.structtable s) (SymbolTable.structtable s') p.
Proof.
  intros (_ & Hbound & _) Hdecl.
  apply StructDecl_Ret_inv in Hdecl as (-> & _ & ->).
  destruct s. sred_in Hbound. sred.
  eapply created_snoc; [done | apply lookup_snoc_new | done].
Qed.

Lemma FieldDecl_created s name idx st p s' :
  tables_bounded s →
  SymbolTable.FieldDecl name idx st s = Ret p s' →
  (SymbolTable.FieldUse name s = Some p
   ∧ SymbolTable.fieldtable s' = SymbolTable.fieldtable s)
  ∨ (SymbolTable.FieldUse name s = None
     ∧ created SharedField.idx (SymbolTable.field_heap s)
         (SymbolTable.field_heap s') (SymbolTable.fieldtable s)
         (SymbolTable.fieldtable s') p).
Proof.
  intros (_ & _ & Hbound & _). revert Hbound.
  unfold SymbolTable.FieldDecl, SymbolTable.FieldUse. mred. destruct s. sred.
  intros Hbound.
  destruct (fields !! name) as [fld|]; sred.
  - destruct (struct_heap !! st) as [x|]; [| done].
    destruct (field_heap !! fld) as [f|] eqn:Hfld; [| done].
    intros [= <- <-]. by left.
  - destruct (struct_heap !! st) as [x|]; [| done].
    rewrite lookup_snoc_new. sred. rewrite insert_snoc_new.
    intros [= <- <-]. right. split; [done |]. sred.
    eapply created_snoc; [done | apply lookup_snoc_new | done].
Qed.

(** The function that the loop of [FunctionDecl] finds has the number of
    arguments that was asked for. *)
Lemma FunctionDecl_loop_found fuel hd nargs s f s' :
  SymbolTable.FunctionDecl_loop fuel hd nargs s = Ret (Some f) s' →
  ∃ x, SymbolTable.function_heap s !! f = Some x ∧ Function.nargs x = nargs.
Proof.
  revert hd. induction fuel as [|fuel IH]; intros [p|]; simpl; mred;
    try done.
  destruct (SymbolTable.function_heap s !! p) as [x|] eqn:Hp; [| done].
  case_decide as Hn.
  - intros [= <- _]. by exists x.
  - apply IH.
Qed.

Lemma FunctionDecl_created s name nargs f s' :
  tables_bounded s →
  SymbolTable.FunctionDecl name nargs s = Ret f s' →
  (∃ x, SymbolTable.function_heap s !! f = Some x
        ∧ Function.nargs x = nargs ∧ s' = s)
  ∨ created Function.idx (SymbolTable.function_heap s)
      (SymbolTable.function_heap s') (SymbolTable.functiontable s)
      (SymbolTable.functiontable s') f.
Proof.
  intros (_ & _ & _ & Hbound) Hdecl.
  apply FunctionDecl_Ret_inv in Hdecl
    as [(hd & x & _ & _ & _ & Hloop & ->)
       |[(_ & -> & ->)|(hd & x & _ & Hhd & _ & _ & -> & ->)]].
  - left. apply FunctionDecl_loop_found in Hloop as (y & Hy & Hn). eauto.
  - right. destruct s. sred_in Hbound. sred.
    eapply created_snoc; [done | apply lookup_snoc_new | done].
  - right. destruct s. sred_in Hbound. sred_in Hhd. sred.
    apply lookup_lt_Some in Hhd as Hlt.
    eapply created_snoc;
      [done
      | rewrite list_lookup_insert_ne by lia; apply lookup_snoc_new
      | done].
Qed.

(** What each call does to the index tables. *)
Lemma exec_declared_at_idx o s s' :
  tables_bounded s →
  state_of (exec o s) = Some s' → declared_at_idx o s s'.
Proof.
  intros Hbound.
  destruct o; simpl; rewrite ?state_of_discard.
  - intros _ p. by apply declare_created.
  - intros H. by apply same_index_tables, (keeps_AddWithStruct ty id).
  - intros H. by apply same_index_tables, keeps_ScopeStart.
  - intros H. by apply same_index_tables, keeps_ScopeCleanup.
  - intros H. by apply same_index_tables, (keeps_UnregisterStruct st).
  - intros H. by apply same_index_tables, (keeps_UnregisterFun f).
  - intros H. by apply same_index_tables, keeps_EndOfInclude.
  - intros _ p. by apply StructDecl_created.
  - intros H. by apply same_index_tables, (keeps_StructUse name).
  - intros _ p. by apply FieldDecl_created.
  - intros _ f. by apply FunctionDecl_created.
  - unfold SymbolTable.on_ident. destruct s. sred.
    destruct (ident_heap !! id) as [i|]; [| done].
    unfold Ident.Assign. mred. simpl.
    by destruct (Ident.constant i); intros [= <-].
  - mred. destruct s. sred.
    destruct (ident_heap !! id) as [i|]; [| done]. by intros [= <-].
  - mred. destruct s. sred.
    destruct (ident_heap !! id) as [i|]; [| done]. by intros [= <-].
  - mred. destruct s. sred.
    destruct (struct_heap !! st) as [x|]; [| done]. by intros [= <-].
Qed.

Section IndexTablesOfOperations.

Variable Serializer : Type.
Variable rbuf : Serializer → bool.
Variable ser_string : Serializer → string → Serializer * string.
Variable ser_bool : Serializer → bool → Serializer * bool.
Variable ser_idents :
  Serializer → list Ident.t * list nat → Serializer * (list Ident.t * list nat).
Variable ser_functions :
  Serializer → list Function.t * list nat
  → Serializer * (list Function.t * list nat).
Variable ser_structs :
  Serializer → list Struct.t * list nat
  → Serializer * (list Struct.t * list nat).
Variable ser_fields :
  Serializer → list SharedField.t * list nat
  → Serializer * (list SharedField.t * list nat).
Variable ser_ints : Serializer → list Z → Serializer * list Z.
Variable ser_strings : Serializer → list string → Serializer * list string.
Variable ser_lineinfos :
  Serializer → list LineInfo.t → Serializer * list LineInfo.t.
Variable curvers : string.

(** [Serialize] changes the index tables through the four transfers only,
    and not at all when it throws. *)
Lemma Serialize_idx_inv (im im' : image Serializer) :
  transfers_keep_idx ser_idents ser_functions ser_structs ser_fields →
  idx_inv (table im) →
  state_of
    (Serialize Serializer rbuf ser_string ser_bool ser_idents ser_functions
       ser_structs ser_fields ser_ints ser_strings ser_lineinfos curvers im)
  = Some im' →
  idx_inv (table im').
Proof.
  intros (Kid & Kfn & Kst & Kfd) (Iid & Ist & Ifd & Ifn).
  unfold Serialize.
  destruct (ser_string (ser im) curvers) as [ser1 vers].
  destruct (rbuf ser1 && negb (String.eqb vers curvers)).
  { intros [= <-]. by repeat split. }
  destruct (ser_bool ser1 _) as [ser2 ufs].
  destruct im as [sr0 s c l]. destruct s. sred. simpl in *.
  sred_in Iid. sred_in Ist. sred_in Ifd. sred_in Ifn.
  specialize (Kid ser2 _ _ Iid).
  destruct (ser_idents ser2 _) as [ser3 [ih it]].
  specialize (Kfn ser3 _ _ Ifn).
  destruct (ser_functions ser3 _) as [ser4 [fh ft]].
  specialize (Kst ser4 _ _ Ist).
  destruct (ser_structs ser4 _) as [ser5 [sh stt]].
  specialize (Kfd ser5 _ _ Ifd).
  destruct (ser_fields ser5 _) as [ser6 [dh dt]].
  destruct (ser_ints ser6 _) as [ser7 code'].
  destruct (ser_strings ser7 _) as [ser8 fns].
  destruct (ser_lineinfos ser8 _) as [ser9 lns].
  intros [= <-]. unfold idx_inv. sred. simpl. by repeat split.
Qed.

(** C8: every entity that a declaration creates is appended to the index
    table of its class with its position there as its [idx], so that
    [table[e.idx] is e]; and every operation of the symbol table, whether it
    returns or raises an error, keeps [table[e.idx] is e] for the four
    index tables.  The calls on the table only append to the index tables:
    a declaration appends the one entity it creates, and scope cleanup,
    privacy pruning, unregistering and every other call leave the four
    tables as they are.  The sizes of the tables are assumed to be values of
    [int], of which [idx] is one.  [Serialize] hands the four tables to a
    serializer that is declared outside this header: it keeps the invariant
    when the transfer of each table does. *)
Theorem operations_preserve_idx_inv (x : operation)
    (im im' : image Serializer) :
  idx_inv (table im) →
  tables_bounded (table im) →
  (x = CallSerialize →
   transfers_keep_idx ser_idents ser_functions ser_structs ser_fields) →
  state_of
    (perform Serializer rbuf ser_string ser_bool ser_idents ser_functions
       ser_structs ser_fields ser_ints ser_strings ser_lineinfos curvers x im)
  = Some im' →
  idx_inv (table im')
  ∧ ∀ o, x = Call o →
         tables_grow (table im) (table im')
         ∧ declared_at_idx o (table im) (table im').
Proof.
  intros Hinv Hbound Hser. destruct x as [o|]; simpl.
  - unfold on_table. intros Hexec.
    assert (state_of (exec o (table im)) = Some (table im')) as Hstep.
    { destruct (exec o (table im)) as [[] s1|msg s1|]; [| | done];
        by injection Hexec as <-. }
    pose proof (exec_index_step _ _ _ Hstep) as Hindex.
    split; [by eapply index_step_inv |].
    intros o' [= <-].
    split; [by apply index_step_grow | by apply exec_declared_at_idx].
  - intros Hexec. split; [| done].
    eapply Serialize_idx_inv; [by apply Hser | done | done].
Qed.

End IndexTablesOfOperations.

Lemma operations_preserve_idx_inv_witness :
  (idx_inv table_f1
   ∧ tables_bounded table_f1
   ∧ state_of (perform_list_reader false (Call (OpFunctionDecl "f" 2))
                 image_f1)
     = Some image_f1_f2
   ∧ idx_inv table_f1_f2
   ∧ tables_grow table_f1 table_f1_f2
   ∧ declared_at_idx (OpFunctionDecl "f" 2) table_f1 table_f1_f2)
  ∧ (idx_inv table_x
     ∧ tables_bounded table_x
     ∧ transfers_keep_idx (Serializer := list string) list_reader_other
         list_reader_other list_reader_other list_reader_other
     ∧ state_of (perform_list_reader true CallSerialize fresh_cache)
       = Some fresh_cache_read
     ∧ idx_inv (table fresh_cache_read)).
Proof.
  assert (tables_bounded table_f1) as Hbound1.
  { repeat split; vm_compute; discriminate. }
  assert (idx_inv table_f1) as Hinv1.
  { apply reachable_idx_inv; [| exact Hbound1].
    apply (reachable_run [OpFunctionDecl "f" 1] SymbolTable.new);
      [apply reachable_new |]. vm_compute. reflexivity. }
  assert (state_of (perform_list_reader false (Call (OpFunctionDecl "f" 2))
                      image_f1)
          = Some image_f1_f2) as Hexec1.
  { vm_compute. reflexivity. }
  assert (tables_bounded table_x) as Hbound2.
  { repeat split; vm_compute; discriminate. }
  assert (idx_inv table_x) as Hinv2.
  { apply reachable_idx_inv; [| exact Hbound2].
    apply (reachable_run
             [OpScopeStart; OpLookupLexDefOrDynScope "x" 1 false None]
             SymbolTable.new);
      [apply reachable_new |]. vm_compute. reflexivity. }
  assert (transfers_keep_idx (Serializer := list string) list_reader_other
            list_reader_other list_reader_other list_reader_other) as Hser.
  { repeat split; intros sr h t Hindexed; exact Hindexed. }
  assert (state_of (perform_list_reader true CallSerialize fresh_cache)
          = Some fresh_cache_read) as Hexec2.
  { vm_compute. reflexivity. }
  split.
  - split; [exact Hinv1 |]. split; [exact Hbound1 |]. split; [exact Hexec1 |].
    destruct (operations_preserve_idx_inv (list string) (λ _, false)
                list_reader_string list_reader_other list_reader_other
                list_reader_other list_reader_other list_reader_other
                list_reader_other list_reader_other list_reader_other
                "Oct 30 2026" (Call (OpFunctionDecl "f" 2))
                image_f1 image_f1_f2 Hinv1 Hbound1
                (λ H, match H with end) Hexec1) as [Hinv' Hdecl].
    split; [exact Hinv' |]. exact (Hdecl _ eq_refl).
  - split; [exact Hinv2 |]. split; [exact Hbound2 |]. split; [exact Hser |].
    split; [exact Hexec2 |].
    exact (proj1 (operations_preserve_idx_inv (list string) (λ _, true)
                    list_reader_string list_reader_other list_reader_other
                    list_reader_other list_reader_other list_reader_other
                    list_reader_other list_reader_other list_reader_other
                    "Oct 30 2026" CallSerialize fresh_cache fresh_cache_read
                    Hinv2 Hbound2 (λ _, Hser) Hexec2)).
Defined.
